(** * GemQuest: the world model and the simulation step of [main.c]

    The development embeds the game logic of [main.c] (the section "Game
    logic": the field map, the position/index conversions, the load-time
    validation, the input callbacks, the update callback and the redraw
    callback), the matrix functions and the length check of the mesh
    creation, and proves properties of them.

    Conventions of the embedding.

    - The C globals are gathered in one record, [GameState]; every callback
      is a function from the state before to the outcome after.
    - A call of [Common_terminate] (which prints and calls [exit(1)]), a read
      outside the bounds of the [map] array and a conversion of an
      out-of-range [float] to [int] do not produce a next state: they are the
      outcomes [Terminated] and [Undefined] of the type [outcome].
    - The renderer is the record [Frame]: the uniforms of the shader
      program and the list of the draw calls issued since the frame was
      cleared, each with the uniforms it was issued with.  The buffers and
      the shader objects of OpenGL are not modelled.
    - [int] values are integers of [Z]; the places where C's [int] range
      matters (the float-to-int conversion and the index arithmetic of the
      probe loops) carry an explicit range check.
    - [float] arithmetic is abstracted by the interface [FloatOps]; the code
      is written once against that interface.  Two instances are given:
      exact rational arithmetic ([Qfloat], executable; the functions of
      [math.h] that leave the rationals are supplied by a [Libm] record) and
      real arithmetic ([Rfloat], with the square root, sine and cosine of the
      real numbers).  Rounding error, overflow and NaN of IEEE binary32 are
      outside both.  (The code divides by 1000, by 2, by 180 and by a length
      greater than 1 only, so no division by zero has to be given a
      meaning.)  A third instance, [Binary32], is IEEE binary32 itself; it
      is executable and shows what the rounding does to a run. *)

From Stdlib Require Import ZArith QArith Qround Qabs Qreduction Bool List String Ascii Lia Lra Lqa.
From Stdlib Require Import Reals.
From Stdlib Require SpecFloat.
Import ListNotations.

Local Open Scope Z_scope.

(* ================================================================== *)
(** * Outcomes of a computation *)
(* ================================================================== *)

(** What a piece of the program can do: return a value, end the process
    through [Common_terminate], run into behaviour that C leaves undefined,
    or (in the model only) exhaust the fuel given to a loop. *)
Inductive outcome (A : Type) : Type :=
| Ret (a : A)
| Terminated (applicationStage errorMessage : string)
| Undefined
| OutOfFuel.

Arguments Ret {A} a.
Arguments Terminated {A} applicationStage errorMessage.
Arguments Undefined {A}.
Arguments OutOfFuel {A}.

Definition bind {A B : Type} (m : outcome A) (k : A -> outcome B) : outcome B :=
  match m with
  | Ret a => k a
  | Terminated stage msg => Terminated stage msg
  | Undefined => Undefined
  | OutOfFuel => OutOfFuel
  end.

Declare Scope outcome_scope.
Delimit Scope outcome_scope with outcome.
Notation "x <- m ;; k" := (bind m (fun x => k))
  (at level 61, m at next level, right associativity) : outcome_scope.
Notation "' p <- m ;; k" := (bind m (fun x => match x with p => k end))
  (at level 61, p pattern, m at next level, right associativity) : outcome_scope.
Local Open Scope outcome_scope.

(** [void Common_terminate(const char *applicationStage, const char *errorMessage)] *)
Definition Common_terminate {A : Type} (applicationStage errorMessage : string)
  : outcome A :=
  Terminated applicationStage errorMessage.

(** A C loop [while (cond) body] over the loop's variables [s]; a [for] loop
    is the same with its increment at the end of the body. *)
Fixpoint while_loop {S : Type} (fuel : nat) (cond : S -> bool)
    (body : S -> outcome S) (s : S) : outcome S :=
  match fuel with
  | O => OutOfFuel
  | Datatypes.S fuel' =>
      if cond s then s' <- body s ;; while_loop fuel' cond body s'
      else Ret s
  end.

(** The range of a C [int] (32 bits). *)
Definition INT_MIN : Z := - 2 ^ 31.
Definition INT_MAX : Z := 2 ^ 31 - 1.

(** The result of an [int] operation whose mathematical value is [z]: signed
    overflow is undefined behaviour. *)
Definition int_result (z : Z) : outcome Z :=
  if (INT_MIN <=? z) && (z <=? INT_MAX) then Ret z else Undefined.

(* ================================================================== *)
(** * The arithmetic of [float] *)
(* ================================================================== *)

Class FloatOps (F : Type) : Type := {
  (** the value of a decimal literal such as [0.2f] *)
  fconst : Q -> F;
  (** [(float)i] *)
  of_int : Z -> F;
  (** the integer part kept by [(int)x] (truncation toward zero) *)
  trunc : F -> Z;
  fadd : F -> F -> F;
  fsub : F -> F -> F;
  fmul : F -> F -> F;
  fdiv : F -> F -> F;
  fneg : F -> F;
  (** [x < y] *)
  fltb : F -> F -> bool;
  (** [fabsf], [roundf], [sqrt], [sin] and [cos] of [math.h] *)
  fabsf : F -> F;
  roundf : F -> F;
  fsqrt : F -> F;
  fsin : F -> F;
  fcos : F -> F
}.

Declare Scope float_scope.
Delimit Scope float_scope with float.
Infix "+" := fadd : float_scope.
Infix "-" := fsub : float_scope.
Infix "*" := fmul : float_scope.
Infix "/" := fdiv : float_scope.
Notation "- x" := (fneg x) : float_scope.
Infix "<?" := fltb : float_scope.
Notation "x >? y" := (fltb y x) : float_scope.

Section FloatCode.

Context {F : Type} {ops : FloatOps F}.

(** [(int)x]: undefined when the integer part is outside the range of [int]. *)
Definition float_to_int (x : F) : outcome Z := int_result (trunc x).

(** [#define MIN(a,b) (((a)<(b))?(a):(b))] and
    [#define MAX(a,b) (((a)>(b))?(a):(b))] at type [float]. *)
Definition MIN (a b : F) : F := if (a <? b)%float then a else b.
Definition MAX (a b : F) : F := if (a >? b)%float then a else b.

(** [pow(x, 2)] *)
Definition pow2 (x : F) : F := (x * x)%float.

Definition PI : F := fconst (31415926 # 10000000).
Definition CALCULATION_TRESHOLD : F := fconst (1 # 100).
Definition PLAYER_MAX_SPEED : F := fconst (2 # 10).
Definition PLAYER_JUMP_SPEED : F := fconst (18 # 10).
Definition PLAYER_FRICTION : F := fconst (5 # 1).
Definition PLAYER_GRAVITY : F := fconst (8 # 100).
Definition ITEM_ROTATION_SPEED : F := fconst (45 # 1).
Definition FADEOUT_SPEED : F := fconst (5 # 10).
Definition FLOOR_BOUNCYNESS : F := fconst (25 # 100).
Definition MOUSE_SPEED : F := fconst (175 # 100).
Definition MOUSE_FRICTION : F := fconst (75 # 10).

(** [float Common_degToRad(float deg)] *)
Definition Common_degToRad (deg : F) : F :=
  (deg * (PI / fconst (180 # 1)))%float.

End FloatCode.

(* ================================================================== *)
(** * Fields, item states and the map *)
(* ================================================================== *)

(** [typedef enum { Initial, Held, Dropped } ItemState] *)
Inductive ItemState : Type := Initial | Held | Dropped.

(** [typedef enum { Init = -2, Arch = -1, Tile = 0, Wall = 1, Item = 2,
    Goal = 3 } Field] *)
Inductive Field : Type := Init | Arch | Tile | Wall | Item | Goal.

(** The integer value of an enumerator. *)
Definition Field_value (f : Field) : Z :=
  match f with
  | Init => -2 | Arch => -1 | Tile => 0 | Wall => 1 | Item => 2 | Goal => 3
  end.

Definition ItemState_value (s : ItemState) : Z :=
  match s with Initial => 0 | Held => 1 | Dropped => 2 end.

Definition Field_eqb (a b : Field) : bool := Field_value a =? Field_value b.
Definition ItemState_eqb (a b : ItemState) : bool :=
  ItemState_value a =? ItemState_value b.

(** The three variables that "define the game field and need to be
    consistent to allow the game to start": [mapWidth], [mapDepth] and the
    array [map]. *)
Record MapDefinition : Type := {
  mapWidth : Z;
  mapDepth : Z;
  map : list Field
}.

(** [LENGTHOF(map)] *)
Definition LENGTHOF (a : list Field) : Z := Z.of_nat (List.length a).

(** [a[i]]: reading outside the array is undefined behaviour. *)
Definition array_read (a : list Field) (i : Z) : outcome Field :=
  if (0 <=? i) && (i <? LENGTHOF a) then
    match nth_error a (Z.to_nat i) with
    | Some f => Ret f
    | None => Undefined
    end
  else Undefined.

(** The map of the game (without [BORING_MODE]). *)
Definition gemquest_map : MapDefinition := {|
  mapWidth := 15;
  mapDepth := 11;
  map := [
    Wall; Wall; Wall; Wall; Wall; Wall; Wall; Wall; Wall; Wall; Wall;
    Wall; Tile; Tile; Tile; Tile; Wall; Tile; Tile; Tile; Tile; Wall;
    Wall; Tile; Wall; Wall; Wall; Wall; Wall; Wall; Wall; Tile; Wall;
    Wall; Tile; Tile; Tile; Tile; Tile; Tile; Tile; Wall; Tile; Wall;
    Wall; Wall; Wall; Wall; Wall; Tile; Wall; Wall; Wall; Tile; Wall;
    Wall; Tile; Goal; Tile; Wall; Tile; Wall; Tile; Wall; Tile; Wall;
    Wall; Tile; Tile; Tile; Wall; Tile; Wall; Tile; Tile; Tile; Wall;
    Wall; Init; Tile; Tile; Arch; Tile; Wall; Tile; Wall; Tile; Wall;
    Wall; Tile; Tile; Tile; Wall; Tile; Tile; Tile; Wall; Tile; Wall;
    Wall; Tile; Tile; Tile; Wall; Wall; Wall; Wall; Wall; Tile; Wall;
    Wall; Wall; Wall; Wall; Wall; Tile; Tile; Tile; Tile; Tile; Wall;
    Wall; Tile; Tile; Tile; Tile; Tile; Wall; Wall; Wall; Wall; Wall;
    Wall; Tile; Wall; Wall; Wall; Wall; Wall; Tile; Tile; Item; Wall;
    Wall; Tile; Tile; Tile; Tile; Tile; Tile; Tile; Wall; Wall; Wall;
    Wall; Wall; Wall; Wall; Wall; Wall; Wall; Wall; Wall; Wall; Wall
  ]
|}.

(* ================================================================== *)
(** * The world model *)
(* ================================================================== *)

Section WorldModel.

Context {F : Type} {ops : FloatOps F}.
Variable M : MapDefinition.

(** [void Game_getMapFieldIndiciesByPosition(float positionX,
    float positionZ, int *indexX, int *indexZ)] *)
Definition Game_getMapFieldIndiciesByPosition (positionX positionZ : F)
  : outcome (Z * Z) :=
  indexX <- float_to_int (roundf positionX) ;;
  indexZ <- float_to_int (roundf positionZ) ;;
  Ret (indexX, indexZ).

(** [void Game_getMapFieldPositionByIndicies(int indexX, int indexZ,
    float *positionX, float *positionZ)] *)
Definition Game_getMapFieldPositionByIndicies (indexX indexZ : Z) : F * F :=
  (of_int indexX, of_int indexZ).

(** [Field Game_getMapFieldByIndicies(int x, int z)] *)
Definition Game_getMapFieldByIndicies (x z : Z) : outcome Field :=
  if (x <? 0) || (x >? mapWidth M) || (z <? 0) || (z >? mapDepth M) then
    Common_terminate "INGAME" "An invalid field position was requested."
  else array_read (map M) (x * mapDepth M + z).

(** [Field Game_getMapFieldByPosition(float x, float z)] *)
Definition Game_getMapFieldByPosition (x z : F) : outcome Field :=
  '(indexX, indexZ) <- Game_getMapFieldIndiciesByPosition x z ;;
  array_read (map M) (indexX * mapDepth M + indexZ).

End WorldModel.

(* ================================================================== *)
(** * The state of the game *)
(* ================================================================== *)

(** The input actions: [inputForward], [inputRight], [inputBackwards],
    [inputLeft], [inputJump], [inputAction]. *)
Record Input : Type := {
  inputForward : bool;
  inputRight : bool;
  inputBackwards : bool;
  inputLeft : bool;
  inputJump : bool;
  inputAction : bool
}.

Definition set_inputForward (b : bool) (i : Input) : Input :=
  {| inputForward := b; inputRight := inputRight i;
     inputBackwards := inputBackwards i; inputLeft := inputLeft i;
     inputJump := inputJump i; inputAction := inputAction i |}.
Definition set_inputRight (b : bool) (i : Input) : Input :=
  {| inputForward := inputForward i; inputRight := b;
     inputBackwards := inputBackwards i; inputLeft := inputLeft i;
     inputJump := inputJump i; inputAction := inputAction i |}.
Definition set_inputBackwards (b : bool) (i : Input) : Input :=
  {| inputForward := inputForward i; inputRight := inputRight i;
     inputBackwards := b; inputLeft := inputLeft i;
     inputJump := inputJump i; inputAction := inputAction i |}.
Definition set_inputLeft (b : bool) (i : Input) : Input :=
  {| inputForward := inputForward i; inputRight := inputRight i;
     inputBackwards := inputBackwards i; inputLeft := b;
     inputJump := inputJump i; inputAction := inputAction i |}.
Definition set_inputJump (b : bool) (i : Input) : Input :=
  {| inputForward := inputForward i; inputRight := inputRight i;
     inputBackwards := inputBackwards i; inputLeft := inputLeft i;
     inputJump := b; inputAction := inputAction i |}.
Definition set_inputAction (b : bool) (i : Input) : Input :=
  {| inputForward := inputForward i; inputRight := inputRight i;
     inputBackwards := inputBackwards i; inputLeft := inputLeft i;
     inputJump := inputJump i; inputAction := b |}.

(** The player: position, "accerlation" (the per-update displacement),
    rotation and rotation "accerlation". *)
Record Player (F : Type) : Type := {
  playerX : F;
  playerY : F;
  playerZ : F;
  playerAccerlationX : F;
  playerAccerlationY : F;
  playerAccerlationZ : F;
  playerRotationY : F;
  playerRotationX : F;
  playerRotationAccerlationY : F;
  playerRotationAccerlationX : F
}.

Arguments playerX {F} _.
Arguments playerY {F} _.
Arguments playerZ {F} _.
Arguments playerAccerlationX {F} _.
Arguments playerAccerlationY {F} _.
Arguments playerAccerlationZ {F} _.
Arguments playerRotationY {F} _.
Arguments playerRotationX {F} _.
Arguments playerRotationAccerlationY {F} _.
Arguments playerRotationAccerlationX {F} _.

(** The globals of the game logic.  [mainLoopLeft] records that
    [glutLeaveMainLoop] was called.  ([previousMouseX] and [previousMouseY]
    are never read or written after their initialisation and are left out,
    as are the shader and the meshes.) *)
Record GameState (F : Type) : Type := {
  isLoaded : bool;
  mainLoopLeft : bool;
  input : Input;
  currentMouseX : F;
  currentMouseY : F;
  player : Player F;
  itemRotationY : F;
  itemState : ItemState;
  gameBrightness : F;
  lastUpdateTime : Z;
  currentTimeMs : F;
  currentWindowWidth : Z;
  currentWindowHeight : Z
}.

Arguments isLoaded {F} _.
Arguments mainLoopLeft {F} _.
Arguments input {F} _.
Arguments currentMouseX {F} _.
Arguments currentMouseY {F} _.
Arguments player {F} _.
Arguments itemRotationY {F} _.
Arguments itemState {F} _.
Arguments gameBrightness {F} _.
Arguments lastUpdateTime {F} _.
Arguments currentTimeMs {F} _.
Arguments currentWindowWidth {F} _.
Arguments currentWindowHeight {F} _.

Section Game.

Context {F : Type} {ops : FloatOps F}.
Variable M : MapDefinition.

Definition set_input (i : Input) (s : GameState F) : GameState F :=
  {| isLoaded := isLoaded s; mainLoopLeft := mainLoopLeft s; input := i;
     currentMouseX := currentMouseX s; currentMouseY := currentMouseY s;
     player := player s; itemRotationY := itemRotationY s;
     itemState := itemState s; gameBrightness := gameBrightness s;
     lastUpdateTime := lastUpdateTime s; currentTimeMs := currentTimeMs s;
     currentWindowWidth := currentWindowWidth s;
     currentWindowHeight := currentWindowHeight s |}.

Definition set_mainLoopLeft (b : bool) (s : GameState F) : GameState F :=
  {| isLoaded := isLoaded s; mainLoopLeft := b; input := input s;
     currentMouseX := currentMouseX s; currentMouseY := currentMouseY s;
     player := player s; itemRotationY := itemRotationY s;
     itemState := itemState s; gameBrightness := gameBrightness s;
     lastUpdateTime := lastUpdateTime s; currentTimeMs := currentTimeMs s;
     currentWindowWidth := currentWindowWidth s;
     currentWindowHeight := currentWindowHeight s |}.

(** The globals as their initialisers leave them (objects of static storage
    without initialiser start at zero). *)
Definition initial_state : GameState F := {|
  isLoaded := false;
  mainLoopLeft := false;
  input := {| inputForward := false; inputRight := false;
              inputBackwards := false; inputLeft := false;
              inputJump := false; inputAction := false |};
  currentMouseX := of_int 0;
  currentMouseY := of_int 0;
  player := {| playerX := of_int 0; playerY := of_int 0; playerZ := of_int 0;
               playerAccerlationX := of_int 0; playerAccerlationY := of_int 0;
               playerAccerlationZ := of_int 0;
               playerRotationY := of_int 0; playerRotationX := of_int 0;
               playerRotationAccerlationY := of_int 0;
               playerRotationAccerlationX := of_int 0 |};
  itemRotationY := of_int 0;
  itemState := Initial;
  gameBrightness := fconst 0;
  lastUpdateTime := 0;
  currentTimeMs := of_int 0;
  currentWindowWidth := 0;
  currentWindowHeight := 0
|}.

(* ------------------------------------------------------------------ *)
(** ** Loading *)
(* ------------------------------------------------------------------ *)

(** The loop variables of the search for the spawn point. *)
Record SpawnSearch : Type := {
  spawnX : Z;
  spawnZ : Z;
  spawnPointFound : bool
}.

(** The inner loop
    [for (spawnZ = 0; spawnZ < mapDepth && !spawnPointFound; spawnZ++)]
    from its condition on. *)
Definition spawn_search_z (v : SpawnSearch) : outcome SpawnSearch :=
  while_loop (Z.to_nat (mapDepth M) + 1)
    (fun v => (spawnZ v <? mapDepth M) && negb (spawnPointFound v))
    (fun v =>
       f <- Game_getMapFieldByIndicies M (spawnX v) (spawnZ v) ;;
       let v :=
         if Field_eqb f Init then
           {| spawnX := spawnX v - 1; spawnZ := spawnZ v - 1;
              spawnPointFound := true |}
         else v in
       Ret {| spawnX := spawnX v; spawnZ := spawnZ v + 1;
              spawnPointFound := spawnPointFound v |})
    v.

(** The outer loop
    [for (spawnX = 0; spawnX < mapWidth && !spawnPointFound; spawnX++)]. *)
Definition spawn_search : outcome SpawnSearch :=
  while_loop (Z.to_nat (mapWidth M) + 1)
    (fun v => (spawnX v <? mapWidth M) && negb (spawnPointFound v))
    (fun v =>
       v <- spawn_search_z {| spawnX := spawnX v; spawnZ := 0;
                              spawnPointFound := spawnPointFound v |} ;;
       Ret {| spawnX := spawnX v + 1; spawnZ := spawnZ v;
              spawnPointFound := spawnPointFound v |})
    {| spawnX := 0; spawnZ := 0; spawnPointFound := false |}.

(** [void Game_onLoad(void)]; [elapsedTime] is what
    [glutGet(GLUT_ELAPSED_TIME)] returns.  The creation of the shader and of
    the meshes is not part of the model. *)
Definition Game_onLoad (elapsedTime : Z) (s : GameState F) : outcome (GameState F) :=
  if isLoaded s then
    Common_terminate "LOADING" "The load function was called more than once."
  else
    size <- int_result (mapWidth M * mapDepth M) ;;
    if negb (LENGTHOF (map M) =? size) then
      Common_terminate "LOADING"
        "The map size doesn't match with the actual data size."
    else
      v <- spawn_search ;;
      let '(positionX, positionZ) :=
        Game_getMapFieldPositionByIndicies (spawnX v) (spawnZ v) in
      if negb (spawnPointFound v) then
        Common_terminate "LOADING"
          "The map doesn't contain a player spawn point."
      else
        Ret {| isLoaded := true; mainLoopLeft := mainLoopLeft s;
               input := input s;
               currentMouseX := currentMouseX s;
               currentMouseY := currentMouseY s;
               player :=
                 {| playerX := positionX; playerY := playerY (player s);
                    playerZ := positionZ;
                    playerAccerlationX := playerAccerlationX (player s);
                    playerAccerlationY := playerAccerlationY (player s);
                    playerAccerlationZ := playerAccerlationZ (player s);
                    playerRotationY := playerRotationY (player s);
                    playerRotationX := playerRotationX (player s);
                    playerRotationAccerlationY :=
                      playerRotationAccerlationY (player s);
                    playerRotationAccerlationX :=
                      playerRotationAccerlationX (player s) |};
               itemRotationY := itemRotationY s;
               itemState := itemState s;
               gameBrightness := gameBrightness s;
               lastUpdateTime := elapsedTime;
               currentTimeMs := currentTimeMs s;
               currentWindowWidth := currentWindowWidth s;
               currentWindowHeight := currentWindowHeight s |}.

(* ------------------------------------------------------------------ *)
(** ** The callbacks of the window system *)
(* ------------------------------------------------------------------ *)

(** [void Game_onDestroy()]: releases the resources and leaves the main
    loop. *)
Definition Game_onDestroy (s : GameState F) : GameState F :=
  if isLoaded s then set_mainLoopLeft true s else s.

(** [void Game_onResize(int newWidth, int newHeight)] *)
Definition Game_onResize (newWidth newHeight : Z) (s : GameState F) : GameState F :=
  {| isLoaded := isLoaded s; mainLoopLeft := mainLoopLeft s; input := input s;
     currentMouseX := currentMouseX s; currentMouseY := currentMouseY s;
     player := player s; itemRotationY := itemRotationY s;
     itemState := itemState s; gameBrightness := gameBrightness s;
     lastUpdateTime := lastUpdateTime s; currentTimeMs := currentTimeMs s;
     currentWindowWidth := newWidth;
     currentWindowHeight := newHeight |}.

(** [void Game_onKeyboardDown(unsigned char key, int mouseX, int mouseY)] *)
Definition Game_onKeyboardDown (key : ascii) (s : GameState F) : GameState F :=
  if Ascii.eqb key "w" then set_input (set_inputForward true (input s)) s
  else if Ascii.eqb key "s" then set_input (set_inputBackwards true (input s)) s
  else if Ascii.eqb key "a" then set_input (set_inputLeft true (input s)) s
  else if Ascii.eqb key "d" then set_input (set_inputRight true (input s)) s
  else if Ascii.eqb key " " then set_input (set_inputJump true (input s)) s
  else if Ascii.eqb key "e" then set_input (set_inputAction true (input s)) s
  else if Ascii.eqb key "027" then Game_onDestroy s
  else s.

(** [void Game_onKeyboardUp(unsigned char key, int mouseX, int mouseY)] *)
Definition Game_onKeyboardUp (key : ascii) (s : GameState F) : GameState F :=
  if Ascii.eqb key "w" then set_input (set_inputForward false (input s)) s
  else if Ascii.eqb key "s" then set_input (set_inputBackwards false (input s)) s
  else if Ascii.eqb key "a" then set_input (set_inputLeft false (input s)) s
  else if Ascii.eqb key "d" then set_input (set_inputRight false (input s)) s
  else if Ascii.eqb key " " then set_input (set_inputJump false (input s)) s
  else if Ascii.eqb key "e" then set_input (set_inputAction false (input s)) s
  else s.

(** [void Game_onMouseMove(int mouseX, int mouseY)] *)
Definition Game_onMouseMove (mouseX mouseY : Z) (s : GameState F) : GameState F :=
  {| isLoaded := isLoaded s; mainLoopLeft := mainLoopLeft s; input := input s;
     currentMouseX := of_int mouseX; currentMouseY := of_int mouseY;
     player := player s; itemRotationY := itemRotationY s;
     itemState := itemState s; gameBrightness := gameBrightness s;
     lastUpdateTime := lastUpdateTime s; currentTimeMs := currentTimeMs s;
     currentWindowWidth := currentWindowWidth s;
     currentWindowHeight := currentWindowHeight s |}.

(* ------------------------------------------------------------------ *)
(** ** The update callback, part by part *)
(* ------------------------------------------------------------------ *)

(** The fade: the new value of [gameBrightness], and whether
    [Game_onDestroy] is called.

    [if (itemState == Initial && gameBrightness < 1.0f)
       gameBrightness = MIN(1, gameBrightness + FADEOUT_SPEED * deltaSeconds);
     else if (itemState == Dropped) {
       if (gameBrightness > 0.0f) gameBrightness -= FADEOUT_SPEED * deltaSeconds;
       else { printf(...); Game_onDestroy(); } }] *)
Definition update_brightness (itemState : ItemState) (gameBrightness : F)
    (deltaSeconds : F) : F * bool :=
  if ItemState_eqb itemState Initial && (gameBrightness <? fconst 1)%float then
    (MIN (of_int 1) (gameBrightness + FADEOUT_SPEED * deltaSeconds)%float, false)
  else if ItemState_eqb itemState Dropped then
    if (gameBrightness >? fconst 0)%float then
      ((gameBrightness - FADEOUT_SPEED * deltaSeconds)%float, false)
    else (gameBrightness, true)
  else (gameBrightness, false).

(** The look control: the new [playerRotationAccerlationX],
    [playerRotationAccerlationY], [playerRotationX] and [playerRotationY]. *)
Definition update_rotation (s : GameState F) (gameBrightness deltaSeconds : F)
  : F * F * F * F :=
  let capturedMouseX := (of_int (currentWindowWidth s) / fconst 2)%float in
  let capturedMouseY := (of_int (currentWindowHeight s) / fconst 2)%float in
  let mouseSpeedX := ((capturedMouseX - currentMouseX s) * gameBrightness)%float in
  let mouseSpeedY := ((capturedMouseY - currentMouseY s) * gameBrightness)%float in
  let playerRotationAccerlationX :=
    (playerRotationAccerlationX (player s)
     + mouseSpeedY * MOUSE_SPEED * deltaSeconds)%float in
  let playerRotationAccerlationY :=
    (playerRotationAccerlationY (player s)
     + mouseSpeedX * MOUSE_SPEED * deltaSeconds)%float in
  let playerRotationAccerlationX :=
    (playerRotationAccerlationX
     - playerRotationAccerlationX * MOUSE_FRICTION * deltaSeconds)%float in
  let playerRotationAccerlationY :=
    (playerRotationAccerlationY
     - playerRotationAccerlationY * MOUSE_FRICTION * deltaSeconds)%float in
  let playerRotationX :=
    (playerRotationX (player s) + playerRotationAccerlationX)%float in
  let playerRotationY :=
    (playerRotationY (player s) + playerRotationAccerlationY)%float in
  (playerRotationAccerlationX, playerRotationAccerlationY,
   playerRotationX, playerRotationY).

(** The raw acceleration of the keyboard input, normalised when it is longer
    than 1: [newAxisAccerlationX] and [newAxisAccerlationZ]. *)
Definition axis_accerlation (i : Input) : F * F :=
  let newAxisAccerlationX :=
    ((if inputRight i then fconst 1 else of_int 0)
     - (if inputLeft i then of_int 1 else of_int 0))%float in
  let newAxisAccerlationZ :=
    ((if inputForward i then fconst 1 else of_int 0)
     - (if inputBackwards i then fconst 1 else of_int 0))%float in
  let newAxisAccerlation :=
    fsqrt (pow2 newAxisAccerlationX + pow2 newAxisAccerlationZ)%float in
  if (fabsf newAxisAccerlation >? fconst 1)%float then
    ((newAxisAccerlationX / newAxisAccerlation)%float,
     (newAxisAccerlationZ / newAxisAccerlation)%float)
  else (newAxisAccerlationX, newAxisAccerlationZ).

(** The raw acceleration rotated by the player rotation:
    [newAccerlationX] and [newAccerlationZ]. *)
Definition rotated_accerlation (i : Input) (playerRotationY : F) : F * F :=
  let '(newAxisAccerlationX, newAxisAccerlationZ) := axis_accerlation i in
  let playerRotationYSin := fsin (Common_degToRad playerRotationY) in
  let playerRotationYCos := fcos (Common_degToRad playerRotationY) in
  let newAccerlationX :=
    (newAxisAccerlationX * playerRotationYCos
     - newAxisAccerlationZ * playerRotationYSin)%float in
  let newAccerlationZ :=
    (newAxisAccerlationZ * playerRotationYCos
     + newAxisAccerlationX * playerRotationYSin)%float in
  (newAccerlationX, newAccerlationZ).

(** What one update adds to [playerAccerlationX] and [playerAccerlationZ]:
    [newAccerlationX * (deltaSeconds * PLAYER_MAX_SPEED)] and the same for Z. *)
Definition added_accerlation (i : Input) (playerRotationY deltaSeconds : F)
  : F * F :=
  let '(newAccerlationX, newAccerlationZ) :=
    rotated_accerlation i playerRotationY in
  ((newAccerlationX * (deltaSeconds * PLAYER_MAX_SPEED))%float,
   (newAccerlationZ * (deltaSeconds * PLAYER_MAX_SPEED))%float).

(** Jump, gravity and bounce: the new [playerAccerlationY]. *)
Definition update_vertical (playerY playerAccerlationY : F) (inputJump : bool)
    (deltaSeconds : F) : F :=
  if (playerY >? CALCULATION_TRESHOLD)%float then
    (playerAccerlationY - PLAYER_GRAVITY * deltaSeconds)%float
  else if inputJump then (PLAYER_JUMP_SPEED * deltaSeconds)%float
  else if (fabsf playerAccerlationY >? CALCULATION_TRESHOLD)%float then
    (- playerAccerlationY * FLOOR_BOUNCYNESS)%float
  else of_int 0.

(** The friction on the X and Z axis. *)
Definition apply_friction (playerAccerlation deltaSeconds : F) : F :=
  (playerAccerlation - playerAccerlation * (deltaSeconds * PLAYER_FRICTION))%float.

(** The collision check: the new [playerX], [playerZ], [playerAccerlationX]
    and [playerAccerlationZ].

    [Field newPlayerField = Game_getMapFieldByPosition(newPlayerX, newPlayerZ);
     if (newPlayerField <= 0) { playerX = newPlayerX; playerZ = newPlayerZ; }
     else { playerAccerlationX = -playerAccerlationX;
            playerAccerlationZ = -playerAccerlationZ;
            playerX += playerAccerlationX; playerZ += playerAccerlationZ; }] *)
Definition resolve_collision (playerX playerZ : F)
    (playerAccerlationX playerAccerlationZ : F) : outcome (F * F * F * F) :=
  let newPlayerX := (playerX + playerAccerlationX)%float in
  let newPlayerZ := (playerZ + playerAccerlationZ)%float in
  newPlayerField <- Game_getMapFieldByPosition M newPlayerX newPlayerZ ;;
  if Field_value newPlayerField <=? 0 then
    Ret (newPlayerX, newPlayerZ, playerAccerlationX, playerAccerlationZ)
  else
    let playerAccerlationX := (- playerAccerlationX)%float in
    let playerAccerlationZ := (- playerAccerlationZ)%float in
    Ret ((playerX + playerAccerlationX)%float,
         (playerZ + playerAccerlationZ)%float,
         playerAccerlationX, playerAccerlationZ).

(** What the body of the probe loops does with one probed field. *)
Definition probe_field (probedField : Field) (itemState : ItemState)
  : ItemState :=
  if Field_eqb probedField Item && ItemState_eqb itemState Initial then Held
  else if Field_eqb probedField Goal && ItemState_eqb itemState Held then Dropped
  else itemState.

(** The inner probe loop, over [probeFieldZ]. *)
Definition probe_fields_z (probeFieldX currentPlayerFieldZ : Z)
    (itemState : ItemState) : outcome ItemState :=
  first <- int_result (currentPlayerFieldZ - 1) ;;
  last <- int_result (currentPlayerFieldZ + 1) ;;
  v <- while_loop 4
    (fun '(probeFieldZ, _) => probeFieldZ <=? last)
    (fun '(probeFieldZ, itemState) =>
       probedField <- Game_getMapFieldByIndicies M probeFieldX probeFieldZ ;;
       Ret (probeFieldZ + 1, probe_field probedField itemState))
    (first, itemState) ;;
  Ret (snd v).

(** The outer probe loop, over [probeFieldX]. *)
Definition probe_fields (currentPlayerFieldX currentPlayerFieldZ : Z)
    (itemState : ItemState) : outcome ItemState :=
  first <- int_result (currentPlayerFieldX - 1) ;;
  last <- int_result (currentPlayerFieldX + 1) ;;
  v <- while_loop 4
    (fun '(probeFieldX, _) => probeFieldX <=? last)
    (fun '(probeFieldX, itemState) =>
       itemState <- probe_fields_z probeFieldX currentPlayerFieldZ itemState ;;
       Ret (probeFieldX + 1, itemState))
    (first, itemState) ;;
  Ret (snd v).

(** The interaction: the new [itemState].

    [if (inputAction) { Game_getMapFieldIndiciesByPosition(playerX, playerZ,
       &currentPlayerFieldX, &currentPlayerFieldZ); for ... for ... }] *)
Definition interact (inputAction : bool) (playerX playerZ : F)
    (itemState : ItemState) : outcome ItemState :=
  if inputAction then
    '(currentPlayerFieldX, currentPlayerFieldZ) <-
      Game_getMapFieldIndiciesByPosition playerX playerZ ;;
    probe_fields currentPlayerFieldX currentPlayerFieldZ itemState
  else Ret itemState.

(* ------------------------------------------------------------------ *)
(** ** The update callback *)
(* ------------------------------------------------------------------ *)

(** [void Game_onUpdate(int uselessValue)]; [currentUpdateTime] is what
    [glutGet(GLUT_ELAPSED_TIME)] returns.  The statements are those of the
    source, in its order. *)
Definition Game_onUpdate (currentUpdateTime : Z) (s : GameState F)
  : outcome (GameState F) :=
  let deltaSeconds :=
    (of_int (currentUpdateTime - lastUpdateTime s) / of_int 1000)%float in
  let currentTimeMs := of_int (Z.rem currentUpdateTime 1000) in
  let itemRotationY :=
    (itemRotationY s + deltaSeconds * ITEM_ROTATION_SPEED)%float in
  let '(gameBrightness, destroy) :=
    update_brightness (itemState s) (gameBrightness s) deltaSeconds in
  let mainLoopLeft :=
    if destroy then mainLoopLeft (Game_onDestroy s) else mainLoopLeft s in
  let '(playerRotationAccerlationX, playerRotationAccerlationY,
        playerRotationX, playerRotationY) :=
    update_rotation s gameBrightness deltaSeconds in
  let '(addedX, addedZ) :=
    added_accerlation (input s) playerRotationY deltaSeconds in
  let playerAccerlationX := (playerAccerlationX (player s) + addedX)%float in
  let playerAccerlationZ := (playerAccerlationZ (player s) + addedZ)%float in
  let playerAccerlationY :=
    update_vertical (playerY (player s)) (playerAccerlationY (player s))
      (inputJump (input s)) deltaSeconds in
  let playerAccerlationX := apply_friction playerAccerlationX deltaSeconds in
  let playerAccerlationZ := apply_friction playerAccerlationZ deltaSeconds in
  let newPlayerY :=
    MAX (of_int 0) (playerY (player s) + playerAccerlationY)%float in
  '(playerX, playerZ, playerAccerlationX, playerAccerlationZ) <-
    resolve_collision (playerX (player s)) (playerZ (player s))
      playerAccerlationX playerAccerlationZ ;;
  itemState <-
    interact (inputAction (input s)) playerX playerZ (itemState s) ;;
  Ret {| isLoaded := isLoaded s;
         mainLoopLeft := mainLoopLeft;
         input := input s;
         currentMouseX := currentMouseX s;
         currentMouseY := currentMouseY s;
         player :=
           {| playerX := playerX; playerY := newPlayerY; playerZ := playerZ;
              playerAccerlationX := playerAccerlationX;
              playerAccerlationY := playerAccerlationY;
              playerAccerlationZ := playerAccerlationZ;
              playerRotationY := playerRotationY;
              playerRotationX := playerRotationX;
              playerRotationAccerlationY := playerRotationAccerlationY;
              playerRotationAccerlationX := playerRotationAccerlationX |};
         itemRotationY := itemRotationY;
         itemState := itemState;
         gameBrightness := gameBrightness;
         lastUpdateTime := currentUpdateTime;
         currentTimeMs := currentTimeMs;
         currentWindowWidth := currentWindowWidth s;
         currentWindowHeight := currentWindowHeight s |}.

(** The horizontal displacement that an update tries: the values of
    [playerAccerlationX] and [playerAccerlationZ] when [Game_onUpdate]
    reaches its collision check (lemma [Game_onUpdate_Ret_inv]). *)
Definition candidate_accerlation (currentUpdateTime : Z) (s : GameState F)
  : F * F :=
  let deltaSeconds :=
    (of_int (currentUpdateTime - lastUpdateTime s) / of_int 1000)%float in
  let gameBrightness :=
    fst (update_brightness (itemState s) (gameBrightness s) deltaSeconds) in
  let playerRotationY :=
    snd (update_rotation s gameBrightness deltaSeconds) in
  let added := added_accerlation (input s) playerRotationY deltaSeconds in
  (apply_friction (playerAccerlationX (player s) + fst added)%float deltaSeconds,
   apply_friction (playerAccerlationZ (player s) + snd added)%float deltaSeconds).

(* ------------------------------------------------------------------ *)
(** ** The main loop *)
(* ------------------------------------------------------------------ *)

(** What the window system delivers: key presses and releases, mouse moves,
    resizes, and the expiry of the update timer (with the elapsed time read
    by the callback). *)
Inductive Event : Type :=
| KeyboardDown (key : ascii)
| KeyboardUp (key : ascii)
| MouseMove (mouseX mouseY : Z)
| Resize (newWidth newHeight : Z)
| Update (elapsedTime : Z).

Definition dispatch (e : Event) (s : GameState F) : outcome (GameState F) :=
  match e with
  | KeyboardDown key => Ret (Game_onKeyboardDown key s)
  | KeyboardUp key => Ret (Game_onKeyboardUp key s)
  | MouseMove mouseX mouseY => Ret (Game_onMouseMove mouseX mouseY s)
  | Resize newWidth newHeight => Ret (Game_onResize newWidth newHeight s)
  | Update elapsedTime => Game_onUpdate elapsedTime s
  end.

(** [glutMainLoop]: the callbacks run one after the other, each to its end,
    until the main loop is left. *)
Fixpoint glutMainLoop (events : list Event) (s : GameState F)
  : outcome (GameState F) :=
  match events with
  | [] => Ret s
  | e :: events' =>
      if mainLoopLeft s then Ret s
      else s' <- dispatch e s ;; glutMainLoop events' s'
  end.

(** [main]: the game is loaded once, then the main loop runs. *)
Definition main (loadTime : Z) (events : list Event) : outcome (GameState F) :=
  s <- Game_onLoad loadTime initial_state ;;
  glutMainLoop events s.

End Game.

(* ================================================================== *)
(** * Exact rational arithmetic *)
(* ================================================================== *)

(** The functions of [math.h] whose results leave the rationals. *)
Record Libm : Type := {
  libm_sqrt : Q -> Q;
  libm_sin : Q -> Q;
  libm_cos : Q -> Q
}.

(** [roundf]: to the nearest integer, halfway cases away from zero. *)
Definition Qroundf (x : Q) : Z :=
  if Qle_bool 0 x then Qfloor (x + (1 # 2)) else Qceiling (x - (1 # 2)).

(** The integer part of [x], toward zero. *)
Definition Qtrunc (x : Q) : Z := Z.quot (Qnum x) (Z.pos (Qden x)).

(** Every result is kept in lowest terms. *)
#[export] Instance Qfloat (L : Libm) : FloatOps Q := {|
  fconst := Qred;
  of_int := inject_Z;
  trunc := Qtrunc;
  fadd := fun x y => Qred (x + y);
  fsub := fun x y => Qred (x - y);
  fmul := fun x y => Qred (x * y);
  fdiv := fun x y => Qred (x / y);
  fneg := fun x => Qred (- x);
  fltb := fun x y => negb (Qle_bool y x);
  fabsf := fun x => Qred (Qabs x);
  roundf := fun x => inject_Z (Qroundf x);
  fsqrt := libm_sqrt L;
  fsin := libm_sin L;
  fcos := libm_cos L
|}.

(** An executable stand-in for [math.h], used by the concrete runs below: the
    square root cut after 24 binary digits and the Taylor polynomials of
    degree 9 and 8 of sine and cosine.  It is exact where the runs need it:
    [sqrt 0 = 0], [sqrt 1 = 1], [sin 0 = 0], [cos 0 = 1]. *)
Definition taylor_libm : Libm := {|
  libm_sqrt := fun x =>
    Qred (Z.sqrt (Qfloor (x * inject_Z (2 ^ 48))) # 2 ^ 24);
  libm_sin := fun x =>
    Qred (x - x ^ 3 / 6 + x ^ 5 / 120 - x ^ 7 / 5040 + x ^ 9 / 362880);
  libm_cos := fun x =>
    Qred (1 - x ^ 2 / 2 + x ^ 4 / 24 - x ^ 6 / 720 + x ^ 8 / 40320)
|}.

(* ================================================================== *)
(** * Real arithmetic *)
(* ================================================================== *)

(** The largest integer below or at [x]. *)
Definition Rfloor (x : R) : Z := up x - 1.

#[export] Instance Rfloat : FloatOps R := {|
  fconst := Q2R;
  of_int := IZR;
  trunc := fun x => if Rle_dec 0 x then Rfloor x else - Rfloor (- x);
  fadd := Rplus;
  fsub := Rminus;
  fmul := Rmult;
  fdiv := Rdiv;
  fneg := Ropp;
  fltb := fun x y => if Rlt_dec x y then true else false;
  fabsf := Rabs;
  roundf := fun x =>
    IZR (if Rle_dec 0 x then Rfloor (x + / 2) else - Rfloor (- x + / 2));
  fsqrt := R_sqrt.sqrt;
  fsin := Rtrigo_def.sin;
  fcos := Rtrigo_def.cos
|}.

(* ================================================================== *)
(** * Concrete runs *)
(* ================================================================== *)

(** The window system's first events: the window gets its size and the
    pointer is at the centre of the window. *)
Definition window_ready : list Event := [Resize 640 480; MouseMove 320 240].

(** To the tile (7, 7), which lies between the walls (7, 6) and (7, 8), and
    at rest there; then "s" is pressed. *)
Definition before_the_wall : list Event :=
  window_ready
  ++ [KeyboardDown "s"; Update 2552; KeyboardUp "s"; Update 2752;
      KeyboardDown "s"].

(** The next update runs against the wall (7, 8); its recoil ends in the
    wall (7, 6). *)
Definition into_the_wall : list Event :=
  before_the_wall ++ [Update 3633; KeyboardUp "s"].

(** One update after three seconds with "d" held. *)
Definition run_out_of_map : list Event :=
  window_ready ++ [KeyboardDown "d"; Update 3000].

(* ================================================================== *)
(** * Notions used by the statements *)
(* ================================================================== *)

(** The field of the grid cell [(x, z)]; no field outside the grid. *)
Definition field_of_cell (M : MapDefinition) (x z : Z) : option Field :=
  if (0 <=? x) && (x <? mapWidth M) && (0 <=? z) && (z <? mapDepth M) then
    nth_error (map M) (Z.to_nat (x * mapDepth M + z))
  else None.

(** [(x, z)] comes before [(x', z')] in the order of the two nested loops
    over the grid ([x] outside, [z] inside). *)
Definition scanned_before (x z x' z' : Z) : Prop :=
  x < x' \/ (x = x' /\ z < z').

(** [(x, z)] is the first spawn point of the grid in that order. *)
Definition first_spawn (M : MapDefinition) (x z : Z) : Prop :=
  field_of_cell M x z = Some Init
  /\ forall x' z', scanned_before x' z' x z -> field_of_cell M x' z' <> Some Init.

(** The grid has no spawn point. *)
Definition no_spawn (M : MapDefinition) : Prop :=
  forall x z, field_of_cell M x z <> Some Init.

(** A grid of three rows with two spawn points. *)
Definition two_spawn_map : MapDefinition := {|
  mapWidth := 3;
  mapDepth := 3;
  map := [ Wall; Wall; Wall;
           Init; Tile; Init;
           Wall; Wall; Wall ]
|}.

(** [(x, z)] is one of the nine cells of the 3x3 block around [(cx, cz)]. *)
Definition in_block (cx cz x z : Z) : Prop :=
  cx - 1 <= x <= cx + 1 /\ cz - 1 <= z <= cz + 1.

(** Some cell of the 3x3 block around [(cx, cz)] is a cell of kind [f]. *)
Definition block_has (M : MapDefinition) (f : Field) (cx cz : Z) : Prop :=
  exists x z, in_block cx cz x z /\ field_of_cell M x z = Some f.

(** The same, decided by looking at the nine cells. *)
Definition block_has_b (M : MapDefinition) (f : Field) (cx cz : Z) : bool :=
  existsb
    (fun d : Z * Z =>
       match field_of_cell M (cx + fst d) (cz + snd d) with
       | Some g => Field_eqb g f
       | None => false
       end)
    [(-1, -1); (-1, 0); (-1, 1); (0, -1); (0, 0); (0, 1); (1, -1); (1, 0); (1, 1)].

(** The item state after an interaction in the block around [(cx, cz)], in
    a grid where no block holds both the item and the goal. *)
Definition next_item_state (M : MapDefinition) (cx cz : Z) (s : ItemState)
  : ItemState :=
  match s with
  | Initial => if block_has_b M Item cx cz then Held else Initial
  | Held => if block_has_b M Goal cx cz then Dropped else Held
  | Dropped => Dropped
  end.

(** A play of the game.  Long pauses between updates carry the player across
    the map: an update after [T] seconds with one direction key held moves
    the player by [0.2 * T * (1 - 5 * T)] along that axis (the friction
    factor [1 - 5 * T] is negative), and an update after 0.2 seconds brings
    the player to rest. *)
Definition walk_to_item : list Event :=
  [KeyboardDown "a"; Update 2338; KeyboardUp "a"; Update 2538;
   KeyboardDown "s"; Update 5286; KeyboardUp "s"; Update 5486].

Definition pick_up : list Event :=
  [KeyboardDown "e"; Update 5516; KeyboardUp "e"].

Definition walk_to_goal : list Event :=
  [KeyboardDown "d"; Update 8068; KeyboardUp "d"; Update 8268;
   KeyboardDown "w"; Update 10820; KeyboardUp "w"; Update 11020].

Definition drop : list Event :=
  [KeyboardDown "e"; Update 11050; KeyboardUp "e"].

(** [n] updates, 30 milliseconds apart, the first one at [start + 30]. *)
Definition updates_every_30ms (start : Z) (n : nat) : list Event :=
  List.map (fun k => Update (start + 30 * Z.of_nat k)) (seq 1 n).

(** The game with the rational arithmetic and the stand-in for [math.h]. *)
Definition play (events : list Event) : outcome (GameState Q) :=
  main (ops := Qfloat taylor_libm) gemquest_map 0 events.

(** The elapsed times read by the updates of [events] never go back, from
    [last] on. *)
Fixpoint time_ordered (last : Z) (events : list Event) : bool :=
  match events with
  | [] => true
  | Update elapsedTime :: events' =>
      (last <=? elapsedTime) && time_ordered elapsedTime events'
  | _ :: events' => time_ordered last events'
  end.

(** The elapsed times read by the updates of [events]. *)
Fixpoint update_times (events : list Event) : list Z :=
  match events with
  | [] => []
  | Update elapsedTime :: events' => elapsedTime :: update_times events'
  | _ :: events' => update_times events'
  end.

(** The whole play: to the item, pick it up, to the goal, drop it, and 67
    updates of the fade-out, 30 milliseconds apart. *)
Definition full_play : list Event :=
  window_ready ++ walk_to_item ++ pick_up ++ walk_to_goal ++ drop
  ++ updates_every_30ms 11050 67.

(** Forward and right held together; forward held alone. *)
Definition forward_and_right : Input :=
  {| inputForward := true; inputRight := true; inputBackwards := false;
     inputLeft := false; inputJump := false; inputAction := false |}.

Definition forward_only : Input :=
  {| inputForward := true; inputRight := false; inputBackwards := false;
     inputLeft := false; inputJump := false; inputAction := false |}.

(** The length of a vector of the X-Z plane. *)
Definition magnitude (v : R * R) : R :=
  R_sqrt.sqrt (fst v * fst v + snd v * snd v).

(** The cell [(x, z)] is a cell of the grid that does not block the player
    (a spawn point, an arch or a tile). *)
Definition walkable (M : MapDefinition) (x z : Z) : Prop :=
  exists f, field_of_cell M x z = Some f /\ Field_value f <= 0.

(** A grid in which the item and the goal are both next to the spawn
    point. *)
Definition item_next_to_goal_map : MapDefinition := {|
  mapWidth := 3;
  mapDepth := 3;
  map := [ Wall; Wall; Wall;
           Item; Init; Goal;
           Wall; Wall; Wall ]
|}.

(* ================================================================== *)
(** * Matrices *)
(* ================================================================== *)

(** [typedef struct { float a00, a01, a02, a03; ... } Matrix4x4]: the entry
    [aRC] is the one of row [R] and column [C]. *)
Record Matrix4x4 (F : Type) : Type := {
  a00 : F; a01 : F; a02 : F; a03 : F;
  a10 : F; a11 : F; a12 : F; a13 : F;
  a20 : F; a21 : F; a22 : F; a23 : F;
  a30 : F; a31 : F; a32 : F; a33 : F
}.

Arguments a00 {F} _.
Arguments a01 {F} _.
Arguments a02 {F} _.
Arguments a03 {F} _.
Arguments a10 {F} _.
Arguments a11 {F} _.
Arguments a12 {F} _.
Arguments a13 {F} _.
Arguments a20 {F} _.
Arguments a21 {F} _.
Arguments a22 {F} _.
Arguments a23 {F} _.
Arguments a30 {F} _.
Arguments a31 {F} _.
Arguments a32 {F} _.
Arguments a33 {F} _.

Section Matrices.

Context {F : Type} {ops : FloatOps F}.

Definition EPSILON : F := fconst (1 # 10000).

(** [float Common_radToDeg(float rad)] *)
Definition Common_radToDeg (rad : F) : F :=
  (rad * (fconst (180 # 1) / PI))%float.

(** [Matrix4x4 Matrix4x4_create(bool identity)] *)
Definition Matrix4x4_create (identity : bool) : Matrix4x4 F :=
  let i := if identity then fconst 1 else fconst 0 in
  {| a00 := i; a01 := of_int 0; a02 := of_int 0; a03 := of_int 0;
     a10 := of_int 0; a11 := i; a12 := of_int 0; a13 := of_int 0;
     a20 := of_int 0; a21 := of_int 0; a22 := i; a23 := of_int 0;
     a30 := of_int 0; a31 := of_int 0; a32 := of_int 0; a33 := i |}.

(** [Matrix4x4 Matrix4x4_createTranslation(float x, float y, float z)] *)
Definition Matrix4x4_createTranslation (x y z : F) : Matrix4x4 F :=
  let m := Matrix4x4_create true in
  {| a00 := a00 m; a01 := a01 m; a02 := a02 m; a03 := x;
     a10 := a10 m; a11 := a11 m; a12 := a12 m; a13 := y;
     a20 := a20 m; a21 := a21 m; a22 := a22 m; a23 := z;
     a30 := a30 m; a31 := a31 m; a32 := a32 m; a33 := a33 m |}.

(** [Matrix4x4 Matrix4x4_createRotationX(float rotationDeg)] *)
Definition Matrix4x4_createRotationX (rotationDeg : F) : Matrix4x4 F :=
  let m := Matrix4x4_create true in
  let rotationRad := Common_degToRad rotationDeg in
  {| a00 := a00 m; a01 := a01 m; a02 := a02 m; a03 := a03 m;
     a10 := a10 m; a11 := fcos rotationRad; a12 := (- fsin rotationRad)%float;
     a13 := a13 m;
     a20 := a20 m; a21 := fsin rotationRad; a22 := fcos rotationRad;
     a23 := a23 m;
     a30 := a30 m; a31 := a31 m; a32 := a32 m; a33 := a33 m |}.

(** [Matrix4x4 Matrix4x4_createRotationY(float rotationDeg)] *)
Definition Matrix4x4_createRotationY (rotationDeg : F) : Matrix4x4 F :=
  let m := Matrix4x4_create true in
  let rotationRad := Common_degToRad rotationDeg in
  {| a00 := fcos rotationRad; a01 := a01 m; a02 := fsin rotationRad;
     a03 := a03 m;
     a10 := a10 m; a11 := a11 m; a12 := a12 m; a13 := a13 m;
     a20 := (- fsin rotationRad)%float; a21 := a21 m; a22 := fcos rotationRad;
     a23 := a23 m;
     a30 := a30 m; a31 := a31 m; a32 := a32 m; a33 := a33 m |}.

(** [Matrix4x4 Matrix4x4_multiply(const Matrix4x4 *a, const Matrix4x4 *b)] *)
Definition Matrix4x4_multiply (a b : Matrix4x4 F) : Matrix4x4 F :=
  {| a00 := ((a00 a * a00 b) + (a01 a * a10 b)
             + (a02 a * a20 b) + (a03 a * a30 b))%float;
     a01 := ((a00 a * a01 b) + (a01 a * a11 b)
             + (a02 a * a21 b) + (a03 a * a31 b))%float;
     a02 := ((a00 a * a02 b) + (a01 a * a12 b)
             + (a02 a * a22 b) + (a03 a * a32 b))%float;
     a03 := ((a00 a * a03 b) + (a01 a * a13 b)
             + (a02 a * a23 b) + (a03 a * a33 b))%float;

     a10 := ((a10 a * a00 b) + (a11 a * a10 b)
             + (a12 a * a20 b) + (a13 a * a30 b))%float;
     a11 := ((a10 a * a01 b) + (a11 a * a11 b)
             + (a12 a * a21 b) + (a13 a * a31 b))%float;
     a12 := ((a10 a * a02 b) + (a11 a * a12 b)
             + (a12 a * a22 b) + (a13 a * a32 b))%float;
     a13 := ((a10 a * a03 b) + (a11 a * a13 b)
             + (a12 a * a23 b) + (a13 a * a33 b))%float;

     a20 := ((a20 a * a00 b) + (a21 a * a10 b)
             + (a22 a * a20 b) + (a23 a * a30 b))%float;
     a21 := ((a20 a * a01 b) + (a21 a * a11 b)
             + (a22 a * a21 b) + (a23 a * a31 b))%float;
     a22 := ((a20 a * a02 b) + (a21 a * a12 b)
             + (a22 a * a22 b) + (a23 a * a32 b))%float;
     a23 := ((a20 a * a03 b) + (a21 a * a13 b)
             + (a22 a * a23 b) + (a23 a * a33 b))%float;

     a30 := ((a30 a * a00 b) + (a31 a * a10 b)
             + (a32 a * a20 b) + (a33 a * a30 b))%float;
     a31 := ((a30 a * a01 b) + (a31 a * a11 b)
             + (a32 a * a21 b) + (a33 a * a31 b))%float;
     a32 := ((a30 a * a02 b) + (a31 a * a12 b)
             + (a32 a * a22 b) + (a33 a * a32 b))%float;
     a33 := ((a30 a * a03 b) + (a31 a * a13 b)
             + (a32 a * a23 b) + (a33 a * a33 b))%float |}.

(** [Matrix4x4 Matrix4x4_createCamera(float x, float y, float z,
    float rotationYDeg, float rotationXDeg)] *)
Definition Matrix4x4_createCamera (x y z rotationYDeg rotationXDeg : F)
  : Matrix4x4 F :=
  let translation := Matrix4x4_createTranslation (- x)%float (- y)%float (- z)%float in
  let rotationX := Matrix4x4_createRotationX rotationXDeg in
  let rotationY := Matrix4x4_createRotationY rotationYDeg in
  let rotation := Matrix4x4_multiply rotationX rotationY in
  Matrix4x4_multiply rotation translation.

(** [Matrix4x4 Matrix4x4_createPerspective(float aspect, float zNear,
    float zFar, float fovDeg)]; [tanf] is the function of [math.h]. *)
Definition Matrix4x4_createPerspective (tanf : F -> F)
    (aspect zNear zFar fovDeg : F) : Matrix4x4 F :=
  let m := Matrix4x4_create true in
  let tanHalfFov := tanf (Common_degToRad fovDeg / fconst 2)%float in
  let zRange := (zNear - zFar)%float in
  {| a00 := (fconst 1 / (tanHalfFov * aspect))%float;
     a01 := a01 m; a02 := a02 m; a03 := a03 m;
     a10 := a10 m; a11 := (fconst 1 / tanHalfFov)%float;
     a12 := a12 m; a13 := a13 m;
     a20 := a20 m; a21 := a21 m;
     a22 := ((- zNear - zFar) / zRange)%float;
     a23 := ((fconst 2 * zFar * zNear) / zRange)%float;
     a30 := a30 m; a31 := a31 m; a32 := fconst 1; a33 := fconst 0 |}.

(** The projection that [Game_onResize] hands to the shader:
    [Matrix4x4_createPerspective((float)newWidth / newHeight, 0.001f, 200, 70)]. *)
Definition Game_onResize_projection (tanf : F -> F) (newWidth newHeight : Z)
  : Matrix4x4 F :=
  Matrix4x4_createPerspective tanf
    (of_int newWidth / of_int newHeight)%float
    (fconst (1 # 1000)) (of_int 200) (of_int 70).

End Matrices.

(* ================================================================== *)
(** * Meshes and the shader *)
(* ================================================================== *)

Definition FLOATS_PER_VERTEX : Z := 6.

(** [BufferedMesh BufferedMesh_create(const float *vertexData,
    const int arrayLength, ShaderProgram targetShader)]: the [vertexCount] of
    the new mesh, an [unsigned int].  The buffers of OpenGL are not part of
    the model. *)
Definition BufferedMesh_create (arrayLength : Z) : outcome Z :=
  let vertexCount := Z.quot arrayLength FLOATS_PER_VERTEX mod 2 ^ 32 in
  if negb (Z.rem arrayLength FLOATS_PER_VERTEX =? 0) then
    Common_terminate "BUFFEREDMESH_CREATION"
      "Invalid vertex data length - must be divisable by the amount of floats per vertex."
  else Ret vertexCount.

(** [BufferedMesh skyboxMesh, wallMesh, floorMesh, archMesh, crystalMesh,
    tubeMesh] *)
Inductive Mesh : Type :=
| skyboxMesh | wallMesh | floorMesh | archMesh | crystalMesh | tubeMesh.

Definition Mesh_eqb (a b : Mesh) : bool :=
  match a, b with
  | skyboxMesh, skyboxMesh | wallMesh, wallMesh | floorMesh, floorMesh
  | archMesh, archMesh | crystalMesh, crystalMesh | tubeMesh, tubeMesh => true
  | _, _ => false
  end.

(** The uniforms of the shader program that [Game_onRedraw] sets.  (The
    uniforms [projection] and [screenHeight] are set by [Game_onResize]
    alone.) *)
Record Uniforms (F : Type) : Type := {
  uniform_model : Matrix4x4 F;
  uniform_view : Matrix4x4 F;
  uniform_opacity : F;
  uniform_currentTimeMs : F;
  uniform_brightness : F
}.

Arguments uniform_model {F} _.
Arguments uniform_view {F} _.
Arguments uniform_opacity {F} _.
Arguments uniform_currentTimeMs {F} _.
Arguments uniform_brightness {F} _.

(** The state of the renderer: the uniforms, and the meshes drawn since the
    frame was cleared, in the order of the calls, each with the uniforms it
    was drawn with. *)
Record Frame (F : Type) : Type := {
  uniforms : Uniforms F;
  drawn : list (Mesh * Uniforms F)
}.

Arguments uniforms {F} _.
Arguments drawn {F} _.

(** [shaderProgram.uniformLocation_model] and [.uniformLocation_view]; and
    [.uniformLocation_opacity], [.uniformLocation_currentTimeMs] and
    [.uniformLocation_brightness]. *)
Inductive Matrix4x4Location : Type :=
| uniformLocation_model | uniformLocation_view.

Inductive floatLocation : Type :=
| uniformLocation_opacity | uniformLocation_currentTimeMs
| uniformLocation_brightness.

Section Rendering.

Context {F : Type} {ops : FloatOps F}.
Variable M : MapDefinition.

(** [void ShaderProgram_setUniformValue_Matrix4x4(GLint uniformLocation,
    const Matrix4x4 *matrix)] *)
Definition ShaderProgram_setUniformValue_Matrix4x4
    (uniformLocation : Matrix4x4Location) (matrix : Matrix4x4 F)
    (fr : Frame F) : Frame F :=
  let u := uniforms fr in
  {| uniforms :=
       match uniformLocation with
       | uniformLocation_model =>
           {| uniform_model := matrix; uniform_view := uniform_view u;
              uniform_opacity := uniform_opacity u;
              uniform_currentTimeMs := uniform_currentTimeMs u;
              uniform_brightness := uniform_brightness u |}
       | uniformLocation_view =>
           {| uniform_model := uniform_model u; uniform_view := matrix;
              uniform_opacity := uniform_opacity u;
              uniform_currentTimeMs := uniform_currentTimeMs u;
              uniform_brightness := uniform_brightness u |}
       end;
     drawn := drawn fr |}.

(** [void ShaderProgram_setUniformValue_float(GLint uniformLocation,
    const float value)] *)
Definition ShaderProgram_setUniformValue_float
    (uniformLocation : floatLocation) (value : F) (fr : Frame F) : Frame F :=
  let u := uniforms fr in
  {| uniforms :=
       match uniformLocation with
       | uniformLocation_opacity =>
           {| uniform_model := uniform_model u; uniform_view := uniform_view u;
              uniform_opacity := value;
              uniform_currentTimeMs := uniform_currentTimeMs u;
              uniform_brightness := uniform_brightness u |}
       | uniformLocation_currentTimeMs =>
           {| uniform_model := uniform_model u; uniform_view := uniform_view u;
              uniform_opacity := uniform_opacity u;
              uniform_currentTimeMs := value;
              uniform_brightness := uniform_brightness u |}
       | uniformLocation_brightness =>
           {| uniform_model := uniform_model u; uniform_view := uniform_view u;
              uniform_opacity := uniform_opacity u;
              uniform_currentTimeMs := uniform_currentTimeMs u;
              uniform_brightness := value |}
       end;
     drawn := drawn fr |}.

(** [void BufferedMesh_draw(const BufferedMesh *self)] *)
Definition BufferedMesh_draw (self : Mesh) (fr : Frame F) : Frame F :=
  {| uniforms := uniforms fr;
     drawn := drawn fr ++ [(self, uniforms fr)] |}.

(* ------------------------------------------------------------------ *)
(** ** The redraw callback *)
(* ------------------------------------------------------------------ *)

(** [distanceOpacity] of the field [(x, z)]:
    [1 - MIN(MAX((objectPlayerDistance - 4.0f), 0), 1)] with
    [objectPlayerDistance = sqrt(pow(fieldX - playerX, 2)
                                 + pow(fieldZ - playerZ, 2))]. *)
Definition distanceOpacity (s : GameState F) (x z : Z) : F :=
  let '(fieldX, fieldZ) := Game_getMapFieldPositionByIndicies x z in
  let objectPlayerDistance :=
    fsqrt (pow2 (fieldX - playerX (player s))
           + pow2 (fieldZ - playerZ (player s)))%float in
  (of_int 1 - MIN (MAX (objectPlayerDistance - fconst 4)%float (of_int 0))
                  (of_int 1))%float.

(** What the body of the drawing loops draws for the field [currentField] at
    [(x, z)], from the statement that sets the translation of the field as
    model transformation on. *)
Definition draw_meshes (s : GameState F)
    (meshRotationTransformation : Matrix4x4 F) (x z : Z)
    (currentField : Field) (fr : Frame F) : Frame F :=
  let '(fieldX, fieldZ) := Game_getMapFieldPositionByIndicies x z in
  let meshTranslationTransformation :=
    Matrix4x4_createTranslation fieldX (of_int 0) (of_int z) in
  let fr :=
    ShaderProgram_setUniformValue_Matrix4x4 uniformLocation_model
      meshTranslationTransformation fr in
  let fr :=
    if negb (Field_eqb currentField Wall) then BufferedMesh_draw floorMesh fr
    else fr in
  if Field_eqb currentField Arch then BufferedMesh_draw archMesh fr
  else if Field_eqb currentField Wall then BufferedMesh_draw wallMesh fr
  else if Field_eqb currentField Item && ItemState_eqb (itemState s) Initial
  then
    let meshTransformation :=
      Matrix4x4_multiply meshTranslationTransformation
        meshRotationTransformation in
    let fr :=
      ShaderProgram_setUniformValue_Matrix4x4 uniformLocation_model
        meshTransformation fr in
    BufferedMesh_draw crystalMesh fr
  else if Field_eqb currentField Goal then
    let fr := BufferedMesh_draw tubeMesh fr in
    if ItemState_eqb (itemState s) Dropped then
      let meshTransformation :=
        Matrix4x4_multiply meshTranslationTransformation
          meshRotationTransformation in
      let fr :=
        ShaderProgram_setUniformValue_Matrix4x4 uniformLocation_model
          meshTransformation fr in
      BufferedMesh_draw crystalMesh fr
    else fr
  else fr.

(** The body of the drawing loops for the field [(x, z)]. *)
Definition draw_field (s : GameState F)
    (meshRotationTransformation : Matrix4x4 F) (x z : Z) (fr : Frame F)
  : outcome (Frame F) :=
  if (distanceOpacity s x z <? EPSILON)%float then Ret fr
  else
    let fr :=
      ShaderProgram_setUniformValue_float uniformLocation_opacity
        (distanceOpacity s x z) fr in
    currentField <- array_read (map M) (x * mapDepth M + z) ;;
    Ret (draw_meshes s meshRotationTransformation x z currentField fr).

(** The inner drawing loop, [for (int z = 0; z < mapDepth; z++)]. *)
Definition draw_fields_z (s : GameState F)
    (meshRotationTransformation : Matrix4x4 F) (x : Z) (fr : Frame F)
  : outcome (Frame F) :=
  v <- while_loop (Z.to_nat (mapDepth M) + 1)
         (fun '(z, _) => z <? mapDepth M)
         (fun '(z, fr) =>
            fr <- draw_field s meshRotationTransformation x z fr ;;
            Ret (z + 1, fr))
         (0, fr) ;;
  Ret (snd v).

(** The outer drawing loop, [for (int x = 0; x < mapWidth; x++)]. *)
Definition draw_fields (s : GameState F)
    (meshRotationTransformation : Matrix4x4 F) (fr : Frame F)
  : outcome (Frame F) :=
  v <- while_loop (Z.to_nat (mapWidth M) + 1)
         (fun '(x, _) => x <? mapWidth M)
         (fun '(x, fr) =>
            fr <- draw_fields_z s meshRotationTransformation x fr ;;
            Ret (x + 1, fr))
         (0, fr) ;;
  Ret (snd v).

(** [void Game_onRedraw(void)]; [u] holds the uniforms as the call finds
    them.  The frame starts cleared. *)
Definition Game_onRedraw (s : GameState F) (u : Uniforms F)
  : outcome (Frame F) :=
  let fr := {| uniforms := u; drawn := [] |} in
  let fr :=
    ShaderProgram_setUniformValue_float uniformLocation_currentTimeMs
      (currentTimeMs s) fr in
  let fr :=
    ShaderProgram_setUniformValue_float uniformLocation_brightness
      (gameBrightness s) fr in
  let viewTransformation :=
    Matrix4x4_createCamera (playerX (player s))
      (playerY (player s) + fconst (5 # 10))%float (playerZ (player s))
      (playerRotationY (player s)) (playerRotationX (player s)) in
  let originTranslationTransformation :=
    Matrix4x4_createTranslation (of_int 0) (of_int 0) (of_int 0) in
  let fr :=
    ShaderProgram_setUniformValue_Matrix4x4 uniformLocation_view
      viewTransformation fr in
  let fr :=
    ShaderProgram_setUniformValue_float uniformLocation_opacity (of_int 1) fr in
  let fr :=
    ShaderProgram_setUniformValue_Matrix4x4 uniformLocation_model
      originTranslationTransformation fr in
  let fr := BufferedMesh_draw skyboxMesh fr in
  let meshRotationTransformation :=
    Matrix4x4_createRotationY (itemRotationY s) in
  let fr :=
    if ItemState_eqb (itemState s) Held then
      let meshHoverTranslationTransformation :=
        Matrix4x4_createTranslation (playerX (player s))
          (playerY (player s) - fconst (2 # 10))%float (playerZ (player s)) in
      let meshTransformation :=
        Matrix4x4_multiply meshHoverTranslationTransformation
          meshRotationTransformation in
      let fr :=
        ShaderProgram_setUniformValue_Matrix4x4 uniformLocation_model
          meshTransformation fr in
      BufferedMesh_draw crystalMesh fr
    else fr in
  draw_fields s meshRotationTransformation fr.

End Rendering.

(** The uniforms before the first frame: [opacity] and [brightness] have the
    initialiser 1 in the fragment shader, the other uniforms start at
    zero. *)
Definition initial_uniforms {F : Type} {ops : FloatOps F} : Uniforms F := {|
  uniform_model := Matrix4x4_create false;
  uniform_view := Matrix4x4_create false;
  uniform_opacity := of_int 1;
  uniform_currentTimeMs := of_int 0;
  uniform_brightness := of_int 1
|}.

(* ================================================================== *)
(** * Notions used by the statements on matrices and frames *)
(* ================================================================== *)

(** The view transformation of a frame: the camera at the player's eyes,
    half a unit above the player's position. *)
Definition viewTransformation {F : Type} {ops : FloatOps F} (s : GameState F)
  : Matrix4x4 F :=
  Matrix4x4_createCamera (playerX (player s))
    (playerY (player s) + fconst (5 # 10))%float (playerZ (player s))
    (playerRotationY (player s)) (playerRotationX (player s)).

(** The uniforms of the first draw call of a frame, the skybox. *)
Definition skybox_uniforms {F : Type} {ops : FloatOps F} (s : GameState F)
  : Uniforms F := {|
  uniform_model := Matrix4x4_createTranslation (of_int 0) (of_int 0) (of_int 0);
  uniform_view := viewTransformation s;
  uniform_opacity := of_int 1;
  uniform_currentTimeMs := currentTimeMs s;
  uniform_brightness := gameBrightness s
|}.

(** The uniforms of the draw call for the item that the player holds. *)
Definition hover_uniforms {F : Type} {ops : FloatOps F} (s : GameState F)
  : Uniforms F := {|
  uniform_model :=
    Matrix4x4_multiply
      (Matrix4x4_createTranslation (playerX (player s))
         (playerY (player s) - fconst (2 # 10))%float (playerZ (player s)))
      (Matrix4x4_createRotationY (itemRotationY s));
  uniform_view := viewTransformation s;
  uniform_opacity := of_int 1;
  uniform_currentTimeMs := currentTimeMs s;
  uniform_brightness := gameBrightness s
|}.

(** The image of the point [(x, y, z)] under the matrix [m], as the vertex
    shader computes it in [model * vec4(position, 1.0f)]: the product of [m]
    with the column [(x, y, z, 1)]. *)
Definition transform {F : Type} {ops : FloatOps F} (m : Matrix4x4 F)
    (p : F * F * F) : F * F * F * F :=
  let '(x, y, z) := p in
  ((a00 m * x + a01 m * y + a02 m * z + a03 m * fconst 1)%float,
   (a10 m * x + a11 m * y + a12 m * z + a13 m * fconst 1)%float,
   (a20 m * x + a21 m * y + a22 m * z + a23 m * fconst 1)%float,
   (a30 m * x + a31 m * y + a32 m * z + a33 m * fconst 1)%float).

(** The first three coordinates of a transformed point. *)
Definition position_of (v : R * R * R * R) : R * R * R :=
  let '(x, y, z, _) := v in (x, y, z).

(** The depth of a transformed point after the perspective division: its
    third coordinate over its fourth. *)
Definition depth_of (v : R * R * R * R) : R :=
  let '(_, _, z, w) := v in (z / w)%R.

(** The square of the distance of two points. *)
Definition distance_square (p q : R * R * R) : R :=
  let '(x, y, z) := p in
  let '(x', y', z') := q in
  ((x - x') * (x - x') + (y - y') * (y - y') + (z - z') * (z - z'))%R.

(** The distance of the field [(x, z)] from the player, in the X-Z plane. *)
Definition field_distance (s : GameState R) (x z : Z) : R :=
  R_sqrt.sqrt ((IZR x - playerX (player s)) * (IZR x - playerX (player s))
               + (IZR z - playerZ (player s)) * (IZR z - playerZ (player s))).

(** The uniforms of a draw call for the field [(x, z)] with the field's
    translation as model transformation. *)
Definition drawn_at {F : Type} {ops : FloatOps F} (x z : Z) (u : Uniforms F)
  : Prop :=
  uniform_model u = Matrix4x4_createTranslation (of_int x) (of_int 0) (of_int z).

(** The meshes of a frame that are [mesh]. *)
Definition draws_of {F : Type} (mesh : Mesh) (fr : Frame F)
  : list (Mesh * Uniforms F) :=
  List.filter (fun d => Mesh_eqb (fst d) mesh) (drawn fr).

(* ================================================================== *)
(** * Notions used by the proofs on loops and frames *)
(* ================================================================== *)

(** The body of a counting loop run over a list of indices. *)
Fixpoint fold_outcome {A : Type} (body : Z -> A -> outcome A) (l : list Z)
    (a : A) : outcome A :=
  match l with
  | [] => Ret a
  | i :: l' => a' <- body i a ;; fold_outcome body l' a'
  end.

(** The indices [0], ..., [n - 1]. *)
Definition indices (n : Z) : list Z := List.map Z.of_nat (seq 0 (Z.to_nat n)).

Section FrameNotions.

Context {F : Type} {ops : FloatOps F}.
Variable M : MapDefinition.
Variable s : GameState F.
Variable meshRotationTransformation : Matrix4x4 F.

(** The uniforms that the drawing loops leave alone. *)
Definition base_uniforms (u : Uniforms F) : Matrix4x4 F * F * F :=
  (uniform_view u, uniform_brightness u, uniform_currentTimeMs u).

(** A draw call [d] that the drawing loops issue for the field [(x, z)]. *)
Definition field_draw (base : Matrix4x4 F * F * F) (x z : Z)
    (d : Mesh * Uniforms F) : Prop :=
  let translation :=
    Matrix4x4_createTranslation (of_int x) (of_int 0) (of_int z) in
  (0 <= x < mapWidth M /\ 0 <= z < mapDepth M)
  /\ base_uniforms (snd d) = base
  /\ (distanceOpacity s x z <? EPSILON)%float = false
  /\ uniform_opacity (snd d) = distanceOpacity s x z
  /\ exists f,
       array_read (map M) (x * mapDepth M + z) = Ret f
       /\ match fst d with
          | skyboxMesh => False
          | floorMesh => f <> Wall /\ uniform_model (snd d) = translation
          | archMesh => f = Arch /\ uniform_model (snd d) = translation
          | wallMesh => f = Wall /\ uniform_model (snd d) = translation
          | tubeMesh => f = Goal /\ uniform_model (snd d) = translation
          | crystalMesh =>
              ((f = Item /\ itemState s = Initial)
               \/ (f = Goal /\ itemState s = Dropped))
              /\ uniform_model (snd d)
                 = Matrix4x4_multiply translation meshRotationTransformation
          end.

(** The frames that the drawing loops pass through: the draw calls issued
    before the loops, followed by draw calls for fields. *)
Definition fields_drawn (before : list (Mesh * Uniforms F))
    (base : Matrix4x4 F * F * F) (fr : Frame F) : Prop :=
  base_uniforms (uniforms fr) = base
  /\ exists l,
       drawn fr = before ++ l
       /\ Forall (fun d => exists x z, field_draw base x z d) l.

End FrameNotions.

(* ================================================================== *)
(** * IEEE binary32 arithmetic *)
(* ================================================================== *)

(** The [float] of the platforms the game is built for: IEEE 754 binary32,
    24 bits of mantissa, every operation rounded to the nearest value, ties
    to even, as [SpecFloat] of the standard library specifies it. *)
Definition binary32 : Type := SpecFloat.spec_float.
Definition prec32 : Z := 24.
Definition emax32 : Z := 128.

(** [(float)i] *)
Definition B32_of_int (i : Z) : binary32 :=
  SpecFloat.binary_normalize prec32 emax32 i 0 false.

(** A decimal literal with the suffix [f]: its value, rounded once. *)
Definition B32_const (q : Q) : binary32 :=
  match Qnum q with
  | Z0 => SpecFloat.S754_zero false
  | Zpos n =>
      SpecFloat.SFdiv prec32 emax32
        (SpecFloat.S754_finite false n 0)
        (SpecFloat.S754_finite false (Qden q) 0)
  | Zneg n =>
      SpecFloat.SFdiv prec32 emax32
        (SpecFloat.S754_finite true n 0)
        (SpecFloat.S754_finite false (Qden q) 0)
  end.

(** The integer part, toward zero.  The conversion of an infinity or a NaN
    to [int] is undefined: they are given a value outside the range of
    [int], which [float_to_int] rejects. *)
Definition B32_trunc (x : binary32) : Z :=
  match x with
  | SpecFloat.S754_zero _ => 0
  | SpecFloat.S754_finite s m e =>
      let a := if 0 <=? e then Z.pos m * 2 ^ e else Z.pos m / 2 ^ (- e) in
      if s then - a else a
  | _ => 2 ^ 31
  end.

(** [roundf]: to the nearest integer, halfway cases away from zero. *)
Definition B32_roundf (x : binary32) : binary32 :=
  match x with
  | SpecFloat.S754_finite s m e =>
      if 0 <=? e then x
      else
        let a := (Z.pos m + 2 ^ (- e - 1)) / 2 ^ (- e) in
        SpecFloat.binary_normalize prec32 emax32 (if s then - a else a) 0 s
  | _ => x
  end.

(** The sine and the cosine of [math.h], which IEEE 754 does not fix. *)
Record Libm32 : Type := {
  libm32_sin : binary32 -> binary32;
  libm32_cos : binary32 -> binary32
}.

(** The code calls [sqrt] and [pow] on [double] and converts the result
    back; here the squares and the sum under the root are rounded to
    binary32 already.  That makes no difference to the update, where the
    components of the direction are 0, 1 and -1; the runs of this instance
    below are runs of the update. *)
#[export] Instance Binary32 (L : Libm32) : FloatOps binary32 := {|
  fconst := B32_const;
  of_int := B32_of_int;
  trunc := B32_trunc;
  fadd := SpecFloat.SFadd prec32 emax32;
  fsub := SpecFloat.SFsub prec32 emax32;
  fmul := SpecFloat.SFmul prec32 emax32;
  fdiv := SpecFloat.SFdiv prec32 emax32;
  fneg := SpecFloat.SFopp;
  fltb := SpecFloat.SFltb;
  fabsf := SpecFloat.SFabs;
  roundf := B32_roundf;
  fsqrt := SpecFloat.SFsqrt prec32 emax32;
  fsin := libm32_sin L;
  fcos := libm32_cos L
|}.

(** An executable stand-in for the sine and the cosine, used by the concrete
    runs below: the Taylor polynomials of degree 5 and 4, in binary32
    arithmetic.  It is exact where the runs need it: [sin 0 = 0] and
    [cos 0 = 1]. *)
Definition taylor_libm32 : Libm32 :=
  let add := SpecFloat.SFadd prec32 emax32 in
  let sub := SpecFloat.SFsub prec32 emax32 in
  let mul := SpecFloat.SFmul prec32 emax32 in
  let div := SpecFloat.SFdiv prec32 emax32 in
  {| libm32_sin := fun x =>
       add (sub x (div (mul x (mul x x)) (B32_of_int 6)))
           (div (mul x (mul (mul x x) (mul x x))) (B32_of_int 120));
     libm32_cos := fun x =>
       add (sub (B32_of_int 1) (div (mul x x) (B32_of_int 2)))
           (div (mul (mul x x) (mul x x)) (B32_of_int 24)) |}.

(** [n] updates, 10 ms apart, after [start]. *)
Definition updates_every_10ms (start : Z) (n : nat) : list Event :=
  List.map (fun k => Update (start + 10 * Z.of_nat k)) (seq 1 n).

(** The game with the binary32 arithmetic. *)
Definition play32 (events : list Event) : outcome (GameState binary32) :=
  main (ops := Binary32 taylor_libm32) gemquest_map 0 events.

(* ================================================================== *)
(** * Facts about outcomes and about the rational arithmetic *)
(* ================================================================== *)

Lemma bind_Ret_inv {A B : Type} (m : outcome A) (k : A -> outcome B) (b : B) :
  bind m k = Ret b -> exists a, m = Ret a /\ k a = Ret b.
Proof.
  destruct m as [a| | |]; simpl; intro H; try discriminate.
  exists a; split; [reflexivity | exact H].
Qed.

Lemma int_result_Ret_inv (z r : Z) :
  int_result z = Ret r -> r = z /\ INT_MIN <= z <= INT_MAX.
Proof.
  unfold int_result.
  destruct (INT_MIN <=? z) eqn:Hlo; destruct (z <=? INT_MAX) eqn:Hhi;
    simpl; intro H; try discriminate.
  apply Z.leb_le in Hlo. apply Z.leb_le in Hhi.
  injection H as <-. lia.
Qed.

Lemma int_result_in_range (z : Z) :
  INT_MIN <= z <= INT_MAX -> int_result z = Ret z.
Proof.
  intros [Hlo Hhi]. unfold int_result.
  apply Z.leb_le in Hlo. apply Z.leb_le in Hhi.
  rewrite Hlo, Hhi. reflexivity.
Qed.

Lemma Qtrunc_inject_Z (i : Z) : Qtrunc (inject_Z i) = i.
Proof. unfold Qtrunc, inject_Z. simpl. apply Z.quot_1_r. Qed.

Lemma Qfloor_half_up (i : Z) (x : Q) :
  (x == inject_Z i + (1 # 2))%Q -> Qfloor x = i.
Proof.
  intro Hx. rewrite Hx.
  unfold Qfloor, Qplus, inject_Z. simpl.
  symmetry. apply Z.div_unique with (r := 1); lia.
Qed.

Lemma Qroundf_inject_Z (i : Z) : Qroundf (inject_Z i) = i.
Proof.
  unfold Qroundf.
  destruct (Qle_bool 0 (inject_Z i)) eqn:Hs.
  - apply Qfloor_half_up. reflexivity.
  - unfold Qceiling. rewrite (Qfloor_half_up (- i)).
    + lia.
    + unfold Qeq, Qopp, Qminus, Qplus, inject_Z. simpl. lia.
Qed.

(** [roundf] sends halfway cases away from zero. *)
Lemma Qroundf_half_pos (k : Z) (x : Q) :
  0 <= k -> (x == inject_Z k + (1 # 2))%Q -> Qroundf x = k + 1.
Proof.
  intros Hk Hx. unfold Qroundf.
  assert (Hs : Qle_bool 0 x = true).
  { apply Qle_bool_iff. rewrite Hx.
    unfold Qle, Qplus, inject_Z. simpl. lia. }
  rewrite Hs.
  assert (E : (x + (1 # 2) == inject_Z (k + 1))%Q).
  { rewrite Hx. unfold Qeq, Qplus, inject_Z. simpl. lia. }
  rewrite E. apply Qfloor_Z.
Qed.

Lemma Qroundf_half_neg (k : Z) (x : Q) :
  0 <= k -> (x == - (inject_Z k + (1 # 2)))%Q -> Qroundf x = - (k + 1).
Proof.
  intros Hk Hx. unfold Qroundf.
  assert (Hs : Qle_bool 0 x = false).
  { destruct (Qle_bool 0 x) eqn:E; [|reflexivity].
    apply Qle_bool_iff in E. rewrite Hx in E.
    unfold Qle, Qopp, Qplus, inject_Z in E. simpl in E. lia. }
  rewrite Hs. unfold Qceiling.
  assert (E : (- (x - (1 # 2)) == inject_Z (k + 1))%Q).
  { rewrite Hx. unfold Qeq, Qopp, Qminus, Qplus, inject_Z. simpl. lia. }
  rewrite E, Qfloor_Z. reflexivity.
Qed.

(* ================================================================== *)
(** * The world model *)
(* ================================================================== *)

Lemma array_read_Ret_inv (a : list Field) (i : Z) (f : Field) :
  array_read a i = Ret f ->
  0 <= i < LENGTHOF a /\ nth_error a (Z.to_nat i) = Some f.
Proof.
  unfold array_read.
  destruct (0 <=? i) eqn:Hlo; destruct (i <? LENGTHOF a) eqn:Hhi;
    simpl; try discriminate.
  destruct (nth_error a (Z.to_nat i)) as [g|] eqn:Hn; try discriminate.
  intro H. injection H as ->.
  apply Z.leb_le in Hlo. apply Z.ltb_lt in Hhi. auto.
Qed.

Lemma array_read_in_bounds (a : list Field) (i : Z) :
  0 <= i < LENGTHOF a -> exists f, array_read a i = Ret f.
Proof.
  intros [Hlo Hhi]. unfold array_read.
  apply Z.leb_le in Hlo. pose proof Hhi as Hhi'. apply Z.ltb_lt in Hhi.
  rewrite Hlo, Hhi. simpl.
  destruct (nth_error a (Z.to_nat i)) as [g|] eqn:Hn.
  - exists g. reflexivity.
  - apply nth_error_None in Hn. unfold LENGTHOF in Hhi'. lia.
Qed.

(** The lookup by indices terminates the program exactly when an index is
    negative or GREATER than the dimension. *)
Lemma Game_getMapFieldByIndicies_terminates (M : MapDefinition) (x z : Z) :
  (exists stage msg, Game_getMapFieldByIndicies M x z = Terminated stage msg)
  <-> (x < 0 \/ x > mapWidth M \/ z < 0 \/ z > mapDepth M).
Proof.
  unfold Game_getMapFieldByIndicies, Common_terminate.
  rewrite !Z.gtb_ltb.
  destruct (Z.ltb_spec x 0); destruct (Z.ltb_spec (mapWidth M) x);
    destruct (Z.ltb_spec z 0); destruct (Z.ltb_spec (mapDepth M) z); simpl;
    (split; intro HH; [try lia | try (eexists; eexists; reflexivity)]);
    try lia.
  destruct HH as (stage & msg & HH). unfold array_read in HH.
  destruct ((0 <=? x * mapDepth M + z) && (x * mapDepth M + z <? LENGTHOF (map M)));
    try discriminate.
  destruct (nth_error (map M) (Z.to_nat (x * mapDepth M + z))); discriminate.
Qed.

(** C4.  The lookup by indices does not terminate the program for every
    index outside the grid: with [x = mapWidth] or [z = mapDepth] the bounds
    test lets the read happen.  At [(0, 11)] the result is the first field
    of the next row, at [(15, 0)] the read is past the end of the array. *)
Theorem Game_getMapFieldByIndicies_off_by_one :
  Game_getMapFieldByIndicies gemquest_map 0 11 = Ret Wall
  /\ Game_getMapFieldByIndicies gemquest_map 7 11 = Ret Wall
  /\ Game_getMapFieldByIndicies gemquest_map 15 0 = Undefined
  /\ Game_getMapFieldByIndicies gemquest_map 0 12
     = Terminated "INGAME" "An invalid field position was requested."
  /\ Game_getMapFieldByIndicies gemquest_map 16 0
     = Terminated "INGAME" "An invalid field position was requested.".
Proof. repeat split; reflexivity. Qed.

Lemma Game_getMapFieldIndiciesByPosition_no_exit {F : Type} {ops : FloatOps F}
    (x z : F) (stage msg : string) :
  Game_getMapFieldIndiciesByPosition x z <> Terminated stage msg.
Proof.
  unfold Game_getMapFieldIndiciesByPosition, float_to_int, int_result.
  destruct ((INT_MIN <=? trunc (roundf x)) && (trunc (roundf x) <=? INT_MAX));
    simpl; [|discriminate].
  destruct ((INT_MIN <=? trunc (roundf z)) && (trunc (roundf z) <=? INT_MAX));
    simpl; discriminate.
Qed.

Lemma array_read_no_exit (a : list Field) (i : Z) (stage msg : string) :
  array_read a i <> Terminated stage msg.
Proof.
  unfold array_read.
  destruct ((0 <=? i) && (i <? LENGTHOF a)); [|discriminate].
  destruct (nth_error a (Z.to_nat i)); discriminate.
Qed.

Lemma Qfloat_indices_of_ints (L : Libm) (ix iz : Z) :
  INT_MIN <= ix <= INT_MAX -> INT_MIN <= iz <= INT_MAX ->
  Game_getMapFieldIndiciesByPosition (ops := Qfloat L)
    (inject_Z ix) (inject_Z iz) = Ret (ix, iz).
Proof.
  intros Hx Hz.
  unfold Game_getMapFieldIndiciesByPosition, float_to_int. simpl.
  rewrite !Qroundf_inject_Z, !Qtrunc_inject_Z.
  rewrite (int_result_in_range ix Hx), (int_result_in_range iz Hz).
  reflexivity.
Qed.

(** C5.  The lookup by position does not go through the bounds test of the
    lookup by indices: it never terminates the program.  A position left of
    the grid makes it read before the array; a position beyond the last
    column makes it return a field of another row, where the lookup by
    indices terminates the program; and in a run of the game the collision
    check of an update reads outside the array. *)
Theorem Game_getMapFieldByPosition_unchecked :
  (forall (F : Type) (ops : FloatOps F) (M : MapDefinition) (x z : F)
          (stage msg : string),
      Game_getMapFieldByPosition M x z <> Terminated stage msg)
  /\ (forall L : Libm,
        Game_getMapFieldByPosition (ops := Qfloat L) gemquest_map
          (inject_Z (-1)) (inject_Z 1) = Undefined)
  /\ (forall L : Libm,
        Game_getMapFieldByPosition (ops := Qfloat L) gemquest_map
          (inject_Z 12) (inject_Z 14) = Ret Tile
        /\ Game_getMapFieldByIndicies gemquest_map 12 14
           = Terminated "INGAME" "An invalid field position was requested.")
  /\ main (ops := Qfloat taylor_libm) gemquest_map 0 run_out_of_map
     = Undefined.
Proof.
  split; [|split; [|split]].
  - intros F ops M x z stage msg. unfold Game_getMapFieldByPosition.
    destruct (Game_getMapFieldIndiciesByPosition x z) as [[ix iz]| | |] eqn:E;
      simpl; try discriminate.
    + apply array_read_no_exit.
    + exfalso. exact (Game_getMapFieldIndiciesByPosition_no_exit _ _ _ _ E).
  - intro L. reflexivity.
  - intro L. split; reflexivity.
  - vm_compute. reflexivity.
Qed.

(** The two lookups agree on every pair of indices inside a grid. *)
Lemma lookups_agree (L : Libm) (M : MapDefinition) (ix iz : Z) :
  0 <= ix < mapWidth M -> 0 <= iz < mapDepth M ->
  ix <= INT_MAX -> iz <= INT_MAX ->
  Game_getMapFieldByPosition (ops := Qfloat L) M
    (fst (Game_getMapFieldPositionByIndicies (ops := Qfloat L) ix iz))
    (snd (Game_getMapFieldPositionByIndicies (ops := Qfloat L) ix iz))
  = Game_getMapFieldByIndicies M ix iz.
Proof.
  intros Hx Hz Hxm Hzm.
  unfold Game_getMapFieldByPosition, Game_getMapFieldPositionByIndicies.
  cbn [fst snd of_int Qfloat].
  rewrite Qfloat_indices_of_ints by (unfold INT_MIN; lia).
  cbn [bind].
  unfold Game_getMapFieldByIndicies. rewrite !Z.gtb_ltb.
  destruct (Z.ltb_spec ix 0); [lia|].
  destruct (Z.ltb_spec (mapWidth M) ix); [lia|].
  destruct (Z.ltb_spec iz 0); [lia|].
  destruct (Z.ltb_spec (mapDepth M) iz); [lia|].
  reflexivity.
Qed.

(** C7.  For every pair of indices of the grid, looking up the position of
    the indices gives the field that the lookup by indices gives, and both
    lookups return. *)
Theorem Game_getMapFieldByPosition_of_indices (L : Libm) (ix iz : Z) :
  0 <= ix < mapWidth gemquest_map -> 0 <= iz < mapDepth gemquest_map ->
  Game_getMapFieldByPosition (ops := Qfloat L) gemquest_map
    (fst (Game_getMapFieldPositionByIndicies (ops := Qfloat L) ix iz))
    (snd (Game_getMapFieldPositionByIndicies (ops := Qfloat L) ix iz))
  = Game_getMapFieldByIndicies gemquest_map ix iz
  /\ exists f : Field, Game_getMapFieldByIndicies gemquest_map ix iz = Ret f.
Proof.
  intros Hx Hz. simpl in Hx, Hz. split.
  - apply lookups_agree; simpl; unfold INT_MAX; lia.
  - unfold Game_getMapFieldByIndicies. rewrite !Z.gtb_ltb.
    destruct (Z.ltb_spec ix 0); [lia|].
    destruct (Z.ltb_spec (mapWidth gemquest_map) ix); [simpl in *; lia|].
    destruct (Z.ltb_spec iz 0); [lia|].
    destruct (Z.ltb_spec (mapDepth gemquest_map) iz); [simpl in *; lia|].
    apply array_read_in_bounds. simpl. unfold LENGTHOF. simpl. lia.
Qed.

Lemma Game_getMapFieldByPosition_of_indices_witness :
  Game_getMapFieldByPosition (ops := Qfloat taylor_libm) gemquest_map
    (fst (Game_getMapFieldPositionByIndicies (ops := Qfloat taylor_libm) 12 9))
    (snd (Game_getMapFieldPositionByIndicies (ops := Qfloat taylor_libm) 12 9))
  = Game_getMapFieldByIndicies gemquest_map 12 9
  /\ exists f : Field, Game_getMapFieldByIndicies gemquest_map 12 9 = Ret f.
Proof.
  apply (Game_getMapFieldByPosition_of_indices taylor_libm 12 9);
    simpl; lia.
Defined.

(** C10.  The conversion of a position to indices rounds halfway cases away
    from zero: [k + 0.5] goes to [k + 1] and [-(k + 0.5)] to [-(k + 1)], for
    each coordinate; the collision lookup and the interaction take their
    indices from this one conversion. *)
Theorem Game_getMapFieldIndiciesByPosition_half_away_from_zero
    (L : Libm) (k m : Z) :
  0 <= k < INT_MAX -> 0 <= m < INT_MAX ->
  (forall x z : Q,
      (x == inject_Z k + (1 # 2))%Q -> (z == inject_Z m + (1 # 2))%Q ->
      Game_getMapFieldIndiciesByPosition (ops := Qfloat L) x z
      = Ret (k + 1, m + 1))
  /\ (forall x z : Q,
      (x == - (inject_Z k + (1 # 2)))%Q -> (z == - (inject_Z m + (1 # 2)))%Q ->
      Game_getMapFieldIndiciesByPosition (ops := Qfloat L) x z
      = Ret (- (k + 1), - (m + 1)))
  /\ (forall (M : MapDefinition) (x z : Q),
      Game_getMapFieldByPosition (ops := Qfloat L) M x z
      = bind (Game_getMapFieldIndiciesByPosition (ops := Qfloat L) x z)
          (fun i => array_read (map M) (fst i * mapDepth M + snd i)))
  /\ (forall (M : MapDefinition) (x z : Q) (s : ItemState),
      interact (ops := Qfloat L) M true x z s
      = bind (Game_getMapFieldIndiciesByPosition (ops := Qfloat L) x z)
          (fun i => probe_fields M (fst i) (snd i) s)).
Proof.
  intros Hk Hm. unfold INT_MAX in Hk, Hm.
  split; [|split; [|split]].
  - intros x z Hx Hz.
    unfold Game_getMapFieldIndiciesByPosition, float_to_int. simpl.
    rewrite (Qroundf_half_pos k x), (Qroundf_half_pos m z) by (lia || assumption).
    rewrite !Qtrunc_inject_Z.
    rewrite !int_result_in_range by (unfold INT_MIN, INT_MAX; lia).
    reflexivity.
  - intros x z Hx Hz.
    unfold Game_getMapFieldIndiciesByPosition, float_to_int. simpl.
    rewrite (Qroundf_half_neg k x), (Qroundf_half_neg m z) by (lia || assumption).
    rewrite !Qtrunc_inject_Z.
    rewrite !int_result_in_range by (unfold INT_MIN, INT_MAX; lia).
    reflexivity.
  - intros M x z. unfold Game_getMapFieldByPosition.
    destruct (Game_getMapFieldIndiciesByPosition x z) as [[ix iz]| | |];
      reflexivity.
  - intros M x z s. unfold interact.
    destruct (Game_getMapFieldIndiciesByPosition x z) as [[ix iz]| | |];
      reflexivity.
Qed.

Lemma Game_getMapFieldIndiciesByPosition_half_witness :
  Game_getMapFieldIndiciesByPosition (ops := Qfloat taylor_libm) (5 # 2) (7 # 2)
  = Ret (3, 4)
  /\ Game_getMapFieldIndiciesByPosition (ops := Qfloat taylor_libm)
       (- (5 # 2))%Q (- (7 # 2))%Q
     = Ret (-3, -4).
Proof.
  assert (Hk : 0 <= 2 < INT_MAX) by (unfold INT_MAX; lia).
  assert (Hm : 0 <= 3 < INT_MAX) by (unfold INT_MAX; lia).
  destruct (Game_getMapFieldIndiciesByPosition_half_away_from_zero
              taylor_libm 2 3 Hk Hm) as (Hpos & Hneg & _).
  split.
  - apply Hpos; reflexivity.
  - apply Hneg; reflexivity.
Defined.

(* ================================================================== *)
(** * Loops *)
(* ================================================================== *)

(** Total correctness of a loop: an invariant kept by the body, which
    returns and decreases a measure, gives a result once the fuel exceeds
    the measure. *)
Lemma while_loop_total {S : Type} (I : S -> Prop) (measure : S -> nat)
    (cond : S -> bool) (body : S -> outcome S) :
  (forall s, I s -> cond s = true ->
     exists s', body s = Ret s' /\ I s' /\ (measure s' < measure s)%nat) ->
  forall (fuel : nat) (s : S),
    I s -> (measure s < fuel)%nat ->
    exists s', while_loop fuel cond body s = Ret s' /\ I s' /\ cond s' = false.
Proof.
  intros Hbody fuel. induction fuel as [|fuel IH]; intros s HI Hm.
  - lia.
  - simpl. destruct (cond s) eqn:Hc.
    + destruct (Hbody s HI Hc) as (s1 & Hb & HI1 & Hlt).
      rewrite Hb. simpl. apply IH; [assumption | lia].
    + exists s. auto.
Qed.

(** Partial correctness: whatever a loop returns satisfies the invariant and
    falsifies the condition. *)
Lemma while_loop_partial {S : Type} (I : S -> Prop)
    (cond : S -> bool) (body : S -> outcome S) :
  (forall s s', I s -> cond s = true -> body s = Ret s' -> I s') ->
  forall (fuel : nat) (s s' : S),
    I s -> while_loop fuel cond body s = Ret s' -> I s' /\ cond s' = false.
Proof.
  intros Hbody fuel. induction fuel as [|fuel IH]; intros s s' HI H.
  - discriminate.
  - simpl in H. destruct (cond s) eqn:Hc.
    + apply bind_Ret_inv in H. destruct H as (s1 & Hb & H).
      apply (IH s1 s'); [eapply Hbody; eassumption | exact H].
    + injection H as <-. auto.
Qed.

(* ================================================================== *)
(** * Loading *)
(* ================================================================== *)

Section Loading.

Variable M : MapDefinition.
Hypothesis size_ok : LENGTHOF (map M) = mapWidth M * mapDepth M.

Lemma field_of_cell_in_grid (x z : Z) (f : Field) :
  field_of_cell M x z = Some f ->
  0 <= x < mapWidth M /\ 0 <= z < mapDepth M.
Proof.
  unfold field_of_cell.
  destruct (Z.leb_spec 0 x); destruct (Z.ltb_spec x (mapWidth M));
    destruct (Z.leb_spec 0 z); destruct (Z.ltb_spec z (mapDepth M));
    simpl; try discriminate. lia.
Qed.

(** Inside a grid of the right size, the lookup by indices returns the field
    of the cell. *)
Lemma Game_getMapFieldByIndicies_in_grid (x z : Z) :
  0 <= x < mapWidth M -> 0 <= z < mapDepth M ->
  exists f, Game_getMapFieldByIndicies M x z = Ret f
            /\ field_of_cell M x z = Some f.
Proof.
  intros Hx Hz.
  assert (Hi : 0 <= x * mapDepth M + z < LENGTHOF (map M)).
  { rewrite size_ok. nia. }
  unfold Game_getMapFieldByIndicies, field_of_cell. rewrite !Z.gtb_ltb.
  destruct (Z.ltb_spec x 0); [lia|].
  destruct (Z.ltb_spec (mapWidth M) x); [lia|].
  destruct (Z.ltb_spec z 0); [lia|].
  destruct (Z.ltb_spec (mapDepth M) z); [lia|].
  destruct (Z.leb_spec 0 x); [|lia].
  destruct (Z.ltb_spec x (mapWidth M)); [|lia].
  destruct (Z.leb_spec 0 z); [|lia].
  destruct (Z.ltb_spec z (mapDepth M)); [|lia].
  simpl.
  destruct (array_read_in_bounds (map M) _ Hi) as (f & Hf).
  exists f. split; [exact Hf|].
  apply array_read_Ret_inv in Hf. tauto.
Qed.

Lemma Field_eqb_Init (f : Field) : Field_eqb f Init = true <-> f = Init.
Proof. destruct f; unfold Field_eqb; simpl; split; intro; congruence. Qed.

(** What holds of the loop variables while row [x] is searched. *)
Definition row_invariant (x : Z) (v : SpawnSearch) : Prop :=
  0 <= spawnZ v
  /\ (spawnPointFound v = false ->
        spawnX v = x
        /\ forall z, 0 <= z < spawnZ v -> field_of_cell M x z <> Some Init)
  /\ (spawnPointFound v = true ->
        spawnX v = x - 1
        /\ field_of_cell M x (spawnZ v) = Some Init
        /\ forall z, 0 <= z < spawnZ v -> field_of_cell M x z <> Some Init).

Lemma spawn_search_z_spec (x : Z) :
  0 <= x < mapWidth M ->
  exists v,
    spawn_search_z M {| spawnX := x; spawnZ := 0; spawnPointFound := false |}
    = Ret v
    /\ row_invariant x v
    /\ (spawnPointFound v = false -> mapDepth M <= spawnZ v).
Proof.
  intro Hx. unfold spawn_search_z.
  set (measure := fun v : SpawnSearch =>
                    if spawnPointFound v then O
                    else Z.to_nat (mapDepth M - spawnZ v)).
  match goal with
  | |- exists v, while_loop ?fuel ?c ?b ?start = _ /\ _ =>
      assert (Hbody : forall u, row_invariant x u -> c u = true ->
                exists u', b u = Ret u' /\ row_invariant x u'
                           /\ (measure u' < measure u)%nat);
      [| destruct (while_loop_total (row_invariant x) measure c b Hbody
                     fuel start) as (v & Hv & HI & Hc) ]
  end.
  - intros v (Hz0 & Hnf & _) Hc.
    apply andb_true_iff in Hc. destruct Hc as [Hlt Hf].
    apply Z.ltb_lt in Hlt. apply negb_true_iff in Hf.
    destruct (Hnf Hf) as [Hvx Hbefore].
    destruct (Game_getMapFieldByIndicies_in_grid (spawnX v) (spawnZ v))
      as (f & Hget & Hcell); [lia | lia |].
    rewrite Hget. cbn [bind]. unfold measure.
    destruct (Field_eqb f Init) eqn:Hinit.
    + apply Field_eqb_Init in Hinit. subst f.
      eexists. split; [reflexivity|]. cbn.
      rewrite Hf. split; [|lia].
      unfold row_invariant; cbn [spawnX spawnZ spawnPointFound].
      split; [lia|]. split; [discriminate|]. intros _.
      replace (spawnZ v - 1 + 1) with (spawnZ v) by lia.
      rewrite Hvx in Hcell |- *. auto.
    + eexists. split; [reflexivity|]. cbn. rewrite Hf.
      split; [|lia].
      unfold row_invariant; cbn [spawnX spawnZ spawnPointFound].
      split; [lia|]. split; [|congruence]. intros _.
      split; [exact Hvx|]. intros z Hz.
      destruct (Z.eq_dec z (spawnZ v)) as [->|Hne].
      * rewrite Hvx in Hcell. rewrite Hcell. intro E. injection E as ->.
        unfold Field_eqb in Hinit. simpl in Hinit. discriminate.
      * apply Hbefore. lia.
  - repeat split; simpl; try lia; try discriminate.
  - unfold measure. simpl. lia.
  - exists v. split; [exact Hv|]. split; [exact HI|].
    intro Hf. rewrite Hf in Hc. simpl in Hc.
    rewrite andb_true_r in Hc. apply Z.ltb_ge in Hc. exact Hc.
Qed.

(** What holds of the loop variables while the rows are searched. *)
Definition grid_invariant (v : SpawnSearch) : Prop :=
  (spawnPointFound v = false ->
     0 <= spawnX v
     /\ forall x z, 0 <= x < spawnX v -> field_of_cell M x z <> Some Init)
  /\ (spawnPointFound v = true -> first_spawn M (spawnX v) (spawnZ v)).

Lemma spawn_search_spec :
  exists v,
    spawn_search M = Ret v
    /\ ((spawnPointFound v = true /\ first_spawn M (spawnX v) (spawnZ v))
        \/ (spawnPointFound v = false /\ no_spawn M)).
Proof.
  unfold spawn_search.
  set (measure := fun v : SpawnSearch =>
                    if spawnPointFound v then O
                    else Z.to_nat (mapWidth M - spawnX v)).
  match goal with
  | |- exists v, while_loop ?fuel ?c ?b ?start = _ /\ _ =>
      assert (Hbody : forall u, grid_invariant u -> c u = true ->
                exists u', b u = Ret u' /\ grid_invariant u'
                           /\ (measure u' < measure u)%nat);
      [| destruct (while_loop_total grid_invariant measure c b Hbody
                     fuel start) as (v & Hv & HI & Hc) ]
  end.
  - intros v [Hnf _] Hc.
    apply andb_true_iff in Hc. destruct Hc as [Hlt Hf].
    apply Z.ltb_lt in Hlt. apply negb_true_iff in Hf.
    destruct (Hnf Hf) as [Hx0 Hrows].
    rewrite Hf.
    destruct (spawn_search_z_spec (spawnX v)) as (v1 & Hv1 & Hrow & Hend);
      [lia|].
    rewrite Hv1. cbn [bind].
    eexists. split; [reflexivity|].
    destruct Hrow as (Hz0 & Hrnf & Hrf).
    unfold grid_invariant, measure; cbn [spawnX spawnZ spawnPointFound].
    destruct (spawnPointFound v1) eqn:Hf1.
    + destruct (Hrf eq_refl) as (Hx1 & Hcell & Hbefore).
      rewrite Hf. split; [|lia].
      split; [discriminate|]. intros _.
      replace (spawnX v1 + 1) with (spawnX v) by lia.
      split; [exact Hcell|].
      intros x' z' Hsb E.
      destruct (field_of_cell_in_grid _ _ _ E) as [Hx' Hz'].
      destruct Hsb as [Hsb|[-> Hsb]].
      * apply (Hrows x' z'); [lia | exact E].
      * apply (Hbefore z'); [lia | exact E].
    + destruct (Hrnf eq_refl) as (Hx1 & Hbefore).
      specialize (Hend eq_refl).
      rewrite Hf. split; [|lia].
      split; [|discriminate]. intros _.
      split; [lia|]. intros x' z' Hx' E.
      destruct (field_of_cell_in_grid _ _ _ E) as [_ Hz'].
      destruct (Z.eq_dec x' (spawnX v)) as [->|Hne].
      * apply (Hbefore z'); [lia | exact E].
      * apply (Hrows x' z'); [lia | exact E].
  - split; cbn [spawnX spawnZ spawnPointFound]; [|discriminate].
    intros _. split; [lia|]. intros x z Hx. lia.
  - unfold measure. simpl. lia.
  - exists v. split; [exact Hv|].
    destruct HI as [Hnf Hfd].
    destruct (spawnPointFound v) eqn:Hf.
    + left. auto.
    + right. split; [reflexivity|].
      rewrite andb_true_r in Hc. apply Z.ltb_ge in Hc.
      destruct (Hnf eq_refl) as [_ Hrows].
      intros x z E.
      destruct (field_of_cell_in_grid _ _ _ E) as [Hx' _].
      apply (Hrows x z); [lia | exact E].
Qed.

End Loading.

Lemma first_spawn_unique (M : MapDefinition) (x z x' z' : Z) :
  first_spawn M x z -> first_spawn M x' z' -> x = x' /\ z = z'.
Proof.
  intros [H1 H1'] [H2 H2'].
  destruct (Z.lt_trichotomy x x') as [Hlt|[->|Hgt]].
  - exfalso. apply (H2' x z); [left; exact Hlt | exact H1].
  - destruct (Z.lt_trichotomy z z') as [Hlt|[->|Hgt]].
    + exfalso. apply (H2' x' z); [right; auto | exact H1].
    + auto.
    + exfalso. apply (H1' x' z'); [right; auto | exact H2].
  - exfalso. apply (H1' x' z'); [left; lia | exact H2].
Qed.

(** C6, as the code has it.  Loading terminates the program for a grid whose
    array length differs from width times depth and for a grid without a
    spawn point.  Every other grid is accepted, however many spawn points it
    has: the search stops at the first spawn point in the order of the
    loops, and the player is placed there.  So a grid that passes has its
    array of the right length and a spawn point, the first of which is where
    the player stands. *)
Theorem Game_onLoad_validation (F : Type) (ops : FloatOps F)
    (M : MapDefinition) (elapsedTime : Z) :
  INT_MIN <= mapWidth M * mapDepth M <= INT_MAX ->
  (LENGTHOF (map M) <> mapWidth M * mapDepth M ->
     Game_onLoad M elapsedTime initial_state
     = Terminated "LOADING"
         "The map size doesn't match with the actual data size.")
  /\ (LENGTHOF (map M) = mapWidth M * mapDepth M -> no_spawn M ->
     Game_onLoad M elapsedTime initial_state
     = Terminated "LOADING" "The map doesn't contain a player spawn point.")
  /\ (LENGTHOF (map M) = mapWidth M * mapDepth M ->
     forall x z, first_spawn M x z ->
     exists s',
       Game_onLoad M elapsedTime initial_state = Ret s'
       /\ isLoaded s' = true
       /\ playerX (player s') = of_int x
       /\ playerZ (player s') = of_int z
       /\ itemState s' = Initial
       /\ gameBrightness s' = fconst 0
       /\ lastUpdateTime s' = elapsedTime)
  /\ (forall s',
       Game_onLoad M elapsedTime initial_state = Ret s' ->
       LENGTHOF (map M) = mapWidth M * mapDepth M
       /\ exists x z,
            first_spawn M x z
            /\ playerX (player s') = of_int x
            /\ playerZ (player s') = of_int z).
Proof.
  intro Hrange. unfold Game_onLoad. cbn [isLoaded initial_state].
  rewrite (int_result_in_range _ Hrange). cbn [bind].
  split; [|split; [|split]].
  - intro Hne. apply Z.eqb_neq in Hne. rewrite Hne. reflexivity.
  - intros Hsize Hnone. rewrite (proj2 (Z.eqb_eq _ _) Hsize). cbn [negb].
    destruct (spawn_search_spec M Hsize) as (v & Hv & [[Hf Hfirst]|[Hf _]]).
    + exfalso. destruct Hfirst as [Hcell _]. exact (Hnone _ _ Hcell).
    + rewrite Hv. cbn [bind]. rewrite Hf. reflexivity.
  - intros Hsize x z Hfirst. rewrite (proj2 (Z.eqb_eq _ _) Hsize). cbn [negb].
    destruct (spawn_search_spec M Hsize) as (v & Hv & [[Hf Hfound]|[Hf Hnone]]).
    + destruct (first_spawn_unique _ _ _ _ _ Hfirst Hfound) as [-> ->].
      rewrite Hv. cbn [bind]. rewrite Hf.
      eexists. split; [reflexivity|]. cbn. repeat split; reflexivity.
    + exfalso. destruct Hfirst as [Hcell _]. exact (Hnone _ _ Hcell).
  - intros s' H.
    destruct (Z.eqb_spec (LENGTHOF (map M)) (mapWidth M * mapDepth M))
      as [Hsize|Hsize]; cbn [negb] in H; [|discriminate].
    split; [exact Hsize|].
    destruct (spawn_search_spec M Hsize) as (v & Hv & [[Hf Hfound]|[Hf _]]);
      rewrite Hv in H; cbn [bind] in H; rewrite Hf in H; [|discriminate].
    cbn in H. injection H as <-.
    exists (spawnX v), (spawnZ v). cbn. auto.
Qed.

(** Case analysis on an integer known to lie in [lo, lo + n). *)
Ltac case_range x lo n :=
  lazymatch n with
  | O => exfalso; lia
  | S ?n' =>
      let lo' := eval compute in (lo + 1) in
      destruct (Z.eq_dec x lo) as [->|?]; [ | case_range x lo' n' ]
  end.

Lemma first_spawn_gemquest_map : first_spawn gemquest_map 7 1.
Proof.
  split; [reflexivity|].
  intros x' z' Hsb E.
  destruct (field_of_cell_in_grid _ _ _ _ E) as [Hx Hz]. simpl in Hx, Hz.
  assert (Hx7 : 0 <= x' < 8) by (destruct Hsb; lia).
  case_range x' 0 8%nat; case_range z' 0 11%nat;
    try (vm_compute in E; discriminate);
    destruct Hsb; lia.
Defined.

Lemma Game_onLoad_validation_witness :
  exists s',
    Game_onLoad (ops := Qfloat taylor_libm) gemquest_map 0
      (initial_state (ops := Qfloat taylor_libm))
    = Ret s'
    /\ isLoaded s' = true
    /\ playerX (player s') = of_int (FloatOps := Qfloat taylor_libm) 7
    /\ playerZ (player s') = of_int (FloatOps := Qfloat taylor_libm) 1
    /\ itemState s' = Initial
    /\ gameBrightness s' = fconst (FloatOps := Qfloat taylor_libm) 0
    /\ lastUpdateTime s' = 0.
Proof.
  assert (Hrange : INT_MIN <= mapWidth gemquest_map * mapDepth gemquest_map
                   <= INT_MAX) by (vm_compute; split; discriminate).
  destruct (Game_onLoad_validation Q (Qfloat taylor_libm) gemquest_map 0 Hrange)
    as (_ & _ & Hload & _).
  apply Hload.
  - reflexivity.
  - exact first_spawn_gemquest_map.
Defined.

(** C6 as stated fails: a grid with two spawn points passes the load-time
    validation, and the player is placed at the first of them. *)
Lemma Game_onLoad_accepts_two_spawn_points :
  List.length (filter (fun f => Field_eqb f Init) (map two_spawn_map)) = 2%nat
  /\ LENGTHOF (map two_spawn_map)
     = mapWidth two_spawn_map * mapDepth two_spawn_map
  /\ exists s',
       Game_onLoad (ops := Qfloat taylor_libm) two_spawn_map 0
         (initial_state (ops := Qfloat taylor_libm))
       = Ret s'
       /\ isLoaded s' = true
       /\ playerX (player s') = inject_Z 1
       /\ playerZ (player s') = inject_Z 0.
Proof.
  split; [reflexivity|]. split; [reflexivity|].
  eexists. split; [vm_compute; reflexivity|].
  repeat split; reflexivity.
Qed.

Lemma probe_fields_z_unroll (M : MapDefinition) (x cz : Z) (s : ItemState) :
  INT_MIN <= cz - 1 -> cz + 1 <= INT_MAX ->
  probe_fields_z M x cz s =
  (f1 <- Game_getMapFieldByIndicies M x (cz - 1) ;;
   f2 <- Game_getMapFieldByIndicies M x cz ;;
   f3 <- Game_getMapFieldByIndicies M x (cz + 1) ;;
   Ret (probe_field f3 (probe_field f2 (probe_field f1 s)))).
Proof.
  intros Hlo Hhi. unfold probe_fields_z.
  rewrite !int_result_in_range by lia. cbn [bind while_loop].
  replace (cz - 1 <=? cz + 1) with true by (symmetry; apply Z.leb_le; lia).
  replace (cz - 1 + 1) with cz by lia.
  destruct (Game_getMapFieldByIndicies M x (cz - 1)) as [f1| | |];
    cbn [bind]; try reflexivity.
  replace (cz <=? cz + 1) with true by (symmetry; apply Z.leb_le; lia).
  destruct (Game_getMapFieldByIndicies M x cz) as [f2| | |];
    cbn [bind]; try reflexivity.
  rewrite Z.leb_refl.
  destruct (Game_getMapFieldByIndicies M x (cz + 1)) as [f3| | |];
    cbn [bind]; try reflexivity.
  replace (cz + 1 + 1 <=? cz + 1) with false by (symmetry; apply Z.leb_gt; lia).
  reflexivity.
Qed.

Lemma probe_fields_unroll (M : MapDefinition) (cx cz : Z) (s : ItemState) :
  INT_MIN <= cx - 1 -> cx + 1 <= INT_MAX ->
  probe_fields M cx cz s =
  (s1 <- probe_fields_z M (cx - 1) cz s ;;
   s2 <- probe_fields_z M cx cz s1 ;;
   s3 <- probe_fields_z M (cx + 1) cz s2 ;;
   Ret s3).
Proof.
  intros Hlo Hhi. unfold probe_fields.
  rewrite !int_result_in_range by lia. cbn [bind while_loop].
  replace (cx - 1 <=? cx + 1) with true by (symmetry; apply Z.leb_le; lia).
  replace (cx - 1 + 1) with cx by lia.
  destruct (probe_fields_z M (cx - 1) cz s) as [s1| | |];
    cbn [bind]; try reflexivity.
  replace (cx <=? cx + 1) with true by (symmetry; apply Z.leb_le; lia).
  destruct (probe_fields_z M cx cz s1) as [s2| | |];
    cbn [bind]; try reflexivity.
  rewrite Z.leb_refl.
  destruct (probe_fields_z M (cx + 1) cz s2) as [s3| | |];
    cbn [bind]; try reflexivity.
  replace (cx + 1 + 1 <=? cx + 1) with false by (symmetry; apply Z.leb_gt; lia).
  reflexivity.
Qed.

Lemma Field_eqb_eq (a b : Field) : Field_eqb a b = true <-> a = b.
Proof. destruct a, b; unfold Field_eqb; simpl; split; intro; congruence. Qed.

Lemma Game_getMapFieldByIndicies_Ret_inv (M : MapDefinition) (x z : Z)
    (f : Field) :
  Game_getMapFieldByIndicies M x z = Ret f ->
  0 <= x <= mapWidth M /\ 0 <= z <= mapDepth M
  /\ 0 <= x * mapDepth M + z < LENGTHOF (map M)
  /\ nth_error (map M) (Z.to_nat (x * mapDepth M + z)) = Some f.
Proof.
  unfold Game_getMapFieldByIndicies, Common_terminate. rewrite !Z.gtb_ltb.
  destruct (Z.ltb_spec x 0); [discriminate|].
  destruct (Z.ltb_spec (mapWidth M) x); [discriminate|].
  destruct (Z.ltb_spec z 0); [discriminate|].
  destruct (Z.ltb_spec (mapDepth M) z); [discriminate|].
  simpl. intro Hr. apply array_read_Ret_inv in Hr. intuition lia.
Qed.

Lemma probe_fields_z_Ret_inv (M : MapDefinition) (x cz : Z) (s s' : ItemState) :
  probe_fields_z M x cz s = Ret s' ->
  exists f1 f2 f3,
    Game_getMapFieldByIndicies M x (cz - 1) = Ret f1
    /\ Game_getMapFieldByIndicies M x cz = Ret f2
    /\ Game_getMapFieldByIndicies M x (cz + 1) = Ret f3
    /\ s' = probe_field f3 (probe_field f2 (probe_field f1 s)).
Proof.
  intro H. pose proof H as H0. unfold probe_fields_z in H0.
  apply bind_Ret_inv in H0. destruct H0 as (lo & Hlo & H0).
  apply bind_Ret_inv in H0. destruct H0 as (hi & Hhi & _).
  apply int_result_Ret_inv in Hlo. apply int_result_Ret_inv in Hhi.
  rewrite probe_fields_z_unroll in H by lia.
  apply bind_Ret_inv in H. destruct H as (f1 & H1 & H).
  apply bind_Ret_inv in H. destruct H as (f2 & H2 & H).
  apply bind_Ret_inv in H. destruct H as (f3 & H3 & H).
  injection H as <-. exists f1, f2, f3. auto.
Qed.

Lemma probe_fields_Ret_inv (M : MapDefinition) (cx cz : Z) (s s' : ItemState) :
  probe_fields M cx cz s = Ret s' ->
  exists s1 s2,
    probe_fields_z M (cx - 1) cz s = Ret s1
    /\ probe_fields_z M cx cz s1 = Ret s2
    /\ probe_fields_z M (cx + 1) cz s2 = Ret s'.
Proof.
  intro H. pose proof H as H0. unfold probe_fields in H0.
  apply bind_Ret_inv in H0. destruct H0 as (lo & Hlo & H0).
  apply bind_Ret_inv in H0. destruct H0 as (hi & Hhi & _).
  apply int_result_Ret_inv in Hlo. apply int_result_Ret_inv in Hhi.
  rewrite probe_fields_unroll in H by lia.
  apply bind_Ret_inv in H. destruct H as (s1 & H1 & H).
  apply bind_Ret_inv in H. destruct H as (s2 & H2 & H).
  apply bind_Ret_inv in H. destruct H as (s3 & H3 & H).
  injection H as <-. exists s1, s2. auto.
Qed.

(** In the game's map the probe loops return only around a cell that has
    all its eight neighbours inside the array. *)
Lemma probe_fields_gemquest_range (cx cz : Z) (s s' : ItemState) :
  probe_fields gemquest_map cx cz s = Ret s' ->
  1 <= cx <= 13 /\ 1 <= cz <= 10.
Proof.
  intro H. apply probe_fields_Ret_inv in H.
  destruct H as (s1 & s2 & H1 & _ & H3).
  apply probe_fields_z_Ret_inv in H1. destruct H1 as (f1 & _ & _ & H1 & _).
  apply probe_fields_z_Ret_inv in H3. destruct H3 as (_ & _ & f3 & _ & _ & H3 & _).
  apply Game_getMapFieldByIndicies_Ret_inv in H1.
  apply Game_getMapFieldByIndicies_Ret_inv in H3.
  unfold LENGTHOF in *. simpl in H1, H3. lia.
Qed.

(** The result of an interaction in the game's map. *)
Lemma probe_fields_gemquest (cx cz : Z) (s s' : ItemState) :
  probe_fields gemquest_map cx cz s = Ret s' ->
  s' = next_item_state gemquest_map cx cz s.
Proof.
  intro H. destruct (probe_fields_gemquest_range _ _ _ _ H) as [Hx Hz].
  case_range cx 1 13%nat; case_range cz 1 10%nat;
    destruct s; vm_compute in H |- *; congruence.
Qed.

Lemma block_has_b_spec (M : MapDefinition) (f : Field) (cx cz : Z) :
  block_has_b M f cx cz = true <-> block_has M f cx cz.
Proof.
  unfold block_has_b, block_has, in_block. rewrite existsb_exists. split.
  - intros ([dx dz] & Hin & Hf). cbn [fst snd] in Hf.
    destruct (field_of_cell M (cx + dx) (cz + dz)) as [g|] eqn:E;
      [|discriminate].
    apply Field_eqb_eq in Hf. subst g.
    exists (cx + dx), (cz + dz). split; [|exact E].
    simpl in Hin.
    repeat (destruct Hin as [Hin|Hin]; [injection Hin as E1 E2; lia|]).
    contradiction.
  - intros (x & z & [Hx Hz] & E).
    exists (x - cx, z - cz). cbn [fst snd].
    replace (cx + (x - cx)) with x by lia.
    replace (cz + (z - cz)) with z by lia.
    rewrite E. split; [|apply Field_eqb_eq; reflexivity].
    assert (Hdx : x - cx = -1 \/ x - cx = 0 \/ x - cx = 1) by lia.
    assert (Hdz : z - cz = -1 \/ z - cz = 0 \/ z - cz = 1) by lia.
    destruct Hdx as [ -> | [ -> | -> ] ]; destruct Hdz as [ -> | [ -> | -> ] ];
      simpl; tauto.
Qed.

(* ================================================================== *)
(** * The update callback, read backwards from its result *)
(* ================================================================== *)

Lemma Game_onUpdate_Ret_inv {F : Type} {ops : FloatOps F}
    (M : MapDefinition) (t : Z) (s s' : GameState F) :
  Game_onUpdate M t s = Ret s' ->
  gameBrightness s'
  = fst (update_brightness (itemState s) (gameBrightness s)
           (of_int (t - lastUpdateTime s) / of_int 1000)%float)
  /\ interact M (inputAction (input s))
       (playerX (player s')) (playerZ (player s')) (itemState s)
     = Ret (itemState s')
  /\ resolve_collision M (playerX (player s)) (playerZ (player s))
       (fst (candidate_accerlation t s)) (snd (candidate_accerlation t s))
     = Ret (playerX (player s'), playerZ (player s'),
            playerAccerlationX (player s'), playerAccerlationZ (player s'))
  /\ input s' = input s
  /\ lastUpdateTime s' = t
  /\ isLoaded s' = isLoaded s
  /\ (mainLoopLeft s = true -> mainLoopLeft s' = true).
Proof.
  unfold Game_onUpdate, candidate_accerlation.
  destruct (update_brightness (itemState s) (gameBrightness s)
              (of_int (t - lastUpdateTime s) / of_int 1000)%float)
    as [b destroy] eqn:Hb.
  cbn [fst].
  destruct (update_rotation s b
              (of_int (t - lastUpdateTime s) / of_int 1000)%float)
    as [[[rax ray] rx] ry].
  cbn [snd].
  destruct (added_accerlation (input s) ry
              (of_int (t - lastUpdateTime s) / of_int 1000)%float)
    as [addedX addedZ].
  cbn [fst snd].
  intro H.
  apply bind_Ret_inv in H. destruct H as ([[[px pz] ax] az] & Hcol & H).
  apply bind_Ret_inv in H. destruct H as (st & Hint & H).
  injection H as <-.
  cbn [gameBrightness itemState player playerX playerZ playerAccerlationX
       playerAccerlationZ input lastUpdateTime isLoaded mainLoopLeft].
  repeat split; try reflexivity; try assumption.
  intro Hleft. unfold Game_onDestroy.
  destruct destroy; [|exact Hleft].
  destruct (isLoaded s); [reflexivity | exact Hleft].
Qed.

(* ================================================================== *)
(** * The item state *)
(* ================================================================== *)

Lemma probe_field_monotone (f : Field) (s : ItemState) :
  ItemState_value s <= ItemState_value (probe_field f s).
Proof. destruct f, s; vm_compute; discriminate. Qed.

Lemma probe_fields_z_monotone (M : MapDefinition) (x cz : Z) (s s' : ItemState) :
  probe_fields_z M x cz s = Ret s' ->
  ItemState_value s <= ItemState_value s'.
Proof.
  intro H. apply probe_fields_z_Ret_inv in H.
  destruct H as (f1 & f2 & f3 & _ & _ & _ & ->).
  pose proof (probe_field_monotone f1 s).
  pose proof (probe_field_monotone f2 (probe_field f1 s)).
  pose proof (probe_field_monotone f3 (probe_field f2 (probe_field f1 s))).
  lia.
Qed.

Lemma interact_monotone {F : Type} {ops : FloatOps F} (M : MapDefinition)
    (a : bool) (x z : F) (s s' : ItemState) :
  interact M a x z s = Ret s' -> ItemState_value s <= ItemState_value s'.
Proof.
  unfold interact. destruct a.
  - intro H. apply bind_Ret_inv in H. destruct H as ([cx cz] & _ & H).
    apply probe_fields_Ret_inv in H. destruct H as (s1 & s2 & H1 & H2 & H3).
    apply probe_fields_z_monotone in H1, H2, H3. lia.
  - intro H. injection H as <-. lia.
Qed.

Lemma dispatch_item_state_monotone {F : Type} {ops : FloatOps F}
    (M : MapDefinition) (e : Event) (s s' : GameState F) :
  dispatch M e s = Ret s' ->
  ItemState_value (itemState s) <= ItemState_value (itemState s').
Proof.
  destruct e as [key|key|mx mz|w h|t]; simpl; intro H.
  - injection H as <-. unfold Game_onKeyboardDown, Game_onDestroy.
    repeat match goal with
           | |- context [if ?b then _ else _] => destruct b
           end; simpl; lia.
  - injection H as <-. unfold Game_onKeyboardUp.
    repeat match goal with
           | |- context [if ?b then _ else _] => destruct b
           end; simpl; lia.
  - injection H as <-. simpl. lia.
  - injection H as <-. simpl. lia.
  - apply Game_onUpdate_Ret_inv in H. destruct H as (_ & H & _).
    exact (interact_monotone _ _ _ _ _ _ H).
Qed.

Lemma glutMainLoop_item_state_monotone {F : Type} {ops : FloatOps F}
    (M : MapDefinition) (events : list Event) :
  forall s s' : GameState F,
    glutMainLoop M events s = Ret s' ->
    ItemState_value (itemState s) <= ItemState_value (itemState s').
Proof.
  induction events as [|e events IH]; intros s s' H; simpl in H.
  - injection H as <-. lia.
  - destruct (mainLoopLeft s).
    + injection H as <-. lia.
    + apply bind_Ret_inv in H. destruct H as (s1 & H1 & H).
      apply dispatch_item_state_monotone in H1. apply IH in H. lia.
Qed.

Lemma glutMainLoop_app {F : Type} {ops : FloatOps F}
    (M : MapDefinition) (events1 events2 : list Event) :
  forall s : GameState F,
    glutMainLoop M (events1 ++ events2) s
    = bind (glutMainLoop M events1 s) (glutMainLoop M events2).
Proof.
  induction events1 as [|e events1 IH]; intro s; simpl.
  - reflexivity.
  - destruct (mainLoopLeft s) eqn:Hleft.
    + simpl. destruct events2; simpl; [reflexivity|]. rewrite Hleft. reflexivity.
    + destruct (dispatch M e s) as [s1| | |]; simpl; try reflexivity.
      apply IH.
Qed.

Lemma next_item_state_spec (M : MapDefinition) (cx cz : Z) (s : ItemState) :
  (s = Initial ->
     (block_has M Item cx cz -> next_item_state M cx cz s = Held)
     /\ (~ block_has M Item cx cz -> next_item_state M cx cz s = Initial))
  /\ (s = Held ->
     (block_has M Goal cx cz -> next_item_state M cx cz s = Dropped)
     /\ (~ block_has M Goal cx cz -> next_item_state M cx cz s = Held))
  /\ (s = Dropped -> next_item_state M cx cz s = Dropped).
Proof.
  unfold next_item_state. split; [|split].
  - intros ->. split; intro Hb.
    + apply (proj2 (block_has_b_spec _ _ _ _)) in Hb. rewrite Hb. reflexivity.
    + destruct (block_has_b M Item cx cz) eqn:E; [|reflexivity].
      exfalso. apply Hb. apply block_has_b_spec. exact E.
  - intros ->. split; intro Hb.
    + apply (proj2 (block_has_b_spec _ _ _ _)) in Hb. rewrite Hb. reflexivity.
    + destruct (block_has_b M Goal cx cz) eqn:E; [|reflexivity].
      exfalso. apply Hb. apply block_has_b_spec. exact E.
  - intros ->. reflexivity.
Qed.

Lemma interact_gemquest {F : Type} {ops : FloatOps F}
    (x z : F) (s s' : ItemState) :
  interact gemquest_map true x z s = Ret s' ->
  exists cx cz,
    Game_getMapFieldIndiciesByPosition x z = Ret (cx, cz)
    /\ s' = next_item_state gemquest_map cx cz s.
Proof.
  unfold interact. intro H.
  apply bind_Ret_inv in H. destruct H as ([cx cz] & Hidx & H).
  exists cx, cz. split; [exact Hidx|].
  exact (probe_fields_gemquest _ _ _ _ H).
Qed.

(** Around every cell that has its eight neighbours inside the grid the
    probe loops return. *)
Lemma probe_fields_gemquest_interior (cx cz : Z) (s : ItemState) :
  1 <= cx <= 13 -> 1 <= cz <= 9 ->
  probe_fields gemquest_map cx cz s = Ret (next_item_state gemquest_map cx cz s).
Proof.
  intros Hx Hz.
  case_range cx 1 13%nat; case_range cz 1 9%nat;
    destruct s; vm_compute; reflexivity.
Qed.

(** The border of the game's map is made of walls. *)
Lemma walkable_gemquest_interior (cx cz : Z) :
  walkable gemquest_map cx cz -> 1 <= cx <= 13 /\ 1 <= cz <= 9.
Proof.
  intros (f & E & Hf).
  destruct (field_of_cell_in_grid _ _ _ _ E) as [Hx Hz]. simpl in Hx, Hz.
  case_range cx 0 15%nat; case_range cz 0 11%nat;
    vm_compute in E; injection E as <-; simpl in Hf; lia.
Qed.

(** The update returns whenever its collision check and its interaction
    return. *)
Lemma Game_onUpdate_returns {F : Type} {ops : FloatOps F} (M : MapDefinition)
    (t : Z) (s : GameState F) (px pz ax az : F) (st : ItemState) :
  resolve_collision M (playerX (player s)) (playerZ (player s))
    (fst (candidate_accerlation t s)) (snd (candidate_accerlation t s))
  = Ret (px, pz, ax, az) ->
  interact M (inputAction (input s)) px pz (itemState s) = Ret st ->
  exists s', Game_onUpdate M t s = Ret s'.
Proof.
  unfold Game_onUpdate, candidate_accerlation.
  destruct (update_brightness (itemState s) (gameBrightness s)
              (of_int (t - lastUpdateTime s) / of_int 1000)%float)
    as [b destroy] eqn:Hb.
  cbn [fst].
  destruct (update_rotation s b
              (of_int (t - lastUpdateTime s) / of_int 1000)%float)
    as [[[rax ray] rx] ry].
  cbn [snd].
  destruct (added_accerlation (input s) ry
              (of_int (t - lastUpdateTime s) / of_int 1000)%float)
    as [addedX addedZ].
  cbn [fst snd].
  intros Hcol Hint. rewrite Hcol. cbn [bind]. rewrite Hint. cbn [bind].
  eexists. reflexivity.
Qed.

(** C1.  In the game's map, an update with the interact input active takes
    the item from [Initial] to [Held] exactly when a cell of the 3x3 block
    around the player's cell is an item cell, and from [Held] to [Dropped]
    exactly when a cell of that block is a goal cell; otherwise, and without
    the interact input, the item state stays.  An update whose collision
    check returns does return when it leaves the player on a cell that does
    not block (all the neighbours of such a cell are cells of the grid).
    Along every sequence of events the item state never goes back: the state
    at a later point of a run is the state at an earlier point or one that
    follows it. *)
Theorem item_state_machine (F : Type) (ops : FloatOps F) :
  (forall (t : Z) (s s' : GameState F),
     Game_onUpdate gemquest_map t s = Ret s' ->
     if inputAction (input s) then
       exists cx cz,
         Game_getMapFieldIndiciesByPosition
           (playerX (player s')) (playerZ (player s')) = Ret (cx, cz)
         /\ (itemState s = Initial ->
               (block_has gemquest_map Item cx cz -> itemState s' = Held)
               /\ (~ block_has gemquest_map Item cx cz -> itemState s' = Initial))
         /\ (itemState s = Held ->
               (block_has gemquest_map Goal cx cz -> itemState s' = Dropped)
               /\ (~ block_has gemquest_map Goal cx cz -> itemState s' = Held))
         /\ (itemState s = Dropped -> itemState s' = Dropped)
     else itemState s' = itemState s)
  /\ (forall (t : Z) (s : GameState F) (px pz ax az : F) (cx cz : Z),
        resolve_collision gemquest_map (playerX (player s)) (playerZ (player s))
          (fst (candidate_accerlation t s)) (snd (candidate_accerlation t s))
        = Ret (px, pz, ax, az) ->
        Game_getMapFieldIndiciesByPosition px pz = Ret (cx, cz) ->
        walkable gemquest_map cx cz ->
        exists s', Game_onUpdate gemquest_map t s = Ret s')
  /\ (forall (events1 events2 : list Event) (s s1 s2 : GameState F),
        glutMainLoop gemquest_map events1 s = Ret s1 ->
        glutMainLoop gemquest_map (events1 ++ events2) s = Ret s2 ->
        ItemState_value (itemState s) <= ItemState_value (itemState s1)
        /\ ItemState_value (itemState s1) <= ItemState_value (itemState s2)).
Proof.
  split; [|split].
  - intros t s s' H.
    apply Game_onUpdate_Ret_inv in H. destruct H as (_ & H & _).
    destruct (inputAction (input s)).
    + apply interact_gemquest in H. destruct H as (cx & cz & Hidx & H).
      exists cx, cz. split; [exact Hidx|].
      rewrite H. apply next_item_state_spec.
    + injection H as <-. reflexivity.
  - intros t s px pz ax az cx cz Hcol Hidx Hwalk.
    destruct (walkable_gemquest_interior cx cz Hwalk) as [Hx Hz].
    apply (Game_onUpdate_returns gemquest_map t s px pz ax az
             (if inputAction (input s)
              then next_item_state gemquest_map cx cz (itemState s)
              else itemState s) Hcol).
    unfold interact. destruct (inputAction (input s)); [|reflexivity].
    rewrite Hidx. cbn [bind].
    apply probe_fields_gemquest_interior; assumption.
  - intros events1 events2 s s1 s2 H1 H2.
    rewrite glutMainLoop_app, H1 in H2. cbn [bind] in H2.
    split.
    + exact (glutMainLoop_item_state_monotone _ _ _ _ H1).
    + exact (glutMainLoop_item_state_monotone _ _ _ _ H2).
Qed.

Lemma item_state_machine_witness :
  exists s s' : GameState Q,
    play (window_ready ++ walk_to_item ++ [KeyboardDown "e"]) = Ret s
    /\ Game_onUpdate (ops := Qfloat taylor_libm) gemquest_map 5516 s = Ret s'
    /\ itemState s = Initial
    /\ block_has gemquest_map Item 12 8
    /\ itemState s' = Held.
Proof.
  let r := eval vm_compute in
             (play (window_ready ++ walk_to_item ++ [KeyboardDown "e"])) in
  match r with
  | Ret ?s =>
      exists s;
      let r' := eval vm_compute in
                  (Game_onUpdate (ops := Qfloat taylor_libm) gemquest_map 5516 s) in
      match r' with Ret ?s' => exists s' end
  end.
  split; [vm_compute; reflexivity|].
  match goal with
  | |- ?U = Ret ?s' /\ _ =>
      assert (Hupdate : U = Ret s') by (vm_compute; reflexivity)
  end.
  split; [exact Hupdate|].
  split; [reflexivity|].
  assert (Hblock : block_has gemquest_map Item 12 8).
  { exists 12, 9. split; [unfold in_block; lia | reflexivity]. }
  split; [exact Hblock|].
  pose proof (proj1 (item_state_machine Q (Qfloat taylor_libm)) 5516 _ _
                Hupdate) as Hstep.
  cbn [inputAction input] in Hstep.
  destruct Hstep as (cx & cz & Hidx & Hinitial & _).
  vm_compute in Hidx. injection Hidx as <- <-.
  exact (proj1 (Hinitial eq_refl) Hblock).
Defined.

(* ================================================================== *)
(** * The brightness *)
(* ================================================================== *)

Lemma Qle_bool_false (x y : Q) : Qle_bool x y = false -> (y < x)%Q.
Proof.
  intro H. apply Qnot_le_lt. intro Hle.
  apply Qle_bool_iff in Hle. congruence.
Qed.

(** The fade in rational arithmetic. *)
Lemma update_brightness_Q (L : Libm) (s : ItemState) (b dt : Q) :
  match s with
  | Initial =>
      ((b < 1)%Q -> (b + (1 # 2) * dt <= 1)%Q ->
         (fst (update_brightness (ops := Qfloat L) s b dt) == b + (1 # 2) * dt)%Q)
      /\ ((b < 1)%Q -> (1 <= b + (1 # 2) * dt)%Q ->
         (fst (update_brightness (ops := Qfloat L) s b dt) == 1)%Q)
      /\ ((1 <= b)%Q -> fst (update_brightness (ops := Qfloat L) s b dt) = b)
  | Held => fst (update_brightness (ops := Qfloat L) s b dt) = b
  | Dropped =>
      ((0 < b)%Q ->
         (fst (update_brightness (ops := Qfloat L) s b dt) == b - (1 # 2) * dt)%Q)
      /\ ((b <= 0)%Q -> fst (update_brightness (ops := Qfloat L) s b dt) = b)
  end.
Proof.
  destruct s; unfold update_brightness, MIN, FADEOUT_SPEED;
    cbn [ItemState_eqb ItemState_value Z.eqb Pos.eqb andb fltb fconst of_int
         fadd fsub fmul Qfloat].
  - change (Qred 1) with 1%Q. change (Qred (5 # 10)) with (1 # 2)%Q.
    change (inject_Z 1) with 1%Q.
    destruct (Qle_bool 1 b) eqn:Hb; cbn [negb fst].
    + apply Qle_bool_iff in Hb.
      split; [|split]; intros; [exfalso; lra | exfalso; lra | reflexivity].
    + apply Qle_bool_false in Hb.
      destruct (Qle_bool (Qred (b + Qred ((1 # 2) * dt))) 1) eqn:Hx;
        cbn [negb fst].
      * apply Qle_bool_iff in Hx. rewrite !Qred_correct in Hx.
        split; [|split]; intros; rewrite ?Qred_correct;
          [reflexivity | lra | exfalso; lra].
      * apply Qle_bool_false in Hx. rewrite !Qred_correct in Hx.
        split; [|split]; intros;
          [exfalso; lra | reflexivity | exfalso; lra].
  - reflexivity.
  - change (Qred 0) with 0%Q. change (Qred (5 # 10)) with (1 # 2)%Q.
    destruct (Qle_bool b 0) eqn:Hb; cbn [negb fst].
    + apply Qle_bool_iff in Hb.
      split; intros; [exfalso; lra | reflexivity].
    + apply Qle_bool_false in Hb.
      split; intros; rewrite ?Qred_correct; [reflexivity | exfalso; lra].
Qed.

Lemma Game_onLoad_Ret_inv {F : Type} {ops : FloatOps F} (M : MapDefinition)
    (t : Z) (s s' : GameState F) :
  Game_onLoad M t s = Ret s' ->
  gameBrightness s' = gameBrightness s
  /\ itemState s' = itemState s
  /\ lastUpdateTime s' = t.
Proof.
  unfold Game_onLoad, Common_terminate.
  destruct (isLoaded s); [discriminate|].
  intro H. apply bind_Ret_inv in H. destruct H as (size & _ & H).
  destruct (negb (LENGTHOF (map M) =? size)); [discriminate|].
  apply bind_Ret_inv in H. destruct H as (v & _ & H).
  destruct (Game_getMapFieldPositionByIndicies (spawnX v) (spawnZ v)) as [px pz].
  destruct (negb (spawnPointFound v)); [discriminate|].
  injection H as <-. auto.
Qed.

(** The callbacks other than the update leave the brightness, the item state
    and the time of the last update alone. *)
Lemma dispatch_other_frame {F : Type} {ops : FloatOps F} (M : MapDefinition)
    (e : Event) (s s' : GameState F) :
  (forall t, e <> Update t) ->
  dispatch M e s = Ret s' ->
  gameBrightness s' = gameBrightness s
  /\ itemState s' = itemState s
  /\ lastUpdateTime s' = lastUpdateTime s.
Proof.
  intros Hne H. destruct e as [key|key|mx mz|w h|t]; simpl in H;
    try (injection H as <-).
  - unfold Game_onKeyboardDown, Game_onDestroy.
    repeat match goal with
           | |- context [if ?b then _ else _] => destruct b
           end; simpl; auto.
  - unfold Game_onKeyboardUp.
    repeat match goal with
           | |- context [if ?b then _ else _] => destruct b
           end; simpl; auto.
  - simpl. auto.
  - simpl. auto.
  - exfalso. exact (Hne t eq_refl).
Qed.

Lemma deltaSeconds_Q (t last : Z) :
  (Qred (inject_Z (t - last) / inject_Z 1000)
   == (inject_Z t - inject_Z last) / 1000)%Q.
Proof.
  rewrite Qred_correct. unfold Z.sub.
  rewrite inject_Z_plus, inject_Z_opp. reflexivity.
Qed.

(** What holds of the brightness along a run that was loaded at time [t0]:
    it is at most 1; it is at least 0 unless the item was dropped; and while
    the item is at its initial place it is the elapsed time over two
    seconds, capped at 1. *)
Definition fade_invariant (t0 : Z) (s : GameState Q) : Prop :=
  (gameBrightness s <= 1)%Q
  /\ (itemState s <> Dropped -> (0 <= gameBrightness s)%Q)
  /\ (itemState s = Initial ->
        (0 <= inject_Z (lastUpdateTime s) - inject_Z t0)%Q
        /\ ((inject_Z (lastUpdateTime s) - inject_Z t0 < 2000)%Q ->
              (gameBrightness s
               == (inject_Z (lastUpdateTime s) - inject_Z t0) / 2000)%Q)
        /\ ((2000 <= inject_Z (lastUpdateTime s) - inject_Z t0)%Q ->
              (gameBrightness s == 1)%Q)).

Lemma Game_onUpdate_fade_invariant (L : Libm) (M : MapDefinition)
    (t0 t : Z) (s s' : GameState Q) :
  lastUpdateTime s <= t ->
  fade_invariant t0 s ->
  Game_onUpdate (ops := Qfloat L) M t s = Ret s' ->
  fade_invariant t0 s'.
Proof.
  intros Ht (Hle & Hge & Hinit) H.
  apply Game_onUpdate_Ret_inv in H.
  destruct H as (Hb & Hint & _ & _ & Hlast & _ & _).
  apply interact_monotone in Hint.
  cbn [of_int fdiv Qfloat] in Hb.
  pose proof (deltaSeconds_Q t (lastUpdateTime s)) as Hdt.
  set (dt := Qred (inject_Z (t - lastUpdateTime s) / inject_Z 1000)) in *.
  assert (Hdt0 : (0 <= dt)%Q).
  { rewrite Hdt. rewrite Zle_Qle in Ht. apply Qle_shift_div_l; lra. }
  pose proof (update_brightness_Q L (itemState s) (gameBrightness s) dt) as Hu.
  rewrite <- Hb in Hu.
  assert (Hdiv : forall x : Q, (x / 2000 == x * (1 # 2000))%Q)
    by (intro x; reflexivity).
  assert (Hdt' : (dt == (inject_Z t - inject_Z (lastUpdateTime s)) * (1 # 1000))%Q)
    by (rewrite Hdt; reflexivity).
  unfold fade_invariant. rewrite Hlast.
  destruct (itemState s) eqn:Hs.
  - (* Initial *)
    destruct Hu as (Hu1 & Hu2 & Hu3).
    destruct (Hinit eq_refl) as (He0 & Hlin & Hcap).
    assert (Hb0 : (0 <= gameBrightness s)%Q) by (apply Hge; discriminate).
    destruct (Qlt_le_dec (gameBrightness s) 1) as [Hlt|Hone].
    + assert (Hel : (inject_Z (lastUpdateTime s) - inject_Z t0 < 2000)%Q).
      { destruct (Qlt_le_dec (inject_Z (lastUpdateTime s) - inject_Z t0) 2000)
          as [Hl|Hg]; [exact Hl|]. specialize (Hcap Hg). lra. }
      specialize (Hlin Hel). rewrite Hdiv in Hlin.
      destruct (Qlt_le_dec (gameBrightness s + (1 # 2) * dt) 1) as [Hlt2|Hge2].
      * assert (Hb' := Hu1 Hlt (Qlt_le_weak _ _ Hlt2)).
        split; [lra|]. split; [intros _; lra|]. intros _.
        split; [lra|]. split; intro; [rewrite Hdiv; lra | exfalso; lra].
      * assert (Hb' := Hu2 Hlt Hge2).
        split; [lra|]. split; [intros _; lra|]. intros _.
        split; [lra|]. split; intro; [rewrite Hdiv; lra | lra].
    + rewrite (Hu3 Hone).
      assert (Hel : (2000 <= inject_Z (lastUpdateTime s) - inject_Z t0)%Q).
      { destruct (Qlt_le_dec (inject_Z (lastUpdateTime s) - inject_Z t0) 2000)
          as [Hl|Hg]; [|exact Hg]. specialize (Hlin Hl). rewrite Hdiv in Hlin.
        lra. }
      specialize (Hcap Hel).
      split; [lra|]. split; [intros _; lra|]. intros _.
      split; [lra|]. split; intro; [exfalso; lra | lra].
  - (* Held *)
    rewrite Hu.
    split; [exact Hle|]. split; [intros _; apply Hge; discriminate|].
    intro Hs'. rewrite Hs' in Hint. simpl in Hint. lia.
  - (* Dropped *)
    simpl in Hint.
    assert (Hs' : itemState s' = Dropped)
      by (destruct (itemState s'); simpl in Hint; try lia; reflexivity).
    rewrite Hs'.
    split; [|split; [congruence | discriminate]].
    destruct Hu as (Hu1 & Hu2).
    destruct (Qlt_le_dec 0 (gameBrightness s)) as [Hpos|Hneg].
    + rewrite (Hu1 Hpos). lra.
    + rewrite (Hu2 Hneg). exact Hle.
Qed.

(** The frame of a callback other than the update, read off [H]. *)
Ltac other_frame H Hb Hs Hl :=
  match type of H with
  | dispatch ?M ?e ?s = Ret ?s' =>
      let Hne := fresh "Hne" in
      assert (Hne : forall t, e <> Update t) by (intros ?; discriminate);
      destruct (dispatch_other_frame M e s s' Hne H) as (Hb & Hs & Hl)
  end.

Lemma dispatch_fade_invariant (L : Libm) (M : MapDefinition) (t0 : Z)
    (e : Event) (s s' : GameState Q) :
  time_ordered (lastUpdateTime s) [e] = true ->
  fade_invariant t0 s ->
  dispatch (ops := Qfloat L) M e s = Ret s' ->
  fade_invariant t0 s' /\ time_ordered (lastUpdateTime s') [e] = true.
Proof.
  intros Ht Hinv H.
  destruct e as [key|key|mx mz|w h|t];
    try (other_frame H Hb Hs Hl;
         split; [|reflexivity];
         unfold fade_invariant in *; rewrite Hb, Hs, Hl; exact Hinv).
  cbn [time_ordered] in Ht. rewrite andb_true_r in Ht. apply Z.leb_le in Ht.
  cbn [dispatch] in H. split.
  - exact (Game_onUpdate_fade_invariant L M t0 t s s' Ht Hinv H).
  - apply Game_onUpdate_Ret_inv in H. destruct H as (_ & _ & _ & _ & Hl & _ & _).
    cbn [time_ordered]. rewrite Hl, Z.leb_refl. reflexivity.
Qed.

Lemma glutMainLoop_fade_invariant (L : Libm) (M : MapDefinition) (t0 : Z)
    (events : list Event) :
  forall s s' : GameState Q,
    time_ordered (lastUpdateTime s) events = true ->
    fade_invariant t0 s ->
    glutMainLoop (ops := Qfloat L) M events s = Ret s' ->
    fade_invariant t0 s'.
Proof.
  induction events as [|e events IH]; intros s s' Ht Hinv H; simpl in H.
  - injection H as <-. exact Hinv.
  - destruct (mainLoopLeft s).
    + injection H as <-. exact Hinv.
    + apply bind_Ret_inv in H. destruct H as (s1 & H1 & H).
      apply (IH s1 s'); [| |exact H].
      * destruct e as [key|key|mx mz|w h|t]; cbn [time_ordered] in Ht;
          try (other_frame H1 Hb Hs Hl; rewrite Hl; exact Ht).
        apply andb_true_iff in Ht. destruct Ht as [_ Ht].
        cbn [dispatch] in H1. apply Game_onUpdate_Ret_inv in H1.
        destruct H1 as (_ & _ & _ & _ & Hl & _ & _). rewrite Hl. exact Ht.
      * apply (dispatch_fade_invariant L M t0 e s s1); [|exact Hinv|exact H1].
        destruct e; cbn [time_ordered] in Ht |- *; try reflexivity.
        apply andb_true_iff in Ht. destruct Ht as [Ht _].
        rewrite Ht. reflexivity.
Qed.

(** The invariant along a run of [main]. *)
Lemma main_fade_invariant (L : Libm) (M : MapDefinition) (t0 : Z)
    (events : list Event) (s : GameState Q) :
  time_ordered t0 events = true ->
  main (ops := Qfloat L) M t0 events = Ret s ->
  fade_invariant t0 s.
Proof.
  intros Ht H. unfold main in H.
  apply bind_Ret_inv in H. destruct H as (s0 & Hload & H).
  apply Game_onLoad_Ret_inv in Hload. destruct Hload as (Hb & Hs & Hl).
  apply (glutMainLoop_fade_invariant L M t0 events s0 s); [| |exact H].
  - rewrite Hl. exact Ht.
  - unfold fade_invariant. rewrite Hb, Hs, Hl. cbn.
    split; [lra|]. split; [intros _; lra|]. intros _.
    split; [lra|]. split; intro.
    + change ((inject_Z t0 - inject_Z t0) / 2000)%Q
        with ((inject_Z t0 - inject_Z t0) * (1 # 2000))%Q. lra.
    + exfalso. lra.
Qed.

(** C3, as the code has it.  Along every run whose update times never go
    back (every [deltaSeconds] is then at least 0), the brightness never
    exceeds 1; it is at least 0 as long as the item is not dropped; and once
    more than two seconds have passed since loading with the item still at
    its initial place, the brightness is 1 (and stays 1 as long as the item
    stays there).  The [deltaSeconds] of the updates add up to the time
    between loading and the last update, [lastUpdateTime s - t0]
    milliseconds, a whole number: more than two seconds are at least 2001
    of them.  At 2000 ms exactly the exact sum of the increments is 1, and
    whether the rounded sum of the code has reached 1 depends on the
    updates: see [fade_in_binary32_after_two_seconds] below. *)
Theorem brightness_bounds (L : Libm) (M : MapDefinition) (t0 : Z)
    (events : list Event) (s : GameState Q) :
  time_ordered t0 events = true ->
  main (ops := Qfloat L) M t0 events = Ret s ->
  (gameBrightness s <= 1)%Q
  /\ (itemState s <> Dropped -> (0 <= gameBrightness s)%Q)
  /\ (itemState s = Initial -> t0 + 2001 <= lastUpdateTime s ->
        (gameBrightness s == 1)%Q).
Proof.
  intros Ht H.
  destruct (main_fade_invariant L M t0 events s Ht H) as (Hle & Hge & Hinit).
  split; [exact Hle|]. split; [exact Hge|].
  intros Hs Hlate. destruct (Hinit Hs) as (_ & _ & Hcap).
  apply Hcap. rewrite Zle_Qle, inject_Z_plus in Hlate.
  change (inject_Z 2001) with 2001%Q in Hlate. lra.
Qed.

Lemma brightness_bounds_witness :
  exists s : GameState Q,
    play (window_ready ++ updates_every_30ms 0 67) = Ret s
    /\ (gameBrightness s <= 1)%Q
    /\ (itemState s <> Dropped -> (0 <= gameBrightness s)%Q)
    /\ (itemState s = Initial -> 0 + 2001 <= lastUpdateTime s ->
          (gameBrightness s == 1)%Q).
Proof.
  let r := eval vm_compute in (play (window_ready ++ updates_every_30ms 0 67)) in
  match r with
  | Ret ?s =>
      exists s;
      assert (Hrun : main (ops := Qfloat taylor_libm) gemquest_map 0
                       (window_ready ++ updates_every_30ms 0 67) = Ret s)
        by (vm_compute; reflexivity);
      assert (Ht : time_ordered 0 (window_ready ++ updates_every_30ms 0 67)
                   = true) by (vm_compute; reflexivity);
      split;
      [ exact Hrun
      | exact (brightness_bounds taylor_libm gemquest_map 0
                 (window_ready ++ updates_every_30ms 0 67) s Ht Hrun) ]
  end.
Defined.

(** C3 as stated fails: in a play of the game the fade-out after the drop
    takes the brightness below 0. *)
Lemma brightness_below_zero_after_drop :
  time_ordered 0 full_play = true
  /\ exists s : GameState Q,
       play full_play = Ret s
       /\ itemState s = Dropped
       /\ mainLoopLeft s = false
       /\ gameBrightness s = (-1 # 200)%Q
       /\ (gameBrightness s < 0)%Q.
Proof.
  split; [vm_compute; reflexivity|].
  eexists. split; [vm_compute; reflexivity|].
  repeat split.
Qed.

(** What the rounding of binary32 does to the fade-in.  Two seconds after
    loading the exact sum of the increments is 1; the rounded sum of 200
    updates 10 ms apart is 13 units in the last place below 1, so the
    brightness has not reached 1 with the item still at its initial place. *)
Lemma fade_in_binary32_after_two_seconds :
  time_ordered 0 (window_ready ++ updates_every_10ms 0 200) = true
  /\ exists s : GameState binary32,
       play32 (window_ready ++ updates_every_10ms 0 200) = Ret s
       /\ itemState s = Initial
       /\ lastUpdateTime s = 0 + 2000
       /\ gameBrightness s = SpecFloat.S754_finite false 16777203 (-24)
       /\ SpecFloat.SFltb (gameBrightness s) (B32_of_int 1) = true.
Proof.
  split; [vm_compute; reflexivity|].
  eexists. split; [vm_compute; reflexivity|].
  repeat split.
Qed.

(** The update after it, 2010 ms after loading, takes the brightness to 1. *)
Lemma fade_in_binary32_complete :
  exists s : GameState binary32,
    play32 (window_ready ++ updates_every_10ms 0 201) = Ret s
    /\ itemState s = Initial
    /\ lastUpdateTime s = 0 + 2010
    /\ gameBrightness s = B32_of_int 1.
Proof.
  eexists. split; [vm_compute; reflexivity|].
  repeat split.
Qed.

(** Once the main loop is left it stays left. *)
Lemma dispatch_mainLoopLeft {F : Type} {ops : FloatOps F} (M : MapDefinition)
    (e : Event) (s s' : GameState F) :
  dispatch M e s = Ret s' -> mainLoopLeft s = true -> mainLoopLeft s' = true.
Proof.
  destruct e as [key|key|mx mz|w h|t]; simpl; intros H Hleft;
    try (injection H as <-).
  - unfold Game_onKeyboardDown, Game_onDestroy.
    repeat match goal with
           | |- context [if ?b then _ else _] => destruct b
           end; simpl; auto.
  - unfold Game_onKeyboardUp.
    repeat match goal with
           | |- context [if ?b then _ else _] => destruct b
           end; simpl; auto.
  - exact Hleft.
  - exact Hleft.
  - apply Game_onUpdate_Ret_inv in H.
    destruct H as (_ & _ & _ & _ & _ & _ & H). exact (H Hleft).
Qed.

Lemma last_cons_default {A : Type} (l : list A) :
  forall x d d' : A, List.last (x :: l) d = List.last (x :: l) d'.
Proof.
  induction l as [|y l IH]; intros x d d'; [reflexivity|].
  change (List.last (y :: l) d = List.last (y :: l) d'). apply IH.
Qed.

(** A run that has not left the main loop has dispatched all its events:
    the time of its last update is the last of the update times. *)
Lemma glutMainLoop_lastUpdateTime {F : Type} {ops : FloatOps F}
    (M : MapDefinition) (events : list Event) :
  forall s s' : GameState F,
    glutMainLoop M events s = Ret s' ->
    mainLoopLeft s' = false ->
    lastUpdateTime s' = List.last (update_times events) (lastUpdateTime s).
Proof.
  induction events as [|e events IH]; intros s s' H Hleft; simpl in H.
  - injection H as <-. reflexivity.
  - destruct (mainLoopLeft s) eqn:Hs.
    + injection H as <-. congruence.
    + apply bind_Ret_inv in H. destruct H as (s1 & H1 & H).
      rewrite (IH s1 s' H Hleft).
      destruct e as [key|key|mx mz|w h|t];
        try (other_frame H1 Hb Hst Hl; cbn [update_times]; rewrite Hl;
             reflexivity).
      cbn [dispatch] in H1. apply Game_onUpdate_Ret_inv in H1.
      destruct H1 as (_ & _ & _ & _ & Hl & _ & _). rewrite Hl.
      cbn [update_times].
      destruct (update_times events) as [|z l]; [reflexivity|].
      change (List.last (z :: l) t = List.last (z :: l) (lastUpdateTime s)).
      apply last_cons_default.
Qed.

(** The order of the update times is a property of the list of times. *)
Fixpoint times_ordered (last : Z) (times : list Z) : bool :=
  match times with
  | [] => true
  | t :: times' => (last <=? t) && times_ordered t times'
  end.

Lemma time_ordered_update_times (events : list Event) :
  forall last, time_ordered last events = times_ordered last (update_times events).
Proof.
  induction events as [|e events IH]; intro last; [reflexivity|].
  destruct e; simpl; rewrite ?IH; reflexivity.
Qed.

(** The times [t0 + 30], [t0 + 60], ..., [t0 + 30 * n]. *)
Lemma every_30ms_ordered (n : nat) :
  forall (t0 : Z) (k : nat),
    times_ordered (t0 + 30 * Z.of_nat k)
      (List.map (fun i => t0 + 30 * Z.of_nat i) (seq (S k) n)) = true.
Proof.
  induction n as [|n IH]; intros t0 k; [reflexivity|].
  cbn [seq List.map times_ordered].
  rewrite IH, andb_true_r. apply Z.leb_le. lia.
Qed.

Lemma every_30ms_last (n : nat) :
  forall (t0 : Z) (k : nat) (d : Z),
    List.last (List.map (fun i => t0 + 30 * Z.of_nat i) (seq (S k) (S n))) d
    = t0 + 30 * Z.of_nat (S k + n).
Proof.
  induction n as [|n IH]; intros t0 k d.
  - replace (S k + 0)%nat with (S k) by lia. reflexivity.
  - replace (S k + S n)%nat with (S (S k) + n)%nat by lia.
    rewrite <- (IH t0 (S k) d). reflexivity.
Qed.

(** The fade-in as a function of the number of updates, 30 milliseconds
    apart, since loading. *)
Lemma fade_in_by_elapsed_time (L : Libm) (M : MapDefinition) (t0 : Z)
    (events : list Event) (s : GameState Q) :
  time_ordered t0 events = true ->
  main (ops := Qfloat L) M t0 events = Ret s ->
  itemState s = Initial ->
  (lastUpdateTime s - t0 < 2000 ->
     (gameBrightness s == inject_Z (lastUpdateTime s - t0) / 2000)%Q)
  /\ (2000 <= lastUpdateTime s - t0 -> (gameBrightness s == 1)%Q).
Proof.
  intros Ht H Hs.
  destruct (main_fade_invariant L M t0 events s Ht H) as (_ & _ & Hinit).
  destruct (Hinit Hs) as (_ & Hlin & Hcap).
  assert (E : (inject_Z (lastUpdateTime s - t0)
               == inject_Z (lastUpdateTime s) - inject_Z t0)%Q).
  { unfold Z.sub. rewrite inject_Z_plus, inject_Z_opp. reflexivity. }
  split; intro Hlt.
  - rewrite E. apply Hlin. rewrite <- E.
    rewrite Zlt_Qlt in Hlt. exact Hlt.
  - apply Hcap. rewrite <- E. rewrite Zle_Qle in Hlt. exact Hlt.
Qed.

(** C9, as the code has it.  With the updates 30 milliseconds apart and the
    item at its initial place, the brightness after [n] updates is
    [0.015 * n] for [n < 67] (0.51 after 34 updates) and 1 from the 67th
    update on. *)
Theorem fade_in_after_updates (L : Libm) (M : MapDefinition) (t0 : Z)
    (n : nat) (events : list Event) (s : GameState Q) :
  update_times events = List.map (fun k => t0 + 30 * Z.of_nat k) (seq 1 n) ->
  main (ops := Qfloat L) M t0 events = Ret s ->
  mainLoopLeft s = false ->
  itemState s = Initial ->
  ((n < 67)%nat ->
     (gameBrightness s == (15 # 1000) * inject_Z (Z.of_nat n))%Q)
  /\ ((67 <= n)%nat -> (gameBrightness s == 1)%Q).
Proof.
  intros Htimes H Hleft Hs.
  assert (Ht : time_ordered t0 events = true).
  { rewrite time_ordered_update_times, Htimes.
    replace t0 with (t0 + 30 * Z.of_nat 0) at 1 by (simpl; lia).
    apply every_30ms_ordered. }
  assert (Hlast : lastUpdateTime s - t0 = 30 * Z.of_nat n).
  { pose proof H as H'. unfold main in H'.
    apply bind_Ret_inv in H'. destruct H' as (s0 & Hload & Hloop).
    apply Game_onLoad_Ret_inv in Hload. destruct Hload as (_ & _ & Hl0).
    rewrite (glutMainLoop_lastUpdateTime M events s0 s Hloop Hleft).
    rewrite Htimes, Hl0.
    destruct n as [|n]; [simpl; lia|].
    rewrite every_30ms_last. lia. }
  destruct (fade_in_by_elapsed_time L M t0 events s Ht H Hs) as (Hlin & Hcap).
  rewrite Hlast in Hlin, Hcap.
  split; intro Hn.
  - rewrite Hlin by lia. rewrite inject_Z_mult.
    change (inject_Z 30) with 30%Q.
    change (30 * inject_Z (Z.of_nat n) / 2000)%Q
      with (30 * inject_Z (Z.of_nat n) * (1 # 2000))%Q.
    set (q := inject_Z (Z.of_nat n)). lra.
  - apply Hcap. lia.
Qed.

Lemma fade_in_after_updates_witness :
  exists s : GameState Q,
    play (updates_every_30ms 0 34) = Ret s
    /\ ((34 < 67)%nat ->
          (gameBrightness s == (15 # 1000) * inject_Z (Z.of_nat 34))%Q)
    /\ ((67 <= 34)%nat -> (gameBrightness s == 1)%Q).
Proof.
  let r := eval vm_compute in (play (updates_every_30ms 0 34)) in
  match r with
  | Ret ?s =>
      exists s;
      assert (Hrun : main (ops := Qfloat taylor_libm) gemquest_map 0
                       (updates_every_30ms 0 34) = Ret s)
        by (vm_compute; reflexivity);
      split;
      [ exact Hrun
      | exact (fade_in_after_updates taylor_libm gemquest_map 0 34
                 (updates_every_30ms 0 34) s eq_refl Hrun eq_refl eq_refl) ]
  end.
Defined.

(** C9 as stated fails: after 34 updates, 30 milliseconds apart, the
    brightness is 0.51, not 1. *)
Lemma brightness_after_34_updates :
  exists s : GameState Q,
    play (updates_every_30ms 0 34) = Ret s
    /\ itemState s = Initial
    /\ lastUpdateTime s = 1020
    /\ gameBrightness s = (51 # 100)%Q
    /\ (gameBrightness s < 1)%Q.
Proof.
  eexists. split; [vm_compute; reflexivity|].
  repeat split.
Qed.

(* ================================================================== *)
(** * The collision check *)
(* ================================================================== *)

Lemma Qroundf_le (x y : Q) : (x <= y)%Q -> Qroundf x <= Qroundf y.
Proof.
  intro Hxy. unfold Qroundf.
  destruct (Qle_bool 0 x) eqn:Hx; destruct (Qle_bool 0 y) eqn:Hy.
  - apply Qfloor_resp_le. lra.
  - apply Qle_bool_iff in Hx. apply Qle_bool_false in Hy. lra.
  - apply Qle_bool_false in Hx. apply Qle_bool_iff in Hy.
    apply Z.le_trans with 0.
    + rewrite <- (Qceiling_Z 0). apply Qceiling_resp_le.
      change (inject_Z 0) with 0%Q. lra.
    + rewrite <- (Qfloor_Z 0). apply Qfloor_resp_le.
      change (inject_Z 0) with 0%Q. lra.
  - apply Qceiling_resp_le. lra.
Qed.

Lemma Qfloat_indices (L : Libm) (x z : Q) (ix iz : Z) :
  Game_getMapFieldIndiciesByPosition (ops := Qfloat L) x z = Ret (ix, iz) ->
  ix = Qroundf x /\ iz = Qroundf z.
Proof.
  unfold Game_getMapFieldIndiciesByPosition, float_to_int.
  cbn [roundf trunc Qfloat]. rewrite !Qtrunc_inject_Z.
  intro H. apply bind_Ret_inv in H. destruct H as (a & Ha & H).
  apply bind_Ret_inv in H. destruct H as (b & Hb & H).
  apply int_result_Ret_inv in Ha. apply int_result_Ret_inv in Hb.
  injection H as <- <-. tauto.
Qed.

(** A step back and the step forward cannot both round to an index that the
    starting point does not round to. *)
Lemma Qroundf_between (p v : Q) (w : Z) :
  Qroundf (Qred (p + v)) = w ->
  Qroundf (Qred (p + Qred (- v))) = w ->
  Qroundf p = w.
Proof.
  intros Hfwd Hback.
  assert (Ef : (Qred (p + v) == p + v)%Q) by apply Qred_correct.
  assert (Eb : (Qred (p + Qred (- v)) == p - v)%Q)
    by (rewrite !Qred_correct; reflexivity).
  destruct (Qlt_le_dec v 0) as [Hneg|Hpos].
  - assert (H1 : Qroundf (Qred (p + v)) <= Qroundf p)
      by (apply Qroundf_le; lra).
    assert (H2 : Qroundf p <= Qroundf (Qred (p + Qred (- v))))
      by (apply Qroundf_le; lra).
    lia.
  - assert (H1 : Qroundf p <= Qroundf (Qred (p + v)))
      by (apply Qroundf_le; lra).
    assert (H2 : Qroundf (Qred (p + Qred (- v))) <= Qroundf p)
      by (apply Qroundf_le; lra).
    lia.
Qed.

(** The two branches of the collision check, for every arithmetic. *)
Lemma resolve_collision_Ret_inv {F : Type} {ops : FloatOps F}
    (M : MapDefinition) (px pz ax az : F) (r : F * F * F * F) :
  resolve_collision M px pz ax az = Ret r ->
  exists f,
    Game_getMapFieldByPosition M (px + ax)%float (pz + az)%float = Ret f
    /\ (Field_value f <= 0 ->
          r = ((px + ax)%float, (pz + az)%float, ax, az))
    /\ (0 < Field_value f ->
          r = ((px + - ax)%float, (pz + - az)%float, (- ax)%float, (- az)%float)).
Proof.
  unfold resolve_collision. intro H.
  apply bind_Ret_inv in H. destruct H as (f & Hf & H).
  exists f. split; [exact Hf|].
  destruct (Z.leb_spec (Field_value f) 0) as [Hle|Hgt];
    injection H as <-; split; intro; try reflexivity; lia.
Qed.

(** C2, as the code has it.  The update looks up the field at the candidate
    position (position plus displacement).  If the field's value is at most
    0 the candidate is committed and the displacement kept; otherwise the
    displacement is inverted and applied once to the old position.  In the
    second case the committed position does not round to the cell that was
    moved toward, provided the old position does not round to that cell. *)
Theorem collision_resolution (L : Libm) (M : MapDefinition) (t : Z)
    (s s' : GameState Q) :
  Game_onUpdate (ops := Qfloat L) M t s = Ret s' ->
  exists f,
    Game_getMapFieldByPosition (ops := Qfloat L) M
      (Qred (playerX (player s) + fst (candidate_accerlation (ops := Qfloat L) t s)))
      (Qred (playerZ (player s) + snd (candidate_accerlation (ops := Qfloat L) t s)))
    = Ret f
    /\ (Field_value f <= 0 ->
          playerX (player s')
          = Qred (playerX (player s) + fst (candidate_accerlation (ops := Qfloat L) t s))
          /\ playerZ (player s')
             = Qred (playerZ (player s) + snd (candidate_accerlation (ops := Qfloat L) t s))
          /\ playerAccerlationX (player s')
             = fst (candidate_accerlation (ops := Qfloat L) t s)
          /\ playerAccerlationZ (player s')
             = snd (candidate_accerlation (ops := Qfloat L) t s))
    /\ (0 < Field_value f ->
          playerAccerlationX (player s')
          = Qred (- fst (candidate_accerlation (ops := Qfloat L) t s))
          /\ playerAccerlationZ (player s')
             = Qred (- snd (candidate_accerlation (ops := Qfloat L) t s))
          /\ playerX (player s')
             = Qred (playerX (player s) + playerAccerlationX (player s'))
          /\ playerZ (player s')
             = Qred (playerZ (player s) + playerAccerlationZ (player s'))
          /\ forall cell toward : Z * Z,
               Game_getMapFieldIndiciesByPosition (ops := Qfloat L)
                 (playerX (player s)) (playerZ (player s)) = Ret cell ->
               Game_getMapFieldIndiciesByPosition (ops := Qfloat L)
                 (Qred (playerX (player s)
                        + fst (candidate_accerlation (ops := Qfloat L) t s)))
                 (Qred (playerZ (player s)
                        + snd (candidate_accerlation (ops := Qfloat L) t s)))
               = Ret toward ->
               cell <> toward ->
               Game_getMapFieldIndiciesByPosition (ops := Qfloat L)
                 (playerX (player s')) (playerZ (player s')) <> Ret toward).
Proof.
  intro H. apply Game_onUpdate_Ret_inv in H.
  destruct H as (_ & _ & Hcol & _).
  set (ax := fst (candidate_accerlation (ops := Qfloat L) t s)) in *.
  set (az := snd (candidate_accerlation (ops := Qfloat L) t s)) in *.
  apply resolve_collision_Ret_inv in Hcol.
  destruct Hcol as (f & Hf & Hfree & Hsolid).
  cbn [fadd fneg Qfloat] in Hf, Hfree, Hsolid.
  exists f. split; [exact Hf|]. split.
  - intro Hle. specialize (Hfree Hle). injection Hfree as -> -> -> ->. auto.
  - intro Hgt. specialize (Hsolid Hgt). injection Hsolid as Hx Hz Hax Haz.
    rewrite Hax, Haz. repeat split; try assumption.
    intros [cx cz] [wx wz] Hcell Htoward Hne Hnew.
    apply Qfloat_indices in Hcell, Htoward, Hnew.
    destruct Hcell as [-> ->]. destruct Htoward as [Hwx Hwz].
    destruct Hnew as [Hnx Hnz]. rewrite Hx in Hnx. rewrite Hz in Hnz.
    apply Hne. f_equal.
    + apply (Qroundf_between _ ax); auto.
    + apply (Qroundf_between _ az); auto.
Qed.

Lemma collision_resolution_witness :
  exists s s' : GameState Q,
    play before_the_wall = Ret s
    /\ Game_onUpdate (ops := Qfloat taylor_libm) gemquest_map 3633 s = Ret s'
    /\ Game_getMapFieldIndiciesByPosition (ops := Qfloat taylor_libm)
         (playerX (player s)) (playerZ (player s)) = Ret (7, 7)
    /\ Game_getMapFieldIndiciesByPosition (ops := Qfloat taylor_libm)
         (Qred (playerX (player s)
                + fst (candidate_accerlation (ops := Qfloat taylor_libm) 3633 s)))
         (Qred (playerZ (player s)
                + snd (candidate_accerlation (ops := Qfloat taylor_libm) 3633 s)))
       = Ret (7, 8)
    /\ field_of_cell gemquest_map 7 8 = Some Wall
    /\ Game_getMapFieldIndiciesByPosition (ops := Qfloat taylor_libm)
         (playerX (player s')) (playerZ (player s')) <> Ret (7, 8).
Proof.
  let r := eval vm_compute in (play before_the_wall) in
  match r with
  | Ret ?s =>
      exists s;
      let r' := eval vm_compute in
                  (Game_onUpdate (ops := Qfloat taylor_libm) gemquest_map 3633 s) in
      match r' with Ret ?s' => exists s' end
  end.
  split; [vm_compute; reflexivity|].
  match goal with
  | |- ?U = Ret ?s' /\ _ =>
      assert (Hupdate : U = Ret s') by (vm_compute; reflexivity)
  end.
  split; [exact Hupdate|].
  split; [vm_compute; reflexivity|].
  match goal with
  | |- ?I = Ret (7, 8) /\ _ =>
      assert (Htoward : I = Ret (7, 8)) by (vm_compute; reflexivity)
  end.
  split; [exact Htoward|].
  split; [reflexivity|].
  destruct (collision_resolution taylor_libm gemquest_map 3633 _ _ Hupdate)
    as (f & Hf & _ & Hsolid).
  assert (Hwall : f = Wall).
  { vm_compute in Hf. injection Hf as <-. reflexivity. }
  subst f.
  destruct (Hsolid ltac:(simpl; lia)) as (_ & _ & _ & _ & Hcell).
  apply (Hcell (7, 7) (7, 8)).
  - vm_compute. reflexivity.
  - exact Htoward.
  - discriminate.
Defined.

(** C2 as stated fails: the recoil is not checked against the map.  In this
    run the player is pushed into the wall (7, 6) by a recoil; in the next
    update the player, inside that wall, moves toward the same wall cell and
    the position committed by that update rounds to it. *)
Lemma committed_position_in_wall :
  exists s s' : GameState Q,
    play into_the_wall = Ret s
    /\ Game_onUpdate (ops := Qfloat taylor_libm) gemquest_map 3823 s = Ret s'
    /\ Game_getMapFieldIndiciesByPosition (ops := Qfloat taylor_libm)
         (Qred (playerX (player s)
                + fst (candidate_accerlation (ops := Qfloat taylor_libm) 3823 s)))
         (Qred (playerZ (player s)
                + snd (candidate_accerlation (ops := Qfloat taylor_libm) 3823 s)))
       = Ret (7, 6)
    /\ field_of_cell gemquest_map 7 6 = Some Wall
    /\ playerZ (player s') <> playerZ (player s)
    /\ Game_getMapFieldIndiciesByPosition (ops := Qfloat taylor_libm)
         (playerX (player s')) (playerZ (player s')) = Ret (7, 6).
Proof.
  let r := eval vm_compute in (play into_the_wall) in
  match r with
  | Ret ?s =>
      exists s;
      let r' := eval vm_compute in
                  (Game_onUpdate (ops := Qfloat taylor_libm) gemquest_map 3823 s) in
      match r' with Ret ?s' => exists s' end
  end.
  split; [vm_compute; reflexivity|].
  split; [vm_compute; reflexivity|].
  split; [vm_compute; reflexivity|].
  split; [reflexivity|].
  split; [discriminate|].
  vm_compute. reflexivity.
Qed.

(* ================================================================== *)
(** * The normalisation of the keyboard input, in real arithmetic *)
(* ================================================================== *)

Lemma Q2R_1 : Q2R 1 = 1%R.
Proof. unfold Q2R. simpl. Lra.lra. Qed.

Lemma sqrt_2_gt_1 : (1 < R_sqrt.sqrt 2)%R.
Proof.
  rewrite <- sqrt_1 at 1. apply sqrt_lt_1_alt. Lra.lra.
Qed.

Lemma axis_accerlation_forward_and_right :
  axis_accerlation (ops := Rfloat) forward_and_right
  = ((1 / R_sqrt.sqrt 2)%R, (1 / R_sqrt.sqrt 2)%R).
Proof.
  unfold axis_accerlation, pow2.
  cbn [inputForward inputRight inputBackwards inputLeft forward_and_right
       fconst of_int fsub fadd fmul fdiv fltb fabsf fsqrt Rfloat].
  rewrite Q2R_1.
  replace (1 - 0)%R with 1%R by Lra.lra.
  replace (1 * 1 + 1 * 1)%R with 2%R by Lra.lra.
  pose proof sqrt_2_gt_1 as Hgt.
  rewrite (Rabs_pos_eq (R_sqrt.sqrt 2)) by Lra.lra.
  destruct (Rlt_dec 1 (R_sqrt.sqrt 2)) as [_|Hn]; [reflexivity|].
  exfalso. exact (Hn Hgt).
Qed.

Lemma axis_accerlation_forward_only :
  axis_accerlation (ops := Rfloat) forward_only = (0%R, 1%R).
Proof.
  unfold axis_accerlation, pow2.
  cbn [inputForward inputRight inputBackwards inputLeft forward_only
       fconst of_int fsub fadd fmul fdiv fltb fabsf fsqrt Rfloat].
  rewrite Q2R_1.
  replace (0 - 0)%R with 0%R by Lra.lra.
  replace (1 - 0)%R with 1%R by Lra.lra.
  replace (0 * 0 + 1 * 1)%R with 1%R by Lra.lra.
  rewrite sqrt_1, Rabs_R1.
  destruct (Rlt_dec 1 1) as [Hlt|_]; [exfalso; Lra.lra | reflexivity].
Qed.

Lemma half_plus_half :
  (1 / R_sqrt.sqrt 2 * (1 / R_sqrt.sqrt 2)
   + 1 / R_sqrt.sqrt 2 * (1 / R_sqrt.sqrt 2) = 1)%R.
Proof.
  pose proof sqrt_2_gt_1 as Hgt.
  assert (H2 : (R_sqrt.sqrt 2 * R_sqrt.sqrt 2 = 2)%R)
    by (apply sqrt_sqrt; Lra.lra).
  assert (Hne : (R_sqrt.sqrt 2 <> 0)%R) by Lra.lra.
  replace (1 / R_sqrt.sqrt 2 * (1 / R_sqrt.sqrt 2))%R
    with (1 / (R_sqrt.sqrt 2 * R_sqrt.sqrt 2))%R by (field; exact Hne).
  rewrite H2. Lra.lra.
Qed.

(** The square of the length of what an update adds to the horizontal
    acceleration: the rotation by the player's yaw keeps the length. *)
Lemma added_accerlation_square (i : Input) (yaw dt : R) :
  let v := added_accerlation (ops := Rfloat) i yaw dt in
  let a := axis_accerlation (ops := Rfloat) i in
  (fst v * fst v + snd v * snd v
   = (fst a * fst a + snd a * snd a)
     * ((dt * Q2R (2 # 10)) * (dt * Q2R (2 # 10))))%R.
Proof.
  unfold added_accerlation, rotated_accerlation, PLAYER_MAX_SPEED.
  destruct (axis_accerlation (ops := Rfloat) i) as [x z].
  cbn [fst snd fconst fsub fadd fmul fsin fcos Rfloat].
  set (theta := Common_degToRad (ops := Rfloat) yaw).
  pose proof (sin2_cos2 theta) as Hsc. unfold Rsqr in Hsc.
  set (sn := Rtrigo_def.sin theta) in *. set (cs := Rtrigo_def.cos theta) in *.
  set (k := (dt * Q2R (2 # 10))%R).
  replace ((x * cs - z * sn) * k * ((x * cs - z * sn) * k)
           + (z * cs + x * sn) * k * ((z * cs + x * sn) * k))%R
    with ((x * x + z * z) * (sn * sn + cs * cs) * (k * k))%R by ring.
  rewrite Hsc. ring.
Qed.

(** C8.  For every yaw and every time step, the update adds to the
    horizontal acceleration a vector of the same length whether forward and
    right are held together or forward is held alone: the raw axis (1, 1) is
    divided by its length, the raw axis (0, 1) is left as it is, and both
    have length 1.  Starting from rest, the displacement that the update
    tries has the same length in both cases. *)
Theorem diagonal_input_normalised :
  (forall yaw dt : R,
     magnitude (added_accerlation (ops := Rfloat) forward_and_right yaw dt)
     = magnitude (added_accerlation (ops := Rfloat) forward_only yaw dt))
  /\ magnitude (axis_accerlation (ops := Rfloat) forward_and_right) = 1%R
  /\ magnitude (axis_accerlation (ops := Rfloat) forward_only) = 1%R
  /\ (forall (t : Z) (s : GameState R),
        playerAccerlationX (player s) = 0%R ->
        playerAccerlationZ (player s) = 0%R ->
        magnitude (candidate_accerlation (ops := Rfloat) t
                     (set_input forward_and_right s))
        = magnitude (candidate_accerlation (ops := Rfloat) t
                       (set_input forward_only s))).
Proof.
  assert (Hsq : forall yaw dt : R,
    let d := added_accerlation (ops := Rfloat) forward_and_right yaw dt in
    let a := added_accerlation (ops := Rfloat) forward_only yaw dt in
    (fst d * fst d + snd d * snd d = fst a * fst a + snd a * snd a)%R).
  { intros yaw dt d a. unfold d, a.
    rewrite (added_accerlation_square forward_and_right yaw dt).
    rewrite (added_accerlation_square forward_only yaw dt).
    rewrite axis_accerlation_forward_and_right, axis_accerlation_forward_only.
    cbn [fst snd]. rewrite half_plus_half. ring. }
  split; [|split; [|split]].
  - intros yaw dt. unfold magnitude. f_equal. apply Hsq.
  - rewrite axis_accerlation_forward_and_right. unfold magnitude.
    cbn [fst snd]. rewrite half_plus_half. apply sqrt_1.
  - rewrite axis_accerlation_forward_only. unfold magnitude. cbn [fst snd].
    replace (0 * 0 + 1 * 1)%R with 1%R by Lra.lra. apply sqrt_1.
  - intros t s Hx Hz. unfold magnitude. f_equal.
    unfold candidate_accerlation, apply_friction.
    cbn [fst snd set_input input itemState gameBrightness lastUpdateTime
         player fsub fadd fmul Rfloat].
    rewrite Hx, Hz.
    assert (Hrot : forall (i : Input) b dt,
              update_rotation (ops := Rfloat) (set_input i s) b dt
              = update_rotation (ops := Rfloat) s b dt) by reflexivity.
    rewrite !Hrot.
    match goal with
    | |- context [added_accerlation forward_and_right ?yaw ?dt] =>
        specialize (Hsq yaw dt); cbv zeta in Hsq;
        set (d := added_accerlation (ops := Rfloat) forward_and_right yaw dt) in *;
        set (a := added_accerlation (ops := Rfloat) forward_only yaw dt) in *;
        set (k := (dt * PLAYER_FRICTION (ops := Rfloat))%R)
    end.
    replace ((0 + fst d - (0 + fst d) * k) * (0 + fst d - (0 + fst d) * k)
             + (0 + snd d - (0 + snd d) * k) * (0 + snd d - (0 + snd d) * k))%R
      with ((fst d * fst d + snd d * snd d) * ((1 - k) * (1 - k)))%R by ring.
    replace ((0 + fst a - (0 + fst a) * k) * (0 + fst a - (0 + fst a) * k)
             + (0 + snd a - (0 + snd a) * k) * (0 + snd a - (0 + snd a) * k))%R
      with ((fst a * fst a + snd a * snd a) * ((1 - k) * (1 - k)))%R by ring.
    rewrite Hsq. reflexivity.
Qed.

Lemma diagonal_input_normalised_witness :
  magnitude (candidate_accerlation (ops := Rfloat) 30
               (set_input forward_and_right (initial_state (ops := Rfloat))))
  = magnitude (candidate_accerlation (ops := Rfloat) 30
                 (set_input forward_only (initial_state (ops := Rfloat)))).
Proof.
  apply (proj2 (proj2 (proj2 diagonal_input_normalised))); reflexivity.
Defined.

(* ================================================================== *)
(** * Further properties of the update *)
(* ================================================================== *)

(** The last assignment of the update to the height of the player, line
    2230 with [newPlayerY] of line 2213. *)
Lemma Game_onUpdate_playerY {F : Type} {ops : FloatOps F}
    (M : MapDefinition) (t : Z) (s s' : GameState F) :
  Game_onUpdate M t s = Ret s' ->
  playerY (player s')
  = MAX (of_int 0)
      (playerY (player s) + playerAccerlationY (player s'))%float.
Proof.
  unfold Game_onUpdate.
  destruct (update_brightness (itemState s) (gameBrightness s)
              (of_int (t - lastUpdateTime s) / of_int 1000)%float)
    as [b destroy].
  destruct (update_rotation s b
              (of_int (t - lastUpdateTime s) / of_int 1000)%float)
    as [[[rax ray] rx] ry].
  destruct (added_accerlation (input s) ry
              (of_int (t - lastUpdateTime s) / of_int 1000)%float)
    as [addedX addedZ].
  intro H.
  apply bind_Ret_inv in H. destruct H as ([[[px pz] ax] az] & _ & H).
  apply bind_Ret_inv in H. destruct H as (st & _ & H).
  injection H as <-. cbn [player playerY playerAccerlationY].
  reflexivity.
Qed.

(** The height of the player is clamped at the floor.  After every update
    that returns, the height is [MAX(0, playerY + playerAccerlationY)], of
    the height before and the vertical speed the update has set; so in
    every float arithmetic it is the float 0 or a value the comparison of
    the code does not find below 0, and in exact arithmetic it is not
    negative. *)
Theorem player_height_not_negative :
  (forall (F : Type) (ops : FloatOps F) (M : MapDefinition) (t : Z)
          (s s' : GameState F),
      Game_onUpdate M t s = Ret s' ->
      playerY (player s')
      = MAX (of_int 0)
          (playerY (player s) + playerAccerlationY (player s'))%float
      /\ (playerY (player s') = of_int 0
          \/ (playerY (player s') <? of_int 0)%float = false))
  /\ (forall (L : Libm) (M : MapDefinition) (t : Z) (s s' : GameState Q),
        Game_onUpdate (ops := Qfloat L) M t s = Ret s' ->
        (0 <= playerY (player s'))%Q).
Proof.
  split.
  - intros F ops M t s s' H. apply Game_onUpdate_playerY in H.
    split; [exact H|]. rewrite H. unfold MAX.
    destruct (playerY (player s) + playerAccerlationY (player s')
              <? of_int 0)%float eqn:E.
    + left. reflexivity.
    + right. exact E.
  - intros L M t s s' H. apply Game_onUpdate_playerY in H. rewrite H.
    unfold MAX. cbn [fltb fadd of_int Qfloat].
    change (inject_Z 0) with 0%Q.
    destruct (Qle_bool 0
                (Qred (playerY (player s) + playerAccerlationY (player s'))))
      eqn:E; cbn [negb].
    + apply Qle_bool_iff in E. exact E.
    + lra.
Qed.

Lemma player_height_not_negative_witness :
  exists s s' : GameState Q,
    play (window_ready ++ [KeyboardDown " "; Update 30; KeyboardUp " "]) = Ret s
    /\ Game_onUpdate (ops := Qfloat taylor_libm) gemquest_map 60 s = Ret s'
    /\ playerY (player s')
       = MAX (ops := Qfloat taylor_libm)
           (of_int (FloatOps := Qfloat taylor_libm) 0)
           (fadd (FloatOps := Qfloat taylor_libm)
              (playerY (player s)) (playerAccerlationY (player s')))
    /\ (0 <= playerY (player s'))%Q.
Proof.
  let r := eval vm_compute in
             (play (window_ready ++ [KeyboardDown " "; Update 30; KeyboardUp " "])) in
  match r with
  | Ret ?s =>
      exists s;
      let r' := eval vm_compute in
                  (Game_onUpdate (ops := Qfloat taylor_libm) gemquest_map 60 s) in
      match r' with
      | Ret ?s' =>
          exists s';
          assert (Hupdate : Game_onUpdate (ops := Qfloat taylor_libm)
                              gemquest_map 60 s = Ret s')
            by (vm_compute; reflexivity);
          split; [vm_compute; reflexivity|];
          split; [exact Hupdate|];
          split;
          [ exact (proj1 (proj1 player_height_not_negative Q
                            (Qfloat taylor_libm) gemquest_map 60 s s' Hupdate))
          | exact (proj2 player_height_not_negative taylor_libm gemquest_map
                     60 s s' Hupdate) ]
      end
  end.
Defined.

(** While the item is held the update leaves the brightness alone, whatever
    the arithmetic. *)
Theorem brightness_held_while_item_held (F : Type) (ops : FloatOps F)
    (M : MapDefinition) (t : Z) (s s' : GameState F) :
  Game_onUpdate M t s = Ret s' ->
  itemState s = Held ->
  gameBrightness s' = gameBrightness s.
Proof.
  intros H Hs. apply Game_onUpdate_Ret_inv in H. destruct H as (Hb & _).
  rewrite Hb, Hs. reflexivity.
Qed.

Lemma brightness_held_while_item_held_witness :
  exists s s' : GameState Q,
    play (window_ready ++ walk_to_item ++ pick_up) = Ret s
    /\ Game_onUpdate (ops := Qfloat taylor_libm) gemquest_map 5546 s = Ret s'
    /\ gameBrightness s' = gameBrightness s.
Proof.
  let r := eval vm_compute in (play (window_ready ++ walk_to_item ++ pick_up)) in
  match r with
  | Ret ?s =>
      exists s;
      let r' := eval vm_compute in
                  (Game_onUpdate (ops := Qfloat taylor_libm) gemquest_map 5546 s) in
      match r' with
      | Ret ?s' =>
          exists s';
          assert (Hupdate : Game_onUpdate (ops := Qfloat taylor_libm)
                              gemquest_map 5546 s = Ret s')
            by (vm_compute; reflexivity);
          split; [vm_compute; reflexivity|];
          split; [exact Hupdate|];
          exact (brightness_held_while_item_held Q (Qfloat taylor_libm)
                   gemquest_map 5546 s s' Hupdate eq_refl)
      end
  end.
Defined.

(** The probe loops visit all nine cells and apply every transition that a
    visited cell allows: where the block holds the item at a cell visited
    before the goal, one interaction takes the item from its initial place
    to the goal. *)
Theorem one_interaction_can_pick_up_and_drop :
  probe_fields item_next_to_goal_map 1 1 Initial = Ret Dropped
  /\ block_has item_next_to_goal_map Item 1 1
  /\ block_has item_next_to_goal_map Goal 1 1.
Proof.
  split; [vm_compute; reflexivity|].
  split.
  - exists 1, 0. split; [unfold in_block; lia | reflexivity].
  - exists 1, 2. split; [unfold in_block; lia | reflexivity].
Qed.

(* ================================================================== *)
(** * Matrices over the real numbers *)
(* ================================================================== *)

Lemma Q2R_zero : Q2R 0 = 0%R.
Proof. unfold Q2R. simpl. Lra.lra. Qed.

Lemma PI_nonzero : (PI (ops := Rfloat) <> 0)%R.
Proof.
  unfold PI. cbn [fconst Rfloat]. unfold Q2R. cbn [Qnum Qden].
  intro H.
  assert (Hpos : (0 < 31415926 * / 10000000)%R).
  { apply Rmult_lt_0_compat; [Lra.lra|]. apply Rinv_0_lt_compat. Lra.lra. }
  Lra.lra.
Qed.

(** Reduces the matrix functions and the operations of [Rfloat], and the
    literals 0 and 1. *)
Ltac real_entries :=
  cbv [transform Matrix4x4_createCamera Matrix4x4_multiply
       Matrix4x4_createRotationX Matrix4x4_createRotationY
       Matrix4x4_createTranslation Matrix4x4_create
       Matrix4x4_createPerspective
       a00 a01 a02 a03 a10 a11 a12 a13 a20 a21 a22 a23 a30 a31 a32 a33];
  cbn [fconst of_int fadd fsub fmul fdiv fneg fsin fcos Rfloat];
  rewrite ?Q2R_1, ?Q2R_zero.

Lemma Matrix4x4_ext {F : Type}
    (b00 b01 b02 b03 b10 b11 b12 b13 b20 b21 b22 b23 b30 b31 b32 b33
     c00 c01 c02 c03 c10 c11 c12 c13 c20 c21 c22 c23 c30 c31 c32 c33 : F) :
  b00 = c00 -> b01 = c01 -> b02 = c02 -> b03 = c03 ->
  b10 = c10 -> b11 = c11 -> b12 = c12 -> b13 = c13 ->
  b20 = c20 -> b21 = c21 -> b22 = c22 -> b23 = c23 ->
  b30 = c30 -> b31 = c31 -> b32 = c32 -> b33 = c33 ->
  Build_Matrix4x4 F b00 b01 b02 b03 b10 b11 b12 b13
                    b20 b21 b22 b23 b30 b31 b32 b33
  = Build_Matrix4x4 F c00 c01 c02 c03 c10 c11 c12 c13
                      c20 c21 c22 c23 c30 c31 c32 c33.
Proof. intros. subst. reflexivity. Qed.

Lemma tuple4_ext {A : Type} (a b c d a' b' c' d' : A) :
  a = a' -> b = b' -> c = c' -> d = d' -> (a, b, c, d) = (a', b', c', d').
Proof. intros. subst. reflexivity. Qed.

(** Two matrices of real numbers are equal when their entries are equal as
    polynomials. *)
Ltac matrix_ring := real_entries; apply Matrix4x4_ext; ring.

Ltac destruct_matrix m :=
  let m00 := fresh m "00" in let m01 := fresh m "01" in
  let m02 := fresh m "02" in let m03 := fresh m "03" in
  let m10 := fresh m "10" in let m11 := fresh m "11" in
  let m12 := fresh m "12" in let m13 := fresh m "13" in
  let m20 := fresh m "20" in let m21 := fresh m "21" in
  let m22 := fresh m "22" in let m23 := fresh m "23" in
  let m30 := fresh m "30" in let m31 := fresh m "31" in
  let m32 := fresh m "32" in let m33 := fresh m "33" in
  destruct m as [m00 m01 m02 m03 m10 m11 m12 m13
                 m20 m21 m22 m23 m30 m31 m32 m33].

(** The conversions between degrees and radians are inverse to each other
    (in real arithmetic). *)
Theorem Common_radToDeg_degToRad (x : R) :
  Common_radToDeg (ops := Rfloat) (Common_degToRad (ops := Rfloat) x) = x
  /\ Common_degToRad (ops := Rfloat) (Common_radToDeg (ops := Rfloat) x) = x.
Proof.
  pose proof PI_nonzero as Hpi.
  unfold Common_radToDeg, Common_degToRad.
  set (p := PI (ops := Rfloat)) in *.
  cbn [fconst fmul fdiv Rfloat].
  assert (H180 : Q2R (180 # 1) = 180%R) by (unfold Q2R; simpl; Lra.lra).
  rewrite H180.
  split; field; exact Hpi.
Qed.

(** [Matrix4x4_create(true)] is a unit of [Matrix4x4_multiply] on both
    sides, and [Matrix4x4_create(false)] absorbs every matrix. *)
Theorem Matrix4x4_multiply_identity (m : Matrix4x4 R) :
  Matrix4x4_multiply (ops := Rfloat) (Matrix4x4_create true) m = m
  /\ Matrix4x4_multiply (ops := Rfloat) m (Matrix4x4_create true) = m
  /\ Matrix4x4_multiply (ops := Rfloat) (Matrix4x4_create false) m
     = Matrix4x4_create false
  /\ Matrix4x4_multiply (ops := Rfloat) m (Matrix4x4_create false)
     = Matrix4x4_create false.
Proof.
  destruct_matrix m.
  split; [|split; [|split]]; matrix_ring.
Qed.

(** [Matrix4x4_multiply] is associative. *)
Theorem Matrix4x4_multiply_assoc (a b c : Matrix4x4 R) :
  Matrix4x4_multiply (ops := Rfloat) (Matrix4x4_multiply a b) c
  = Matrix4x4_multiply a (Matrix4x4_multiply b c).
Proof.
  destruct_matrix a. destruct_matrix b. destruct_matrix c.
  matrix_ring.
Qed.

(** The product of two translations is the translation by the sum of the
    offsets; the translation by zero is the identity. *)
Theorem Matrix4x4_createTranslation_compose (x y z x' y' z' : R) :
  Matrix4x4_multiply (ops := Rfloat)
    (Matrix4x4_createTranslation x y z) (Matrix4x4_createTranslation x' y' z')
  = Matrix4x4_createTranslation (x + x')%R (y + y')%R (z + z')%R
  /\ Matrix4x4_createTranslation (ops := Rfloat) 0%R 0%R 0%R
     = Matrix4x4_create true.
Proof.
  split; matrix_ring.
Qed.

Lemma Common_degToRad_plus (a b : R) :
  Common_degToRad (ops := Rfloat) (a + b)%R
  = (Common_degToRad (ops := Rfloat) a + Common_degToRad (ops := Rfloat) b)%R.
Proof.
  unfold Common_degToRad. cbn [fmul fdiv Rfloat]. ring.
Qed.

Lemma Common_degToRad_0 : Common_degToRad (ops := Rfloat) 0%R = 0%R.
Proof. unfold Common_degToRad. cbn [fmul fdiv Rfloat]. ring. Qed.

(** The product of two rotations about the same axis is the rotation by the
    sum of the angles, and the rotation by zero degrees is the identity. *)
Theorem Matrix4x4_createRotation_compose (a b : R) :
  Matrix4x4_multiply (ops := Rfloat)
    (Matrix4x4_createRotationX a) (Matrix4x4_createRotationX b)
  = Matrix4x4_createRotationX (a + b)%R
  /\ Matrix4x4_multiply (ops := Rfloat)
       (Matrix4x4_createRotationY a) (Matrix4x4_createRotationY b)
     = Matrix4x4_createRotationY (a + b)%R
  /\ Matrix4x4_createRotationX (ops := Rfloat) 0%R = Matrix4x4_create true
  /\ Matrix4x4_createRotationY (ops := Rfloat) 0%R = Matrix4x4_create true.
Proof.
  real_entries.
  rewrite Common_degToRad_plus, Common_degToRad_0.
  set (ra := Common_degToRad (ops := Rfloat) a).
  set (rb := Common_degToRad (ops := Rfloat) b).
  rewrite cos_plus, sin_plus, cos_0, sin_0.
  split; [|split; [|split]]; apply Matrix4x4_ext; ring.
Qed.

(** The camera transformation takes the position of the camera to the origin
    of the view space, whatever the rotation. *)
Theorem Matrix4x4_createCamera_eye (x y z rotationYDeg rotationXDeg : R) :
  transform (ops := Rfloat)
    (Matrix4x4_createCamera x y z rotationYDeg rotationXDeg) (x, y, z)
  = (0%R, 0%R, 0%R, 1%R).
Proof.
  real_entries.
  set (rx := Common_degToRad (ops := Rfloat) rotationXDeg).
  set (ry := Common_degToRad (ops := Rfloat) rotationYDeg).
  apply tuple4_ext; ring.
Qed.

(** The camera transformation is a rigid motion: it keeps the distance of
    any two points. *)
Theorem Matrix4x4_createCamera_isometry
    (x y z rotationYDeg rotationXDeg : R) (p q : R * R * R) :
  distance_square
    (position_of (transform (ops := Rfloat)
       (Matrix4x4_createCamera x y z rotationYDeg rotationXDeg) p))
    (position_of (transform (ops := Rfloat)
       (Matrix4x4_createCamera x y z rotationYDeg rotationXDeg) q))
  = distance_square p q.
Proof.
  destruct p as [[px py] pz], q as [[qx qy] qz].
  real_entries.
  set (rx := Common_degToRad (ops := Rfloat) rotationXDeg).
  set (ry := Common_degToRad (ops := Rfloat) rotationYDeg).
  unfold distance_square, position_of.
  pose proof (sin2_cos2 rx) as Hx. pose proof (sin2_cos2 ry) as Hy.
  unfold Rsqr in Hx, Hy.
  set (sx := Rtrigo_def.sin rx) in *. set (cx := Rtrigo_def.cos rx) in *.
  set (sy := Rtrigo_def.sin ry) in *. set (cy := Rtrigo_def.cos ry) in *.
  assert (Hx' : (sx * sx = 1 - cx * cx)%R) by Lra.lra.
  assert (Hy' : (sy * sy = 1 - cy * cy)%R) by Lra.lra.
  ring [Hx' Hy'].
Qed.

(** The perspective projection takes the near clipping plane to the depth -1
    and the far clipping plane to the depth 1, and the fourth coordinate of
    a projected point is its distance along the Z axis. *)
Theorem Matrix4x4_createPerspective_depth (tanf : R -> R)
    (aspect zNear zFar fovDeg x y : R) :
  zNear <> zFar -> zNear <> 0%R -> zFar <> 0%R ->
  depth_of (transform (ops := Rfloat)
              (Matrix4x4_createPerspective tanf aspect zNear zFar fovDeg)
              (x, y, zNear)) = (-1)%R
  /\ depth_of (transform (ops := Rfloat)
                 (Matrix4x4_createPerspective tanf aspect zNear zFar fovDeg)
                 (x, y, zFar)) = 1%R.
Proof.
  intros Hrange Hnear Hfar.
  assert (Hne : (zNear - zFar <> 0)%R) by Lra.lra.
  assert (H2 : Q2R 2 = 2%R) by (unfold Q2R; simpl; Lra.lra).
  real_entries. rewrite H2. unfold depth_of.
  split; field; auto.
Qed.

(** The theorem at the projection of [Game_onResize], whose clipping planes
    are 0.001 and 200. *)
Lemma Matrix4x4_createPerspective_depth_witness :
  depth_of (transform (ops := Rfloat)
              (Game_onResize_projection (ops := Rfloat) Rtrigo1.tan 640 480)
              (0%R, 0%R, fconst (FloatOps := Rfloat) (1 # 1000))) = (-1)%R
  /\ depth_of (transform (ops := Rfloat)
                 (Game_onResize_projection (ops := Rfloat) Rtrigo1.tan 640 480)
                 (0%R, 0%R, of_int (FloatOps := Rfloat) 200)) = 1%R.
Proof.
  assert (H : Q2R (1 # 1000) = (1 / 1000)%R) by (unfold Q2R; simpl; Lra.lra).
  unfold Game_onResize_projection.
  apply (Matrix4x4_createPerspective_depth Rtrigo1.tan
           (of_int (FloatOps := Rfloat) 640 / of_int (FloatOps := Rfloat) 480)%float
           (fconst (FloatOps := Rfloat) (1 # 1000))
           (of_int (FloatOps := Rfloat) 200)
           (of_int (FloatOps := Rfloat) 70) 0%R 0%R);
    cbn [fconst of_int Rfloat]; rewrite ?H; Lra.lra.
Defined.

(* ================================================================== *)
(** * The callbacks and the main loop *)
(* ================================================================== *)

(** What the update leaves behind, field by field (the fields that
    [Game_onUpdate_Ret_inv] does not give). *)
Lemma Game_onUpdate_Ret_fields {F : Type} {ops : FloatOps F}
    (M : MapDefinition) (t : Z) (s s' : GameState F) :
  Game_onUpdate M t s = Ret s' ->
  let deltaSeconds := (of_int (t - lastUpdateTime s) / of_int 1000)%float in
  let fade := update_brightness (itemState s) (gameBrightness s) deltaSeconds in
  itemRotationY s' = (itemRotationY s + deltaSeconds * ITEM_ROTATION_SPEED)%float
  /\ mainLoopLeft s'
     = (if snd fade then mainLoopLeft (Game_onDestroy s) else mainLoopLeft s)
  /\ (playerRotationAccerlationX (player s'),
      playerRotationAccerlationY (player s'),
      playerRotationX (player s'), playerRotationY (player s'))
     = update_rotation s (fst fade) deltaSeconds
  /\ playerAccerlationY (player s')
     = update_vertical (playerY (player s)) (playerAccerlationY (player s))
         (inputJump (input s)) deltaSeconds
  /\ playerY (player s')
     = MAX (of_int 0) (playerY (player s) + playerAccerlationY (player s'))%float
  /\ currentTimeMs s' = of_int (Z.rem t 1000)
  /\ currentMouseX s' = currentMouseX s
  /\ currentMouseY s' = currentMouseY s
  /\ currentWindowWidth s' = currentWindowWidth s
  /\ currentWindowHeight s' = currentWindowHeight s.
Proof.
  unfold Game_onUpdate. cbv zeta.
  destruct (update_brightness (itemState s) (gameBrightness s)
              (of_int (t - lastUpdateTime s) / of_int 1000)%float)
    as [b destroy] eqn:Hb.
  cbn [fst snd].
  destruct (update_rotation s b
              (of_int (t - lastUpdateTime s) / of_int 1000)%float)
    as [[[rax ray] rx] ry].
  destruct (added_accerlation (input s) ry
              (of_int (t - lastUpdateTime s) / of_int 1000)%float)
    as [addedX addedZ].
  intro H.
  apply bind_Ret_inv in H. destruct H as ([[[px pz] ax] az] & Hcol & H).
  apply bind_Ret_inv in H. destruct H as (st & Hint & H).
  injection H as <-.
  cbn [itemRotationY mainLoopLeft player playerRotationAccerlationX
       playerRotationAccerlationY playerRotationX playerRotationY
       playerAccerlationY playerY currentTimeMs currentMouseX currentMouseY
       currentWindowWidth currentWindowHeight].
  repeat (split; [reflexivity|]). reflexivity.
Qed.

Lemma dispatch_other_world {F : Type} {ops : FloatOps F}
    (M : MapDefinition) (e : Event) (s : GameState F) :
  (forall t, e <> Update t) ->
  exists s',
    dispatch M e s = Ret s'
    /\ player s' = player s
    /\ itemState s' = itemState s
    /\ itemRotationY s' = itemRotationY s
    /\ gameBrightness s' = gameBrightness s
    /\ lastUpdateTime s' = lastUpdateTime s
    /\ currentTimeMs s' = currentTimeMs s
    /\ isLoaded s' = isLoaded s.
Proof.
  intro Hne. destruct e as [key|key|mx mz|w h|t]; cbn [dispatch].
  - eexists. split; [reflexivity|].
    unfold Game_onKeyboardDown, Game_onDestroy.
    repeat match goal with
           | |- context [if ?b then _ else _] => destruct b eqn:?
           end; cbn; repeat (split; [reflexivity|]);
      first [reflexivity | assumption].
  - eexists. split; [reflexivity|].
    unfold Game_onKeyboardUp.
    repeat match goal with
           | |- context [if ?b then _ else _] => destruct b
           end; cbn; repeat (split; [reflexivity|]); reflexivity.
  - eexists. split; [reflexivity|]. cbn. repeat (split; [reflexivity|]); reflexivity.
  - eexists. split; [reflexivity|]. cbn. repeat (split; [reflexivity|]); reflexivity.
  - exfalso. exact (Hne t eq_refl).
Qed.

(** The callbacks of the keyboard, of the mouse and of the window always
    return, and they change neither the player nor the item nor the
    brightness nor the clock: only the update moves the game. *)
Theorem input_callbacks_leave_the_world (F : Type) (ops : FloatOps F)
    (M : MapDefinition) (e : Event) (s : GameState F) :
  (forall t, e <> Update t) ->
  exists s',
    dispatch M e s = Ret s'
    /\ player s' = player s
    /\ itemState s' = itemState s
    /\ itemRotationY s' = itemRotationY s
    /\ gameBrightness s' = gameBrightness s
    /\ lastUpdateTime s' = lastUpdateTime s
    /\ currentTimeMs s' = currentTimeMs s
    /\ isLoaded s' = isLoaded s.
Proof.
  exact (dispatch_other_world M e s).
Qed.

Lemma input_callbacks_leave_the_world_witness :
  exists s',
    dispatch (ops := Qfloat taylor_libm) gemquest_map (KeyboardDown "w")
      (initial_state (ops := Qfloat taylor_libm)) = Ret s'
    /\ player s' = player (initial_state (ops := Qfloat taylor_libm))
    /\ itemState s' = itemState (initial_state (ops := Qfloat taylor_libm))
    /\ itemRotationY s'
       = itemRotationY (initial_state (ops := Qfloat taylor_libm))
    /\ gameBrightness s'
       = gameBrightness (initial_state (ops := Qfloat taylor_libm))
    /\ lastUpdateTime s'
       = lastUpdateTime (initial_state (ops := Qfloat taylor_libm))
    /\ currentTimeMs s'
       = currentTimeMs (initial_state (ops := Qfloat taylor_libm))
    /\ isLoaded s' = isLoaded (initial_state (ops := Qfloat taylor_libm)).
Proof.
  apply (input_callbacks_leave_the_world Q (Qfloat taylor_libm) gemquest_map
           (KeyboardDown "w") (initial_state (ops := Qfloat taylor_libm))).
  intros t. discriminate.
Defined.

(** Releasing a key undoes pressing it: after the press and the release of
    a key other than ESC the state is what the release alone would have
    left, so the action of the key is inactive and the other five actions
    are as before. *)
Theorem Game_onKeyboardUp_after_Down (F : Type) (ops : FloatOps F)
    (key : ascii) (s : GameState F) :
  key <> "027"%char ->
  Game_onKeyboardUp key (Game_onKeyboardDown key s) = Game_onKeyboardUp key s.
Proof.
  intro Hesc. unfold Game_onKeyboardUp, Game_onKeyboardDown.
  destruct (Ascii.eqb key "w"); [reflexivity|].
  destruct (Ascii.eqb key "s"); [reflexivity|].
  destruct (Ascii.eqb key "a"); [reflexivity|].
  destruct (Ascii.eqb key "d"); [reflexivity|].
  destruct (Ascii.eqb key " "); [reflexivity|].
  destruct (Ascii.eqb key "e"); [reflexivity|].
  destruct (Ascii.eqb key "027") eqn:E; [|reflexivity].
  apply Ascii.eqb_eq in E. contradiction.
Qed.

Lemma Game_onKeyboardUp_after_Down_witness :
  Game_onKeyboardUp "w"
    (Game_onKeyboardDown "w" (initial_state (ops := Qfloat taylor_libm)))
  = Game_onKeyboardUp "w" (initial_state (ops := Qfloat taylor_libm)).
Proof.
  apply (Game_onKeyboardUp_after_Down Q (Qfloat taylor_libm) "w"%char
           (initial_state (ops := Qfloat taylor_libm))).
  discriminate.
Defined.

Lemma dispatch_isLoaded {F : Type} {ops : FloatOps F} (M : MapDefinition)
    (e : Event) (s s' : GameState F) :
  dispatch M e s = Ret s' -> isLoaded s' = isLoaded s.
Proof.
  destruct e as [key|key|mx mz|w h|t]; cbn [dispatch]; intro H;
    try (injection H as <-).
  - unfold Game_onKeyboardDown, Game_onDestroy.
    repeat match goal with
           | |- context [if ?b then _ else _] => destruct b eqn:?
           end; cbn; auto.
  - unfold Game_onKeyboardUp.
    repeat match goal with
           | |- context [if ?b then _ else _] => destruct b
           end; cbn; auto.
  - reflexivity.
  - reflexivity.
  - apply Game_onUpdate_Ret_inv in H.
    destruct H as (_ & _ & _ & _ & _ & H & _). exact H.
Qed.

Lemma glutMainLoop_isLoaded {F : Type} {ops : FloatOps F} (M : MapDefinition)
    (events : list Event) :
  forall s s' : GameState F,
    glutMainLoop M events s = Ret s' -> isLoaded s' = isLoaded s.
Proof.
  induction events as [|e events IH]; intros s s' H; simpl in H.
  - injection H as <-. reflexivity.
  - destruct (mainLoopLeft s).
    + injection H as <-. reflexivity.
    + apply bind_Ret_inv in H. destruct H as (s1 & H1 & H).
      rewrite (IH s1 s' H). exact (dispatch_isLoaded M e s s1 H1).
Qed.

Lemma Game_onLoad_isLoaded {F : Type} {ops : FloatOps F} (M : MapDefinition)
    (t : Z) (s s' : GameState F) :
  Game_onLoad M t s = Ret s' -> isLoaded s' = true.
Proof.
  unfold Game_onLoad, Common_terminate.
  destruct (isLoaded s); [discriminate|].
  intro H. apply bind_Ret_inv in H. destruct H as (size & _ & H).
  destruct (negb (LENGTHOF (map M) =? size)); [discriminate|].
  apply bind_Ret_inv in H. destruct H as (v & _ & H).
  destruct (Game_getMapFieldPositionByIndicies (spawnX v) (spawnZ v)) as [px pz].
  destruct (negb (spawnPointFound v)); [discriminate|].
  injection H as <-. reflexivity.
Qed.

(** Once the main loop is left, no event is dispatched any more. *)
Lemma glutMainLoop_left {F : Type} {ops : FloatOps F} (M : MapDefinition)
    (events : list Event) (s : GameState F) :
  mainLoopLeft s = true -> glutMainLoop M events s = Ret s.
Proof.
  intro H. destruct events; simpl; [reflexivity|]. rewrite H. reflexivity.
Qed.

(** ESC ends the game at any point of a run: whatever events come before
    it, the run that ends with the press of ESC has left the main loop.  The
    game is loaded by then, so [Game_onDestroy] does not skip its call of
    [glutLeaveMainLoop]. *)
Theorem escape_leaves_the_main_loop (F : Type) (ops : FloatOps F)
    (M : MapDefinition) (t0 : Z) (before : list Event) (s : GameState F) :
  main M t0 (before ++ [KeyboardDown "027"]) = Ret s ->
  mainLoopLeft s = true.
Proof.
  unfold main. intro H.
  apply bind_Ret_inv in H. destruct H as (s0 & Hload & H).
  rewrite glutMainLoop_app in H.
  apply bind_Ret_inv in H. destruct H as (s1 & H1 & H).
  assert (Hloaded : isLoaded s1 = true).
  { rewrite (glutMainLoop_isLoaded M before s0 s1 H1).
    exact (Game_onLoad_isLoaded M t0 _ s0 Hload). }
  cbn [glutMainLoop] in H.
  destruct (mainLoopLeft s1) eqn:Hleft.
  - injection H as <-. exact Hleft.
  - cbn [dispatch bind] in H. injection H as <-.
    unfold Game_onKeyboardDown. cbn [Ascii.eqb Bool.eqb].
    unfold Game_onDestroy. rewrite Hloaded. reflexivity.
Qed.

Lemma escape_leaves_the_main_loop_witness :
  exists s : GameState Q,
    main (ops := Qfloat taylor_libm) gemquest_map 0
      (window_ready ++ [KeyboardDown "w"; Update 30; KeyboardDown "027"])
    = Ret s
    /\ mainLoopLeft s = true.
Proof.
  let r := eval vm_compute in
             (main (ops := Qfloat taylor_libm) gemquest_map 0
                (window_ready
                 ++ [KeyboardDown "w"; Update 30; KeyboardDown "027"])) in
  match r with
  | Ret ?s =>
      exists s;
      assert (Hrun : main (ops := Qfloat taylor_libm) gemquest_map 0
                       ((window_ready ++ [KeyboardDown "w"; Update 30])
                        ++ [KeyboardDown "027"]) = Ret s)
        by (vm_compute; reflexivity);
      split;
      [ vm_compute; reflexivity
      | exact (escape_leaves_the_main_loop Q (Qfloat taylor_libm) gemquest_map
                 0 (window_ready ++ [KeyboardDown "w"; Update 30]) s Hrun) ]
  end.
Defined.

Lemma Game_onUpdate_mainLoopLeft {F : Type} {ops : FloatOps F}
    (M : MapDefinition) (t : Z) (s s' : GameState F) :
  Game_onUpdate M t s = Ret s' ->
  mainLoopLeft s = false ->
  (mainLoopLeft s' = true
   <-> isLoaded s = true /\ itemState s = Dropped
       /\ (gameBrightness s >? fconst 0)%float = false).
Proof.
  intros H Hleft.
  apply Game_onUpdate_Ret_fields in H. cbv zeta in H.
  destruct H as (_ & Hs' & _). rewrite Hs'. clear Hs'.
  unfold update_brightness, Game_onDestroy.
  destruct (itemState s);
    cbn [ItemState_eqb ItemState_value Z.eqb Pos.eqb andb].
  - destruct (gameBrightness s <? fconst 1)%float; cbn [snd]; rewrite Hleft;
      (split; [discriminate | intros (_ & E & _); discriminate]).
  - cbn [snd]. rewrite Hleft.
    split; [discriminate | intros (_ & E & _); discriminate].
  - destruct (gameBrightness s >? fconst 0)%float; cbn [snd].
    + rewrite Hleft. split; [discriminate | intros (_ & _ & E); discriminate].
    + destruct (isLoaded s); cbn [mainLoopLeft set_mainLoopLeft].
      * split; auto.
      * rewrite Hleft. split; [discriminate | intros (E & _); discriminate].
Qed.

(** The update ends the game by itself in one case only: it leaves the main
    loop exactly when the game is loaded, the item is dropped and the
    brightness is no longer above zero. *)
Theorem Game_onUpdate_leaves_main_loop (F : Type) (ops : FloatOps F)
    (M : MapDefinition) (t : Z) (s s' : GameState F) :
  Game_onUpdate M t s = Ret s' ->
  mainLoopLeft s = false ->
  (mainLoopLeft s' = true
   <-> isLoaded s = true /\ itemState s = Dropped
       /\ (gameBrightness s >? fconst 0)%float = false).
Proof.
  exact (Game_onUpdate_mainLoopLeft M t s s').
Qed.

Lemma Game_onUpdate_leaves_main_loop_witness :
  exists s s' : GameState Q,
    play full_play = Ret s
    /\ Game_onUpdate (ops := Qfloat taylor_libm) gemquest_map 13090 s = Ret s'
    /\ (mainLoopLeft s' = true
        <-> isLoaded s = true /\ itemState s = Dropped
            /\ (fltb (FloatOps := Qfloat taylor_libm)
                  (fconst (FloatOps := Qfloat taylor_libm) 0)
                  (gameBrightness s)) = false).
Proof.
  let r := eval vm_compute in (play full_play) in
  match r with
  | Ret ?s =>
      exists s;
      let r' := eval vm_compute in
                  (Game_onUpdate (ops := Qfloat taylor_libm) gemquest_map 13090 s) in
      match r' with
      | Ret ?s' =>
          exists s';
          assert (Hupdate : Game_onUpdate (ops := Qfloat taylor_libm)
                              gemquest_map 13090 s = Ret s')
            by (vm_compute; reflexivity);
          split; [vm_compute; reflexivity|];
          split; [exact Hupdate|];
          exact (Game_onUpdate_leaves_main_loop Q (Qfloat taylor_libm)
                   gemquest_map 13090 s s' Hupdate eq_refl)
      end
  end.
Defined.

(** A jump cannot be started in the air: while the player is above the
    floor (by more than the threshold), the update does the same whether
    the jump input is active or not. *)
Theorem jump_ignored_while_airborne (F : Type) (ops : FloatOps F)
    (M : MapDefinition) (t : Z) (s : GameState F) :
  (playerY (player s) >? CALCULATION_TRESHOLD)%float = true ->
  Game_onUpdate M t (set_input (set_inputJump true (input s)) s)
  = (s' <- Game_onUpdate M t (set_input (set_inputJump false (input s)) s) ;;
     Ret (set_input (set_inputJump true (input s')) s')).
Proof.
  intro Hair.
  unfold Game_onUpdate, update_vertical.
  cbn [set_input set_inputJump input inputJump inputAction player itemState
       gameBrightness lastUpdateTime itemRotationY isLoaded mainLoopLeft
       currentMouseX currentMouseY currentWindowWidth currentWindowHeight
       currentTimeMs].
  rewrite Hair.
  assert (Hrot : forall (i : Input) b dt,
            update_rotation (set_input i s) b dt = update_rotation s b dt)
    by reflexivity.
  assert (Hdestroy : forall i : Input,
            mainLoopLeft (Game_onDestroy (set_input i s))
            = mainLoopLeft (Game_onDestroy s)).
  { intro i. unfold Game_onDestroy. cbn [set_input isLoaded].
    destruct (isLoaded s); reflexivity. }
  repeat rewrite Hdestroy.
  destruct (update_brightness (itemState s) (gameBrightness s)
              (of_int (t - lastUpdateTime s) / of_int 1000)%float)
    as [b destroy].
  repeat rewrite Hrot.
  destruct (update_rotation s b
              (of_int (t - lastUpdateTime s) / of_int 1000)%float)
    as [[[rax ray] rx] ry].
  assert (Hadd : forall (j : bool) yaw dt,
            added_accerlation (set_inputJump j (input s)) yaw dt
            = added_accerlation (input s) yaw dt) by reflexivity.
  repeat rewrite Hadd.
  destruct (added_accerlation (input s) ry
              (of_int (t - lastUpdateTime s) / of_int 1000)%float)
    as [addedX addedZ].
  destruct (resolve_collision M (playerX (player s)) (playerZ (player s))
              (apply_friction (playerAccerlationX (player s) + addedX)%float
                 (of_int (t - lastUpdateTime s) / of_int 1000)%float)
              (apply_friction (playerAccerlationZ (player s) + addedZ)%float
                 (of_int (t - lastUpdateTime s) / of_int 1000)%float))
    as [[[[px pz] ax] az]| | |]; cbn [bind]; try reflexivity.
  destruct (interact M (inputAction (input s)) px pz (itemState s))
    as [st| | |]; cbn [bind]; reflexivity.
Qed.

Lemma jump_ignored_while_airborne_witness :
  exists s : GameState Q,
    play (window_ready ++ [KeyboardDown " "; Update 30; KeyboardUp " "]) = Ret s
    /\ Game_onUpdate (ops := Qfloat taylor_libm) gemquest_map 60
         (set_input (set_inputJump true (input s)) s)
       = (s' <- Game_onUpdate (ops := Qfloat taylor_libm) gemquest_map 60
                  (set_input (set_inputJump false (input s)) s) ;;
          Ret (set_input (set_inputJump true (input s')) s')).
Proof.
  let r := eval vm_compute in
             (play (window_ready ++ [KeyboardDown " "; Update 30; KeyboardUp " "])) in
  match r with
  | Ret ?s =>
      exists s;
      split; [vm_compute; reflexivity|];
      apply (jump_ignored_while_airborne Q (Qfloat taylor_libm) gemquest_map
               60 s);
      vm_compute; reflexivity
  end.
Defined.

(* ================================================================== *)
(** * What depends on the elapsed time only *)
(* ================================================================== *)

(** The world of a callback other than the update, read off [H]. *)
Ltac other_world H Hs' :=
  match type of H with
  | @dispatch ?F ?ops ?M ?e ?s = Ret ?s' =>
      let Hne := fresh "Hne" in
      let s1 := fresh "s1" in
      let H1 := fresh "H1" in
      assert (Hne : forall t, e <> Update t) by (intros ?; discriminate);
      destruct (@dispatch_other_world F ops M e s Hne) as (s1 & H1 & Hs');
      rewrite H in H1; injection H1 as <-
  end.

Lemma inject_Z_sub (a b : Z) : (inject_Z (a - b) == inject_Z a - inject_Z b)%Q.
Proof. unfold Z.sub. rewrite inject_Z_plus, inject_Z_opp. reflexivity. Qed.

Lemma Game_onUpdate_itemRotationY_Q (L : Libm) (M : MapDefinition) (t : Z)
    (s s' : GameState Q) :
  Game_onUpdate (ops := Qfloat L) M t s = Ret s' ->
  (itemRotationY s'
   == itemRotationY s
      + (45 # 1000) * (inject_Z t - inject_Z (lastUpdateTime s)))%Q.
Proof.
  intro H. apply Game_onUpdate_Ret_fields in H. cbv zeta in H.
  destruct H as (Hrot & _). rewrite Hrot.
  unfold ITEM_ROTATION_SPEED. cbn [fadd fmul fdiv of_int fconst Qfloat].
  rewrite !Qred_correct, inject_Z_sub.
  change (inject_Z 1000) with 1000%Q. field.
Qed.

Lemma glutMainLoop_itemRotationY_Q (L : Libm) (M : MapDefinition)
    (events : list Event) :
  forall s s' : GameState Q,
    glutMainLoop (ops := Qfloat L) M events s = Ret s' ->
    (itemRotationY s'
     == itemRotationY s
        + (45 # 1000)
          * (inject_Z (lastUpdateTime s') - inject_Z (lastUpdateTime s)))%Q.
Proof.
  induction events as [|e events IH]; intros s s' H; simpl in H.
  - injection H as <-. ring.
  - destruct (mainLoopLeft s).
    + injection H as <-. ring.
    + apply bind_Ret_inv in H. destruct H as (s1 & H1 & H).
      rewrite (IH s1 s' H).
      destruct e as [key|key|mx mz|w h|t];
        try (other_world H1 Hs';
             destruct Hs' as (_ & _ & Hr & _ & Hl & _); rewrite Hr, Hl;
             reflexivity).
      cbn [dispatch] in H1.
      rewrite (Game_onUpdate_itemRotationY_Q L M t s s1 H1).
      apply Game_onUpdate_Ret_inv in H1.
      destruct H1 as (_ & _ & _ & _ & Hl & _). rewrite Hl. ring.
Qed.

Lemma Game_onLoad_itemRotationY {F : Type} {ops : FloatOps F}
    (M : MapDefinition) (t : Z) (s s' : GameState F) :
  Game_onLoad M t s = Ret s' -> itemRotationY s' = itemRotationY s.
Proof.
  unfold Game_onLoad, Common_terminate.
  destruct (isLoaded s); [discriminate|].
  intro H. apply bind_Ret_inv in H. destruct H as (size & _ & H).
  destruct (negb (LENGTHOF (map M) =? size)); [discriminate|].
  apply bind_Ret_inv in H. destruct H as (v & _ & H).
  destruct (Game_getMapFieldPositionByIndicies (spawnX v) (spawnZ v)) as [px pz].
  destruct (negb (spawnPointFound v)); [discriminate|].
  injection H as <-. reflexivity.
Qed.

(** The angle of the quest item depends on the elapsed time only, not on
    how the time is cut into updates: at every point of a run it is 45
    degrees for every second between loading and the last update.  (The
    angle is never reduced modulo 360.) *)
Theorem item_rotation_by_elapsed_time (L : Libm) (M : MapDefinition)
    (t0 : Z) (events : list Event) (s : GameState Q) :
  main (ops := Qfloat L) M t0 events = Ret s ->
  (itemRotationY s
   == (45 # 1000) * (inject_Z (lastUpdateTime s) - inject_Z t0))%Q.
Proof.
  unfold main. intro H.
  apply bind_Ret_inv in H. destruct H as (s0 & Hload & H).
  rewrite (glutMainLoop_itemRotationY_Q L M events s0 s H).
  rewrite (Game_onLoad_itemRotationY M t0 _ s0 Hload).
  apply Game_onLoad_Ret_inv in Hload. destruct Hload as (_ & _ & Hl).
  rewrite Hl. cbn [itemRotationY initial_state of_int Qfloat].
  change (inject_Z 0) with 0%Q. ring.
Qed.

Lemma item_rotation_by_elapsed_time_witness :
  exists s : GameState Q,
    main (ops := Qfloat taylor_libm) gemquest_map 0 full_play = Ret s
    /\ (itemRotationY s
        == (45 # 1000) * (inject_Z (lastUpdateTime s) - inject_Z 0))%Q.
Proof.
  let r := eval vm_compute in
             (main (ops := Qfloat taylor_libm) gemquest_map 0 full_play) in
  match r with
  | Ret ?s =>
      exists s;
      assert (Hrun : main (ops := Qfloat taylor_libm) gemquest_map 0 full_play
                     = Ret s) by (vm_compute; reflexivity);
      split; [exact Hrun|];
      exact (item_rotation_by_elapsed_time taylor_libm gemquest_map 0
               full_play s Hrun)
  end.
Defined.

Lemma glutMainLoop_mainLoopLeft {F : Type} {ops : FloatOps F}
    (M : MapDefinition) (events : list Event) (s s' : GameState F) :
  glutMainLoop M events s = Ret s' ->
  mainLoopLeft s' = false -> mainLoopLeft s = false.
Proof.
  intros H Hleft. destruct (mainLoopLeft s) eqn:E; [|reflexivity].
  rewrite (glutMainLoop_left M events s E) in H. injection H as <-.
  congruence.
Qed.

Lemma ItemState_value_Dropped (st : ItemState) :
  ItemState_value Dropped <= ItemState_value st -> st = Dropped.
Proof. destruct st; simpl; intro; try lia; reflexivity. Qed.

(** The fade-out depends on the elapsed time only: once the item is
    dropped, and as long as the main loop is not left, the brightness has
    gone down by one half for every second since. *)
Theorem fade_out_by_elapsed_time (L : Libm) (M : MapDefinition)
    (events : list Event) :
  forall s s' : GameState Q,
    isLoaded s = true ->
    itemState s = Dropped ->
    glutMainLoop (ops := Qfloat L) M events s = Ret s' ->
    mainLoopLeft s' = false ->
    (gameBrightness s'
     == gameBrightness s
        - (inject_Z (lastUpdateTime s') - inject_Z (lastUpdateTime s)) / 2000)%Q.
Proof.
  induction events as [|e events IH]; intros s s' Hloaded Hs H Hleft;
    simpl in H.
  - injection H as <-. field.
  - destruct (mainLoopLeft s) eqn:Hleft0.
    + injection H as <-. field.
    + apply bind_Ret_inv in H. destruct H as (s1 & H1 & H).
      pose proof (glutMainLoop_mainLoopLeft M events s1 s' H Hleft) as Hleft1.
      assert (Hs1 : itemState s1 = Dropped).
      { apply ItemState_value_Dropped. rewrite <- Hs.
        exact (dispatch_item_state_monotone M e s s1 H1). }
      assert (Hloaded1 : isLoaded s1 = true).
      { rewrite (dispatch_isLoaded M e s s1 H1). exact Hloaded. }
      rewrite (IH s1 s' Hloaded1 Hs1 H Hleft).
      destruct e as [key|key|mx mz|w h|t];
        try (other_world H1 Hs';
             destruct Hs' as (_ & _ & _ & Hb & Hl & _); rewrite Hb, Hl;
             reflexivity).
      cbn [dispatch] in H1.
      assert (Hpos : (0 < gameBrightness s)%Q).
      { destruct (Qlt_le_dec 0 (gameBrightness s)) as [Hpos|Hneg];
          [exact Hpos|].
        exfalso.
        assert (E : mainLoopLeft s1 = true).
        { apply (Game_onUpdate_mainLoopLeft M t s s1 H1 Hleft0).
          split; [exact Hloaded|]. split; [exact Hs|].
          cbn [fltb fconst Qfloat]. change (Qred 0) with 0%Q.
          apply Qle_bool_iff in Hneg. rewrite Hneg. reflexivity. }
        congruence. }
      apply Game_onUpdate_Ret_inv in H1.
      destruct H1 as (Hb & _ & _ & _ & Hl & _).
      cbn [of_int fdiv Qfloat] in Hb.
      pose proof (update_brightness_Q L (itemState s) (gameBrightness s)
                    (Qred (inject_Z (t - lastUpdateTime s) / inject_Z 1000)))
        as Hu.
      rewrite Hs in Hu. destruct Hu as (Hu & _).
      rewrite Hb, Hs, (Hu Hpos), Hl.
      rewrite deltaSeconds_Q. field.
Qed.

Lemma fade_out_by_elapsed_time_witness :
  exists s s' : GameState Q,
    play (window_ready ++ walk_to_item ++ pick_up ++ walk_to_goal ++ drop)
    = Ret s
    /\ glutMainLoop (ops := Qfloat taylor_libm) gemquest_map
         (updates_every_30ms 11050 10) s = Ret s'
    /\ (gameBrightness s'
        == gameBrightness s
           - (inject_Z (lastUpdateTime s') - inject_Z (lastUpdateTime s))
             / 2000)%Q.
Proof.
  let r := eval vm_compute in
             (play (window_ready ++ walk_to_item ++ pick_up ++ walk_to_goal
                    ++ drop)) in
  match r with
  | Ret ?s =>
      exists s;
      let r' := eval vm_compute in
                  (glutMainLoop (ops := Qfloat taylor_libm) gemquest_map
                     (updates_every_30ms 11050 10) s) in
      match r' with
      | Ret ?s' =>
          exists s';
          assert (Hrun : glutMainLoop (ops := Qfloat taylor_libm) gemquest_map
                           (updates_every_30ms 11050 10) s = Ret s')
            by (vm_compute; reflexivity);
          split; [vm_compute; reflexivity|];
          split; [exact Hrun|];
          exact (fade_out_by_elapsed_time taylor_libm gemquest_map
                   (updates_every_30ms 11050 10) s s' eq_refl eq_refl Hrun
                   eq_refl)
      end
  end.
Defined.

(* ================================================================== *)
(** * Friction and rest *)
(* ================================================================== *)

Lemma Qred_zero (q : Q) : (q == 0)%Q -> Qred q = 0%Q.
Proof. intro H. apply (Qred_complete q 0 H). Qed.

(** Without a direction key the raw acceleration is zero, whatever
    [sqrt(0)] is taken to be. *)
Lemma axis_accerlation_no_keys (L : Libm) (i : Input) :
  inputForward i = false -> inputRight i = false ->
  inputBackwards i = false -> inputLeft i = false ->
  axis_accerlation (ops := Qfloat L) i = (0%Q, 0%Q).
Proof.
  intros Hf Hr Hb Hl. unfold axis_accerlation. rewrite Hf, Hr, Hb, Hl.
  cbn [fsub fdiv of_int fconst Qfloat].
  change (Qred (inject_Z 0 - inject_Z 0)) with 0%Q.
  match goal with
  | |- (if ?c then _ else _) = _ => destruct c; [|reflexivity]
  end.
  rewrite Qred_zero; [reflexivity|].
  unfold Qdiv. apply Qmult_0_l.
Qed.

Lemma added_accerlation_no_keys (L : Libm) (i : Input) (yaw dt : Q) :
  inputForward i = false -> inputRight i = false ->
  inputBackwards i = false -> inputLeft i = false ->
  added_accerlation (ops := Qfloat L) i yaw dt = (0%Q, 0%Q).
Proof.
  intros Hf Hr Hb Hl. unfold added_accerlation, rotated_accerlation.
  rewrite (axis_accerlation_no_keys L i Hf Hr Hb Hl).
  cbn [fadd fsub fmul Qfloat].
  set (c := fcos _). set (sn := fsin _). set (k := Qred (dt * _)).
  rewrite (Qred_zero (0 * c)) by apply Qmult_0_l.
  rewrite (Qred_zero (0 * sn)) by apply Qmult_0_l.
  change (Qred (0 - 0)) with 0%Q. change (Qred (0 + 0)) with 0%Q.
  rewrite (Qred_zero (0 * k)) by apply Qmult_0_l.
  reflexivity.
Qed.

Lemma candidate_accerlation_no_keys (L : Libm) (t : Z) (s : GameState Q) :
  inputForward (input s) = false -> inputRight (input s) = false ->
  inputBackwards (input s) = false -> inputLeft (input s) = false ->
  let factor :=
    (1 - 5 * ((inject_Z t - inject_Z (lastUpdateTime s)) / 1000))%Q in
  (fst (candidate_accerlation (ops := Qfloat L) t s)
   == playerAccerlationX (player s) * factor)%Q
  /\ (snd (candidate_accerlation (ops := Qfloat L) t s)
      == playerAccerlationZ (player s) * factor)%Q.
Proof.
  intros Hf Hr Hb Hl factor. unfold candidate_accerlation.
  rewrite (added_accerlation_no_keys L (input s) _ _ Hf Hr Hb Hl).
  unfold apply_friction, PLAYER_FRICTION.
  cbn [fst snd fadd fsub fmul fdiv of_int fconst Qfloat].
  rewrite !Qred_correct, inject_Z_sub. unfold factor.
  change (inject_Z 1000) with 1000%Q.
  split; field.
Qed.

(** Without a direction key the update adds nothing to the horizontal
    displacement, whatever the player's rotation: the displacement that the
    update tries is the old one times [1 - 5 * deltaSeconds].  For updates
    up to 400 milliseconds apart the displacement does not grow (and an
    update after exactly 200 milliseconds brings the player to rest); for
    longer pauses the factor is below -1. *)
Theorem friction_without_input (L : Libm) (t : Z) (s : GameState Q) :
  inputForward (input s) = false -> inputRight (input s) = false ->
  inputBackwards (input s) = false -> inputLeft (input s) = false ->
  let factor :=
    (1 - 5 * ((inject_Z t - inject_Z (lastUpdateTime s)) / 1000))%Q in
  (fst (candidate_accerlation (ops := Qfloat L) t s)
   == playerAccerlationX (player s) * factor)%Q
  /\ (snd (candidate_accerlation (ops := Qfloat L) t s)
      == playerAccerlationZ (player s) * factor)%Q
  /\ (lastUpdateTime s <= t <= lastUpdateTime s + 400 ->
      (Qabs (fst (candidate_accerlation (ops := Qfloat L) t s))
       <= Qabs (playerAccerlationX (player s)))%Q
      /\ (Qabs (snd (candidate_accerlation (ops := Qfloat L) t s))
          <= Qabs (playerAccerlationZ (player s)))%Q).
Proof.
  intros Hf Hr Hb Hl factor.
  destruct (candidate_accerlation_no_keys L t s Hf Hr Hb Hl) as (Hx & Hz).
  fold factor in Hx, Hz.
  split; [exact Hx|]. split; [exact Hz|].
  intros (Hlo & Hhi).
  assert (Hfactor : (Qabs factor <= 1)%Q).
  { apply Qabs_Qle_condition. unfold factor.
    rewrite Zle_Qle in Hlo, Hhi. rewrite inject_Z_plus in Hhi.
    change (inject_Z 400) with 400%Q in Hhi.
    set (a := inject_Z t) in *. set (b := inject_Z (lastUpdateTime s)) in *.
    change ((a - b) / 1000)%Q with ((a - b) * (1 # 1000))%Q.
    split; lra. }
  assert (Hshrink : forall v : Q, (Qabs (v * factor) <= Qabs v)%Q).
  { intro v. rewrite Qabs_Qmult.
    apply Qle_trans with (Qabs v * 1)%Q;
      [|rewrite Qmult_1_r; apply Qle_refl].
    rewrite (Qmult_comm (Qabs v) (Qabs factor)), (Qmult_comm (Qabs v) 1).
    apply Qmult_le_compat_r; [exact Hfactor | apply Qabs_nonneg]. }
  rewrite Hx, Hz. split; apply Hshrink.
Qed.

Lemma friction_without_input_witness :
  exists s : GameState Q,
    play (window_ready ++ [KeyboardDown "w"; Update 30; KeyboardUp "w"]) = Ret s
    /\ (let factor :=
          (1 - 5 * ((inject_Z 60 - inject_Z (lastUpdateTime s)) / 1000))%Q in
        (fst (candidate_accerlation (ops := Qfloat taylor_libm) 60 s)
         == playerAccerlationX (player s) * factor)%Q
        /\ (snd (candidate_accerlation (ops := Qfloat taylor_libm) 60 s)
            == playerAccerlationZ (player s) * factor)%Q
        /\ (lastUpdateTime s <= 60 <= lastUpdateTime s + 400 ->
            (Qabs (fst (candidate_accerlation (ops := Qfloat taylor_libm) 60 s))
             <= Qabs (playerAccerlationX (player s)))%Q
            /\ (Qabs (snd (candidate_accerlation (ops := Qfloat taylor_libm) 60 s))
                <= Qabs (playerAccerlationZ (player s)))%Q)).
Proof.
  let r := eval vm_compute in
             (play (window_ready ++ [KeyboardDown "w"; Update 30; KeyboardUp "w"])) in
  match r with
  | Ret ?s =>
      exists s;
      split; [vm_compute; reflexivity|];
      exact (friction_without_input taylor_libm 60 s
               eq_refl eq_refl eq_refl eq_refl)
  end.
Defined.

Lemma resolve_collision_at_rest (L : Libm) (M : MapDefinition)
    (px pz cx cz : Q) (r : Q * Q * Q * Q) :
  (cx == 0)%Q -> (cz == 0)%Q ->
  resolve_collision (ops := Qfloat L) M px pz cx cz = Ret r ->
  (fst (fst (fst r)) == px)%Q /\ (snd (fst (fst r)) == pz)%Q
  /\ (snd (fst r) == 0)%Q /\ (snd r == 0)%Q.
Proof.
  intros Hcx Hcz H. apply resolve_collision_Ret_inv in H.
  destruct H as (f & _ & Hkeep & Hturn).
  destruct (Z_le_gt_dec (Field_value f) 0) as [Hle|Hgt].
  - rewrite (Hkeep Hle). cbn [fst snd]. unfold fadd, Qfloat.
    rewrite !Qred_correct, Hcx, Hcz. repeat split; ring.
  - assert (Hpos : 0 < Field_value f) by lia.
    rewrite (Hturn Hpos). cbn [fst snd]. unfold fadd, fneg, Qfloat.
    rewrite !Qred_correct, Hcx, Hcz. repeat split; ring.
Qed.

Lemma update_vertical_at_rest (L : Libm) (y vy dt : Q) :
  (0 <= y)%Q -> (y <= 1 # 100)%Q -> (vy == 0)%Q ->
  update_vertical (ops := Qfloat L) y vy false dt = 0%Q
  /\ (MAX (ops := Qfloat L) (of_int (FloatOps := Qfloat L) 0)
        (fadd (FloatOps := Qfloat L) y 0) == y)%Q.
Proof.
  intros Hy0 Hy1 Hvy. split.
  - unfold update_vertical, CALCULATION_TRESHOLD.
    unfold fltb, fabsf, fconst, of_int, Qfloat.
    change (Qred (1 # 100)) with (1 # 100)%Q.
    apply Qle_bool_iff in Hy1. rewrite Hy1. cbn [negb].
    assert (Habs : Qle_bool (Qred (Qabs vy)) (1 # 100) = true).
    { apply Qle_bool_iff. rewrite Qred_correct, Hvy. discriminate. }
    rewrite Habs. reflexivity.
  - unfold MAX. unfold fltb, fadd, of_int, Qfloat.
    change (inject_Z 0) with 0%Q.
    assert (Hge : Qle_bool 0 (Qred (y + 0)) = true).
    { apply Qle_bool_iff. rewrite Qred_correct. lra. }
    rewrite Hge. cbn [negb]. rewrite Qred_correct. ring.
Qed.

Lemma update_rotation_at_rest (L : Libm) (s : GameState Q) (b dt : Q) :
  (playerRotationAccerlationX (player s) == 0)%Q ->
  (playerRotationAccerlationY (player s) == 0)%Q ->
  (currentMouseX s == inject_Z (currentWindowWidth s) / 2)%Q ->
  (currentMouseY s == inject_Z (currentWindowHeight s) / 2)%Q ->
  let r := update_rotation (ops := Qfloat L) s b dt in
  (fst (fst (fst r)) == 0)%Q /\ (snd (fst (fst r)) == 0)%Q
  /\ (snd (fst r) == playerRotationX (player s))%Q
  /\ (snd r == playerRotationY (player s))%Q.
Proof.
  intros Hrx Hry Hmx Hmy r. unfold r, update_rotation, MOUSE_SPEED,
    MOUSE_FRICTION.
  cbn [fst snd]. unfold fadd, fsub, fmul, fdiv, fconst, of_int, Qfloat.
  repeat split; repeat rewrite Qred_correct;
    rewrite ?Hrx, ?Hry, ?Hmx, ?Hmy; field.
Qed.

(** A player at rest stays at rest: with no direction key and no jump
    input, no displacement and no rotation speed, the pointer at the centre
    of the window and the player on the floor, an update that returns
    leaves the position and the rotation where they are and the
    displacements at zero, whatever the time step and whatever the
    functions of [math.h] return. *)
Theorem player_at_rest_stays_at_rest (L : Libm) (M : MapDefinition) (t : Z)
    (s s' : GameState Q) :
  inputForward (input s) = false -> inputRight (input s) = false ->
  inputBackwards (input s) = false -> inputLeft (input s) = false ->
  inputJump (input s) = false ->
  (playerAccerlationX (player s) == 0)%Q ->
  (playerAccerlationY (player s) == 0)%Q ->
  (playerAccerlationZ (player s) == 0)%Q ->
  (playerRotationAccerlationX (player s) == 0)%Q ->
  (playerRotationAccerlationY (player s) == 0)%Q ->
  (currentMouseX s == inject_Z (currentWindowWidth s) / 2)%Q ->
  (currentMouseY s == inject_Z (currentWindowHeight s) / 2)%Q ->
  (0 <= playerY (player s))%Q -> (playerY (player s) <= 1 # 100)%Q ->
  Game_onUpdate (ops := Qfloat L) M t s = Ret s' ->
  (playerX (player s') == playerX (player s))%Q
  /\ (playerY (player s') == playerY (player s))%Q
  /\ (playerZ (player s') == playerZ (player s))%Q
  /\ (playerRotationX (player s') == playerRotationX (player s))%Q
  /\ (playerRotationY (player s') == playerRotationY (player s))%Q
  /\ (playerAccerlationX (player s') == 0)%Q
  /\ (playerAccerlationY (player s') == 0)%Q
  /\ (playerAccerlationZ (player s') == 0)%Q
  /\ (playerRotationAccerlationX (player s') == 0)%Q
  /\ (playerRotationAccerlationY (player s') == 0)%Q.
Proof.
  intros Hf Hr Hb Hl Hj Hvx Hvy Hvz Hrx Hry Hmx Hmy Hy0 Hy1 H.
  pose proof (Game_onUpdate_Ret_fields M t s s' H) as Hfields.
  cbv zeta in Hfields.
  destruct Hfields as (_ & _ & Hrot & Hay & Hy & _).
  apply Game_onUpdate_Ret_inv in H. destruct H as (_ & _ & Hcol & _).
  destruct (candidate_accerlation_no_keys L t s Hf Hr Hb Hl) as (Hcx & Hcz).
  cbv zeta in Hcx, Hcz. rewrite Hvx in Hcx. rewrite Hvz in Hcz.
  rewrite Qmult_0_l in Hcx, Hcz.
  destruct (resolve_collision_at_rest L M _ _ _ _ _ Hcx Hcz Hcol)
    as (Hpx & Hpz & Hax & Haz).
  cbn [fst snd] in Hpx, Hpz, Hax, Haz.
  destruct (update_vertical_at_rest L (playerY (player s))
              (playerAccerlationY (player s))
              (fdiv (FloatOps := Qfloat L)
                 (of_int (FloatOps := Qfloat L) (t - lastUpdateTime s))
                 (of_int (FloatOps := Qfloat L) 1000))
              Hy0 Hy1 Hvy) as (Hvertical & Hheight).
  rewrite Hj, Hvertical in Hay. rewrite Hay in Hy.
  match type of Hrot with
  | _ = update_rotation _ ?b ?dt =>
      pose proof (update_rotation_at_rest L s b dt Hrx Hry Hmx Hmy) as Hrest
  end.
  cbv zeta in Hrest. rewrite <- Hrot in Hrest. cbn [fst snd] in Hrest.
  destruct Hrest as (Hrax & Hray & Hrotx & Hroty).
  split; [exact Hpx|]. split; [rewrite Hy; exact Hheight|].
  split; [exact Hpz|]. split; [exact Hrotx|]. split; [exact Hroty|].
  split; [exact Hax|]. split; [rewrite Hay; reflexivity|].
  split; [exact Haz|]. split; [exact Hrax | exact Hray].
Qed.

Lemma player_at_rest_stays_at_rest_witness :
  exists s s' : GameState Q,
    play window_ready = Ret s
    /\ Game_onUpdate (ops := Qfloat taylor_libm) gemquest_map 30 s = Ret s'
    /\ (playerX (player s') == playerX (player s))%Q
    /\ (playerY (player s') == playerY (player s))%Q
    /\ (playerZ (player s') == playerZ (player s))%Q
    /\ (playerRotationX (player s') == playerRotationX (player s))%Q
    /\ (playerRotationY (player s') == playerRotationY (player s))%Q
    /\ (playerAccerlationX (player s') == 0)%Q
    /\ (playerAccerlationY (player s') == 0)%Q
    /\ (playerAccerlationZ (player s') == 0)%Q
    /\ (playerRotationAccerlationX (player s') == 0)%Q
    /\ (playerRotationAccerlationY (player s') == 0)%Q.
Proof.
  let r := eval vm_compute in (play window_ready) in
  match r with
  | Ret ?s =>
      exists s;
      let r' := eval vm_compute in
                  (Game_onUpdate (ops := Qfloat taylor_libm) gemquest_map 30 s) in
      match r' with
      | Ret ?s' =>
          exists s';
          assert (Hupdate : Game_onUpdate (ops := Qfloat taylor_libm)
                              gemquest_map 30 s = Ret s')
            by (vm_compute; reflexivity);
          split; [vm_compute; reflexivity|];
          split; [exact Hupdate|];
          apply (player_at_rest_stays_at_rest taylor_libm gemquest_map 30 s s');
          try exact Hupdate; try reflexivity; vm_compute; discriminate
      end
  end.
Defined.

(* ================================================================== *)
(** * The speed that the input can add *)
(* ================================================================== *)

Lemma normalised_square (x z : R) :
  let n := R_sqrt.sqrt (x * x + z * z) in
  let a := if Rlt_dec 1 (Rabs n) then ((x / n)%R, (z / n)%R) else (x, z) in
  (fst a * fst a + snd a * snd a <= 1)%R.
Proof.
  intros n a.
  assert (Hq : (0 <= x * x + z * z)%R) by Lra.nra.
  assert (Hn : (0 <= n)%R) by apply sqrt_pos.
  assert (Hnn : (n * n = x * x + z * z)%R) by (apply sqrt_sqrt; exact Hq).
  unfold a. rewrite (Rabs_pos_eq n Hn).
  destruct (Rlt_dec 1 n) as [Hgt|Hle]; cbn [fst snd].
  - assert (Hne : (n <> 0)%R) by Lra.lra.
    replace (x / n * (x / n) + z / n * (z / n))%R
      with ((x * x + z * z) / (n * n))%R by (field; exact Hne).
    rewrite <- Hnn. right. field. exact Hne.
  - rewrite <- Hnn. Lra.nra.
Qed.

Lemma axis_accerlation_square (i : Input) :
  let a := axis_accerlation (ops := Rfloat) i in
  (fst a * fst a + snd a * snd a <= 1)%R.
Proof.
  unfold axis_accerlation, pow2.
  cbn [fconst of_int fsub fadd fmul fdiv fltb fabsf fsqrt Rfloat].
  rewrite Q2R_1.
  set (x := ((if inputRight i then 1 else 0) - (if inputLeft i then 1 else 0))%R).
  set (z := ((if inputForward i then 1 else 0)
             - (if inputBackwards i then 1 else 0))%R).
  pose proof (normalised_square x z) as H. cbv zeta in H.
  destruct (Rlt_dec 1 (Rabs (R_sqrt.sqrt (x * x + z * z)))); exact H.
Qed.

Lemma added_accerlation_capped (i : Input) (yaw dt : R) :
  (magnitude (axis_accerlation (ops := Rfloat) i) <= 1)%R
  /\ (magnitude (added_accerlation (ops := Rfloat) i yaw dt)
      <= Rabs dt * Q2R (2 # 10))%R.
Proof.
  pose proof (axis_accerlation_square i) as Ha. cbv zeta in Ha.
  pose proof (added_accerlation_square i yaw dt) as Hv. cbv zeta in Hv.
  set (a := axis_accerlation (ops := Rfloat) i) in *.
  set (v := added_accerlation (ops := Rfloat) i yaw dt) in *.
  assert (Haa : (0 <= fst a * fst a + snd a * snd a)%R) by Lra.nra.
  assert (Hmag : (magnitude a <= 1)%R).
  { unfold magnitude. rewrite <- sqrt_1. apply sqrt_le_1_alt. exact Ha. }
  split; [exact Hmag|].
  assert (Hk : (0 < Q2R (2 # 10))%R).
  { unfold Q2R. cbn [Qnum Qden]. apply Rmult_lt_0_compat; [Lra.lra|].
    apply Rinv_0_lt_compat. Lra.lra. }
  unfold magnitude in *. rewrite Hv.
  rewrite sqrt_mult_alt by exact Haa.
  replace (dt * Q2R (2 # 10) * (dt * Q2R (2 # 10)))%R
    with (Rsqr (dt * Q2R (2 # 10))) by (unfold Rsqr; ring).
  rewrite sqrt_Rsqr_abs, Rabs_mult, (Rabs_pos_eq (Q2R (2 # 10))) by Lra.lra.
  assert (Hnn : (0 <= Rabs dt * Q2R (2 # 10))%R).
  { apply Rmult_le_pos; [apply Rabs_pos | Lra.lra]. }
  rewrite <- (Rmult_1_l (Rabs dt * Q2R (2 # 10))) at 2.
  apply Rmult_le_compat_r; [exact Hnn | exact Hmag].
Qed.

(** Whatever keys are held, the raw acceleration has at most the length 1,
    and what an update adds to the horizontal displacement has at most the
    length [0.2 * |deltaSeconds|]: holding two direction keys does not make
    the player faster than holding one. *)
Theorem input_speed_is_capped (i : Input) (yaw dt : R) :
  (magnitude (axis_accerlation (ops := Rfloat) i) <= 1)%R
  /\ (magnitude (added_accerlation (ops := Rfloat) i yaw dt)
      <= Rabs dt * Q2R (2 # 10))%R.
Proof.
  exact (added_accerlation_capped i yaw dt).
Qed.

(* ================================================================== *)
(** * Meshes *)
(* ================================================================== *)

(** [BufferedMesh_create] accepts a length exactly when it is a multiple of
    the six floats of a vertex.  For a length that is accepted and not
    negative, the vertex count times six is the length again; a negative
    multiple of six is accepted as well, and its vertex count wraps around
    in [unsigned int]. *)
Theorem BufferedMesh_create_vertexCount (arrayLength : Z) :
  INT_MIN <= arrayLength <= INT_MAX ->
  match BufferedMesh_create arrayLength with
  | Ret vertexCount =>
      Z.rem arrayLength FLOATS_PER_VERTEX = 0
      /\ (0 <= arrayLength -> vertexCount * FLOATS_PER_VERTEX = arrayLength)
      /\ (arrayLength < 0 ->
          vertexCount * FLOATS_PER_VERTEX
          = arrayLength + FLOATS_PER_VERTEX * 2 ^ 32)
  | Terminated applicationStage _ =>
      applicationStage = "BUFFEREDMESH_CREATION"%string
      /\ Z.rem arrayLength FLOATS_PER_VERTEX <> 0
  | Undefined | OutOfFuel => False
  end.
Proof.
  unfold BufferedMesh_create, Common_terminate, FLOATS_PER_VERTEX, INT_MIN,
    INT_MAX.
  intros Hrange.
  destruct (Z.eqb_spec (Z.rem arrayLength 6) 0) as [Hrem|Hrem]; cbn [negb].
  - pose proof (Z.quot_rem' arrayLength 6) as Hq. rewrite Hrem in Hq.
    split; [exact Hrem|]. split; intro Hsign.
    + rewrite Z.mod_small; lia.
    + assert (Hneg : - 2 ^ 32 <= Z.quot arrayLength 6 < 0) by lia.
      replace (Z.quot arrayLength 6)
        with ((Z.quot arrayLength 6 + 2 ^ 32) + (-1) * 2 ^ 32) by ring.
      rewrite Z.mod_add by lia. rewrite Z.mod_small; lia.
  - split; [reflexivity | exact Hrem].
Qed.

Lemma BufferedMesh_create_vertexCount_witness :
  match BufferedMesh_create 36 with
  | Ret vertexCount =>
      Z.rem 36 FLOATS_PER_VERTEX = 0
      /\ (0 <= 36 -> vertexCount * FLOATS_PER_VERTEX = 36)
      /\ (36 < 0 ->
          vertexCount * FLOATS_PER_VERTEX = 36 + FLOATS_PER_VERTEX * 2 ^ 32)
  | Terminated applicationStage _ =>
      applicationStage = "BUFFEREDMESH_CREATION"%string
      /\ Z.rem 36 FLOATS_PER_VERTEX <> 0
  | Undefined | OutOfFuel => False
  end.
Proof.
  apply (BufferedMesh_create_vertexCount 36). unfold INT_MIN, INT_MAX. lia.
Defined.

(* ================================================================== *)
(** * Counting loops *)
(* ================================================================== *)

Lemma In_indices (n i : Z) : In i (indices n) <-> 0 <= i < n.
Proof.
  unfold indices. rewrite in_map_iff. split.
  - intros (j & <- & Hj). apply in_seq in Hj. lia.
  - intros Hi. exists (Z.to_nat i). split; [lia|]. apply in_seq. lia.
Qed.

(** A loop [for (int i = k; i < n; i++)] with enough fuel runs its body over
    the indices from [k] up to [n - 1]. *)
Lemma for_loop_from {A : Type} (n : Z) (body : Z -> A -> outcome A) :
  forall (m : nat) (k : Z) (a : A),
    m = Z.to_nat (n - k) ->
    (v <- while_loop (m + 1)
            (fun '(i, _) => i <? n)
            (fun '(i, a) => a' <- body i a ;; Ret (i + 1, a'))
            (k, a) ;;
     Ret (snd v))
    = fold_outcome body (List.map (fun j => k + Z.of_nat j) (seq 0 m)) a.
Proof.
  induction m as [|m IH]; intros k a Hm.
  - cbn [Nat.add while_loop seq List.map fold_outcome].
    destruct (Z.ltb_spec k n) as [Hlt|Hge]; [lia|]. reflexivity.
  - replace (S m + 1)%nat with (S (m + 1)) by lia.
    cbn [while_loop seq List.map fold_outcome].
    destruct (Z.ltb_spec k n) as [Hlt|Hge]; [|lia].
    replace (k + Z.of_nat 0) with k by lia.
    destruct (body k a) as [a'| | |]; cbn [bind]; try reflexivity.
    rewrite (IH (k + 1) a') by lia.
    f_equal. rewrite <- seq_shift, List.map_map.
    apply List.map_ext. intro j. lia.
Qed.

Lemma for_loop_indices {A : Type} (n : Z) (body : Z -> A -> outcome A)
    (a : A) :
  (v <- while_loop (Z.to_nat n + 1)
          (fun '(i, _) => i <? n)
          (fun '(i, a) => a' <- body i a ;; Ret (i + 1, a'))
          (0, a) ;;
   Ret (snd v))
  = fold_outcome body (indices n) a.
Proof.
  rewrite (for_loop_from n body (Z.to_nat n) 0 a) by (f_equal; lia).
  reflexivity.
Qed.

Lemma fold_outcome_invariant {A : Type} (P : A -> Prop)
    (body : Z -> A -> outcome A) (l : list Z) :
  (forall i b b', In i l -> P b -> body i b = Ret b' -> P b') ->
  forall a a', P a -> fold_outcome body l a = Ret a' -> P a'.
Proof.
  induction l as [|i l IH]; intros Hbody a a' Ha H; cbn [fold_outcome] in H.
  - injection H as <-. exact Ha.
  - apply bind_Ret_inv in H. destruct H as (a1 & H1 & H).
    apply (IH (fun j b b' Hj => Hbody j b b' (or_intror Hj)) a1 a');
      [|exact H].
    exact (Hbody i a a1 (or_introl eq_refl) Ha H1).
Qed.

Lemma fold_outcome_total {A : Type} (body : Z -> A -> outcome A)
    (l : list Z) :
  (forall i b, In i l -> exists b', body i b = Ret b') ->
  forall a, exists a', fold_outcome body l a = Ret a'.
Proof.
  induction l as [|i l IH]; intros Hbody a; cbn [fold_outcome].
  - exists a. reflexivity.
  - destruct (Hbody i a (or_introl eq_refl)) as (a1 & H1). rewrite H1.
    cbn [bind]. apply IH. intros j b Hj. apply Hbody. right. exact Hj.
Qed.

(** What the body establishes at one index of the list, and every later
    run of the body keeps, holds at the end. *)
Lemma fold_outcome_reaches {A : Type} (P : A -> Prop)
    (body : Z -> A -> outcome A) (l : list Z) (i : Z) :
  (forall j b b', body j b = Ret b' -> P b -> P b') ->
  (forall b b', body i b = Ret b' -> P b') ->
  In i l ->
  forall a a', fold_outcome body l a = Ret a' -> P a'.
Proof.
  intros Hkeep Hset. induction l as [|j l IH]; intros Hin a a' H;
    [destruct Hin|].
  cbn [fold_outcome] in H.
  apply bind_Ret_inv in H. destruct H as (a1 & H1 & H).
  destruct Hin as [->|Hin].
  - apply (fold_outcome_invariant P body l
             (fun k b b' _ Hb Hk => Hkeep k b b' Hk Hb) a1 a');
      [|exact H].
    exact (Hset a a1 H1).
  - exact (IH Hin a1 a' H).
Qed.

(* ================================================================== *)
(** * The redraw callback *)
(* ================================================================== *)

Section Redraw.

Context {F : Type} {ops : FloatOps F}.
Variable M : MapDefinition.
Variable s : GameState F.
Variable meshRotationTransformation : Matrix4x4 F.

Lemma draw_fields_z_indices (x : Z) (fr : Frame F) :
  draw_fields_z M s meshRotationTransformation x fr
  = fold_outcome (fun z fr => draw_field M s meshRotationTransformation x z fr)
      (indices (mapDepth M)) fr.
Proof.
  exact (for_loop_indices (mapDepth M)
           (fun z fr => draw_field M s meshRotationTransformation x z fr) fr).
Qed.

Lemma draw_fields_indices (fr : Frame F) :
  draw_fields M s meshRotationTransformation fr
  = fold_outcome (fun x fr => draw_fields_z M s meshRotationTransformation x fr)
      (indices (mapWidth M)) fr.
Proof.
  exact (for_loop_indices (mapWidth M)
           (fun x fr => draw_fields_z M s meshRotationTransformation x fr) fr).
Qed.

(** The two branches of the loop body. *)
Lemma draw_field_Ret_inv (x z : Z) (fr fr' : Frame F) :
  draw_field M s meshRotationTransformation x z fr = Ret fr' ->
  ((distanceOpacity s x z <? EPSILON)%float = true /\ fr' = fr)
  \/ ((distanceOpacity s x z <? EPSILON)%float = false
      /\ exists f,
           array_read (map M) (x * mapDepth M + z) = Ret f
           /\ fr'
              = draw_meshes s meshRotationTransformation x z f
                  (ShaderProgram_setUniformValue_float uniformLocation_opacity
                     (distanceOpacity s x z) fr)).
Proof.
  unfold draw_field.
  destruct (distanceOpacity s x z <? EPSILON)%float; intro H.
  - left. injection H as <-. auto.
  - right. split; [reflexivity|].
    apply bind_Ret_inv in H. destruct H as (f & Hf & H).
    exists f. injection H as <-. auto.
Qed.

(** What [draw_meshes] appends to the frame. *)
Lemma draw_meshes_drawn (x z : Z) (f : Field) (fr : Frame F) :
  let fr' := draw_meshes s meshRotationTransformation x z f fr in
  let translation :=
    Matrix4x4_createTranslation (of_int x) (of_int 0) (of_int z) in
  base_uniforms (uniforms fr') = base_uniforms (uniforms fr)
  /\ exists l,
       drawn fr' = drawn fr ++ l
       /\ Forall
            (fun d =>
               base_uniforms (snd d) = base_uniforms (uniforms fr)
               /\ uniform_opacity (snd d) = uniform_opacity (uniforms fr)
               /\ match fst d with
                  | skyboxMesh => False
                  | floorMesh =>
                      f <> Wall /\ uniform_model (snd d) = translation
                  | archMesh => f = Arch /\ uniform_model (snd d) = translation
                  | wallMesh => f = Wall /\ uniform_model (snd d) = translation
                  | tubeMesh => f = Goal /\ uniform_model (snd d) = translation
                  | crystalMesh =>
                      ((f = Item /\ itemState s = Initial)
                       \/ (f = Goal /\ itemState s = Dropped))
                      /\ uniform_model (snd d)
                         = Matrix4x4_multiply translation
                             meshRotationTransformation
                  end) l
       /\ exists u,
            In ((if Field_eqb f Wall then wallMesh else floorMesh), u) l
            /\ uniform_model u = translation
            /\ uniform_opacity u = uniform_opacity (uniforms fr).
Proof.
  cbv zeta. unfold draw_meshes, Game_getMapFieldPositionByIndicies.
  destruct (itemState s) eqn:Hs; destruct f;
    cbn [Field_eqb Field_value ItemState_eqb ItemState_value Z.eqb Pos.eqb
         negb andb BufferedMesh_draw ShaderProgram_setUniformValue_Matrix4x4
         uniforms drawn];
    (split; [reflexivity|]);
    rewrite <- ?app_assoc; cbn [app];
    (eexists; split; [reflexivity|]);
    (split;
     [repeat (apply Forall_cons || apply Forall_nil);
      cbn [fst snd uniform_model uniform_opacity base_uniforms uniform_view
           uniform_brightness uniform_currentTimeMs];
      (split; [reflexivity|]); (split; [reflexivity|]);
      (split; [|reflexivity]);
      first [discriminate | reflexivity | (left; split; reflexivity)
            | (right; split; reflexivity)]
     |eexists; split; [left; reflexivity|];
      cbn [uniform_model uniform_opacity]; split; reflexivity]).
Qed.

Lemma draw_field_step (before : list (Mesh * Uniforms F))
    (base : Matrix4x4 F * F * F) (x z : Z) (fr fr' : Frame F) :
  0 <= x < mapWidth M -> 0 <= z < mapDepth M ->
  fields_drawn M s meshRotationTransformation before base fr ->
  draw_field M s meshRotationTransformation x z fr = Ret fr' ->
  fields_drawn M s meshRotationTransformation before base fr'.
Proof.
  intros Hx Hz (Hbase & l & Hl & Hall) H.
  apply draw_field_Ret_inv in H.
  destruct H as [(_ & ->)|(Hvisible & f & Hf & ->)].
  - split; [exact Hbase|]. exists l. split; assumption.
  - pose proof (draw_meshes_drawn x z f
                  (ShaderProgram_setUniformValue_float uniformLocation_opacity
                     (distanceOpacity s x z) fr)) as Hm.
    cbv zeta in Hm. destruct Hm as (Hb & l' & Hl' & Hall' & _).
    assert (Hbase' :
      base_uniforms
        (uniforms (ShaderProgram_setUniformValue_float uniformLocation_opacity
                     (distanceOpacity s x z) fr)) = base)
      by (rewrite <- Hbase; reflexivity).
    split; [rewrite Hb; exact Hbase'|].
    exists (l ++ l'). split.
    + rewrite Hl'. cbn [ShaderProgram_setUniformValue_float drawn].
      rewrite Hl. symmetry. apply app_assoc.
    + apply Forall_app. split; [exact Hall|].
      revert Hall'. apply Forall_impl.
      intros d (Hd1 & Hd2 & Hd3). exists x, z.
      unfold field_draw. cbv zeta.
      split; [split; assumption|].
      split; [rewrite Hd1; exact Hbase'|].
      split; [exact Hvisible|].
      split; [rewrite Hd2; reflexivity|].
      exists f. split; [exact Hf | exact Hd3].
Qed.

Lemma draw_fields_step (before : list (Mesh * Uniforms F))
    (base : Matrix4x4 F * F * F) (fr fr' : Frame F) :
  fields_drawn M s meshRotationTransformation before base fr ->
  draw_fields M s meshRotationTransformation fr = Ret fr' ->
  fields_drawn M s meshRotationTransformation before base fr'.
Proof.
  intros Hfr H. rewrite draw_fields_indices in H.
  apply (fold_outcome_invariant (fields_drawn M s meshRotationTransformation before base) _ _
           (fun x b b' Hx Hb Hz =>
              fold_outcome_invariant (fields_drawn M s meshRotationTransformation before base) _ _
                (fun z c c' Hz' Hc Hd =>
                   draw_field_step before base x z c c'
                     (proj1 (In_indices _ _) Hx)
                     (proj1 (In_indices _ _) Hz') Hc Hd)
                b b' Hb
                (eq_ind _ (fun o => o = Ret b') Hz _
                   (draw_fields_z_indices x b)))
           fr fr' Hfr H).
Qed.

(** Draw calls are never taken back. *)
Lemma draw_field_keeps (d : Mesh * Uniforms F) (x z : Z) (fr fr' : Frame F) :
  draw_field M s meshRotationTransformation x z fr = Ret fr' ->
  In d (drawn fr) -> In d (drawn fr').
Proof.
  intros H Hd. apply draw_field_Ret_inv in H.
  destruct H as [(_ & ->)|(_ & f & _ & ->)]; [exact Hd|].
  pose proof (draw_meshes_drawn x z f
                (ShaderProgram_setUniformValue_float uniformLocation_opacity
                   (distanceOpacity s x z) fr)) as Hm.
  cbv zeta in Hm. destruct Hm as (_ & l' & Hl' & _).
  rewrite Hl'. apply in_or_app. left. exact Hd.
Qed.

Lemma draw_fields_z_keeps (d : Mesh * Uniforms F) (x : Z) (fr fr' : Frame F) :
  draw_fields_z M s meshRotationTransformation x fr = Ret fr' ->
  In d (drawn fr) -> In d (drawn fr').
Proof.
  rewrite draw_fields_z_indices. intros H Hd.
  apply (fold_outcome_invariant (fun b => In d (drawn b)) _ _
           (fun z b b' _ Hb Hz => draw_field_keeps d x z b b' Hz Hb)
           fr fr' Hd H).
Qed.

(** A field of the grid that is not skipped gets its floor or its wall
    drawn. *)
Lemma draw_fields_reaches (x z : Z) (f : Field) (fr fr' : Frame F) :
  0 <= x < mapWidth M -> 0 <= z < mapDepth M ->
  (distanceOpacity s x z <? EPSILON)%float = false ->
  array_read (map M) (x * mapDepth M + z) = Ret f ->
  draw_fields M s meshRotationTransformation fr = Ret fr' ->
  exists u,
    In ((if Field_eqb f Wall then wallMesh else floorMesh), u) (drawn fr')
    /\ uniform_model u
       = Matrix4x4_createTranslation (of_int x) (of_int 0) (of_int z)
    /\ uniform_opacity u = distanceOpacity s x z.
Proof.
  intros Hx Hz Hvisible Hf H. rewrite draw_fields_indices in H.
  set (P := fun b : Frame F =>
              exists u,
                In ((if Field_eqb f Wall then wallMesh else floorMesh), u)
                  (drawn b)
                /\ uniform_model u
                   = Matrix4x4_createTranslation (of_int x) (of_int 0)
                       (of_int z)
                /\ uniform_opacity u = distanceOpacity s x z).
  assert (Hkeep_z : forall j k b b',
            draw_field M s meshRotationTransformation j k b = Ret b' ->
            P b -> P b').
  { intros j k b b' Hb (u & Hu & Hu'). exists u.
    split; [exact (draw_field_keeps _ j k b b' Hb Hu) | exact Hu']. }
  assert (Hkeep_x : forall j b b',
            draw_fields_z M s meshRotationTransformation j b = Ret b' ->
            P b -> P b').
  { intros j b b' Hb (u & Hu & Hu'). exists u.
    split; [exact (draw_fields_z_keeps _ j b b' Hb Hu) | exact Hu']. }
  refine (fold_outcome_reaches P _ (indices (mapWidth M)) x Hkeep_x _
            (proj2 (In_indices _ _) Hx) fr fr' H).
  intros b b' Hb. rewrite draw_fields_z_indices in Hb.
  refine (fold_outcome_reaches P _ (indices (mapDepth M)) z (Hkeep_z x) _
            (proj2 (In_indices _ _) Hz) b b' Hb).
  intros c c' Hc. apply draw_field_Ret_inv in Hc.
  destruct Hc as [(E & _)|(_ & g & Hg & ->)]; [congruence|].
  rewrite Hf in Hg. injection Hg as <-.
  pose proof (draw_meshes_drawn x z f
                (ShaderProgram_setUniformValue_float uniformLocation_opacity
                   (distanceOpacity s x z) c)) as Hm.
  cbv zeta in Hm. destruct Hm as (_ & l' & Hl' & _ & u & Hu & Hmodel & Hop).
  exists u. split; [rewrite Hl'; apply in_or_app; right; exact Hu|].
  split; [exact Hmodel | exact Hop].
Qed.

(** The drawing loops return when the array has an element for every field
    of the grid. *)
Lemma draw_fields_returns (fr : Frame F) :
  LENGTHOF (map M) = mapWidth M * mapDepth M ->
  exists fr', draw_fields M s meshRotationTransformation fr = Ret fr'.
Proof.
  intro Hlen. rewrite draw_fields_indices.
  apply fold_outcome_total. intros x b Hx. apply In_indices in Hx.
  rewrite draw_fields_z_indices.
  apply fold_outcome_total. intros z c Hz. apply In_indices in Hz.
  unfold draw_field.
  destruct (distanceOpacity s x z <? EPSILON)%float; [eexists; reflexivity|].
  destruct (array_read_in_bounds (map M) (x * mapDepth M + z)) as (f & Hf).
  { rewrite Hlen. nia. }
  rewrite Hf. cbn [bind]. eexists. reflexivity.
Qed.

End Redraw.

(** A frame, read backwards from the result of the redraw: the skybox, the
    held item if there is one, and draw calls for fields. *)
Lemma Game_onRedraw_Ret_inv {F : Type} {ops : FloatOps F}
    (M : MapDefinition) (s : GameState F) (u : Uniforms F) (fr : Frame F) :
  Game_onRedraw M s u = Ret fr ->
  exists l,
    drawn fr
    = ((skyboxMesh, skybox_uniforms s)
       :: (if ItemState_eqb (itemState s) Held
           then [(crystalMesh, hover_uniforms s)] else []))
      ++ l
    /\ Forall
         (fun d =>
            exists x z,
              field_draw M s (Matrix4x4_createRotationY (itemRotationY s))
                (viewTransformation s, gameBrightness s, currentTimeMs s)
                x z d) l.
Proof.
  unfold Game_onRedraw. intro H.
  apply (draw_fields_step M s _
           ((skyboxMesh, skybox_uniforms s)
            :: (if ItemState_eqb (itemState s) Held
                then [(crystalMesh, hover_uniforms s)] else []))
           (viewTransformation s, gameBrightness s, currentTimeMs s)) in H.
  - destruct H as (_ & l & Hl & Hall). exists l. split; assumption.
  - destruct (ItemState_eqb (itemState s) Held).
    + split; [reflexivity|]. exists []. split; [reflexivity | constructor].
    + split; [reflexivity|]. exists []. split; [reflexivity | constructor].
Qed.

(** The redraw returns when the array has an element for every field of the
    grid. *)
Lemma Game_onRedraw_returns {F : Type} {ops : FloatOps F}
    (M : MapDefinition) (s : GameState F) (u : Uniforms F) :
  LENGTHOF (map M) = mapWidth M * mapDepth M ->
  exists fr, Game_onRedraw M s u = Ret fr.
Proof.
  intro Hlen. unfold Game_onRedraw. apply draw_fields_returns. exact Hlen.
Qed.

Lemma Game_onLoad_map_size {F : Type} {ops : FloatOps F}
    (M : MapDefinition) (t : Z) (s s' : GameState F) :
  Game_onLoad M t s = Ret s' ->
  LENGTHOF (map M) = mapWidth M * mapDepth M.
Proof.
  unfold Game_onLoad, Common_terminate.
  destruct (isLoaded s); [discriminate|].
  intro H. apply bind_Ret_inv in H. destruct H as (size & Hsize & H).
  apply int_result_Ret_inv in Hsize. destruct Hsize as (-> & _).
  destruct (Z.eqb_spec (LENGTHOF (map M)) (mapWidth M * mapDepth M))
    as [E|E]; [exact E | discriminate].
Qed.

(** Once the game is loaded every redraw returns, whatever the state of the
    game and whatever uniforms the frame before has left: the size check of
    the load is what keeps the unchecked reads of the drawing loops inside
    the array. *)
Theorem Game_onRedraw_after_load (F : Type) (ops : FloatOps F)
    (M : MapDefinition) (t : Z) (s0 s1 : GameState F) :
  Game_onLoad M t s0 = Ret s1 ->
  forall (s : GameState F) (u : Uniforms F),
    exists fr, Game_onRedraw M s u = Ret fr.
Proof.
  intros Hload s u.
  apply Game_onRedraw_returns.
  exact (Game_onLoad_map_size M t s0 s1 Hload).
Qed.

Lemma Game_onRedraw_after_load_witness :
  exists s1 : GameState Q,
    Game_onLoad (ops := Qfloat taylor_libm) gemquest_map 0
      (initial_state (ops := Qfloat taylor_libm)) = Ret s1
    /\ exists fr,
         Game_onRedraw (ops := Qfloat taylor_libm) gemquest_map s1
           (initial_uniforms (ops := Qfloat taylor_libm)) = Ret fr.
Proof.
  let r := eval vm_compute in
             (Game_onLoad (ops := Qfloat taylor_libm) gemquest_map 0
                (initial_state (ops := Qfloat taylor_libm))) in
  match r with
  | Ret ?s1 =>
      exists s1;
      assert (Hload : Game_onLoad (ops := Qfloat taylor_libm) gemquest_map 0
                        (initial_state (ops := Qfloat taylor_libm)) = Ret s1)
        by (vm_compute; reflexivity);
      split; [exact Hload|];
      exact (Game_onRedraw_after_load Q (Qfloat taylor_libm) gemquest_map 0
               (initial_state (ops := Qfloat taylor_libm)) s1 Hload s1
               (initial_uniforms (ops := Qfloat taylor_libm)))
  end.
Defined.

Lemma field_draw_cell (M : MapDefinition) (x z : Z) (f : Field) :
  0 <= x < mapWidth M -> 0 <= z < mapDepth M ->
  array_read (map M) (x * mapDepth M + z) = Ret f ->
  field_of_cell M x z = Some f.
Proof.
  intros Hx Hz Hf. apply array_read_Ret_inv in Hf. destruct Hf as (_ & Hf).
  unfold field_of_cell.
  destruct (Z.leb_spec 0 x); [|lia]. destruct (Z.ltb_spec x (mapWidth M)); [|lia].
  destruct (Z.leb_spec 0 z); [|lia]. destruct (Z.ltb_spec z (mapDepth M)); [|lia].
  exact Hf.
Qed.

Lemma filter_nil_Forall {A : Type} (p : A -> bool) (l : list A) :
  Forall (fun a => p a = false) l -> List.filter p l = [].
Proof.
  induction 1 as [|a l Ha _ IH]; cbn [List.filter]; [reflexivity|].
  rewrite Ha. exact IH.
Qed.

(** The quest item is drawn where the state of the item says.  While the
    item is held, a frame draws the crystal exactly once: at the player, a
    fifth of a unit below the player's position, fully opaque.  Before the
    item is picked up the crystal is drawn only at fields that are item
    fields, and after the drop only at fields that are goal fields, each
    time with the field's translation followed by the item's rotation. *)
Theorem crystal_is_drawn_where_the_item_is (F : Type) (ops : FloatOps F)
    (M : MapDefinition) (s : GameState F) (u : Uniforms F) (fr : Frame F) :
  Game_onRedraw M s u = Ret fr ->
  match itemState s with
  | Held => draws_of crystalMesh fr = [(crystalMesh, hover_uniforms s)]
  | Initial =>
      forall d, In d (draws_of crystalMesh fr) ->
        exists x z,
          field_of_cell M x z = Some Item
          /\ uniform_model (snd d)
             = Matrix4x4_multiply
                 (Matrix4x4_createTranslation (of_int x) (of_int 0) (of_int z))
                 (Matrix4x4_createRotationY (itemRotationY s))
  | Dropped =>
      forall d, In d (draws_of crystalMesh fr) ->
        exists x z,
          field_of_cell M x z = Some Goal
          /\ uniform_model (snd d)
             = Matrix4x4_multiply
                 (Matrix4x4_createTranslation (of_int x) (of_int 0) (of_int z))
                 (Matrix4x4_createRotationY (itemRotationY s))
  end.
Proof.
  intro H. apply Game_onRedraw_Ret_inv in H. destruct H as (l & Hl & Hall).
  unfold draws_of. rewrite Hl. clear Hl.
  destruct (itemState s) eqn:Hs;
    cbn [ItemState_eqb ItemState_value Z.eqb Pos.eqb app List.filter fst
         Mesh_eqb].
  - intros d Hd. apply filter_In in Hd. destruct Hd as (Hd & Hmesh).
    rewrite Forall_forall in Hall. destruct (Hall d Hd) as (x & z & Hdraw).
    destruct Hdraw as ((Hx & Hz) & _ & _ & _ & f & Hf & Hkind).
    destruct (fst d); try discriminate.
    destruct Hkind as ([(-> & _)|(_ & E)] & Hmodel); [|congruence].
    exists x, z. split; [|exact Hmodel].
    exact (field_draw_cell M x z Item Hx Hz Hf).
  - f_equal. apply filter_nil_Forall. revert Hall. apply Forall_impl.
    intros d (x & z & Hdraw).
    destruct Hdraw as (_ & _ & _ & _ & f & _ & Hkind).
    destruct (fst d); try reflexivity.
    destruct Hkind as ([(_ & E)|(_ & E)] & _); congruence.
  - intros d Hd. apply filter_In in Hd. destruct Hd as (Hd & Hmesh).
    rewrite Forall_forall in Hall. destruct (Hall d Hd) as (x & z & Hdraw).
    destruct Hdraw as ((Hx & Hz) & _ & _ & _ & f & Hf & Hkind).
    destruct (fst d); try discriminate.
    destruct Hkind as ([(_ & E)|(-> & _)] & Hmodel); [congruence|].
    exists x, z. split; [|exact Hmodel].
    exact (field_draw_cell M x z Goal Hx Hz Hf).
Qed.

Lemma crystal_is_drawn_where_the_item_is_witness :
  exists (s : GameState Q) (fr : Frame Q),
    play (window_ready ++ walk_to_item ++ pick_up) = Ret s
    /\ Game_onRedraw (ops := Qfloat taylor_libm) gemquest_map s
         (initial_uniforms (ops := Qfloat taylor_libm)) = Ret fr
    /\ draws_of crystalMesh fr
       = [(crystalMesh, hover_uniforms (ops := Qfloat taylor_libm) s)].
Proof.
  let r := eval vm_compute in (play (window_ready ++ walk_to_item ++ pick_up)) in
  match r with
  | Ret ?s =>
      exists s;
      destruct (Game_onRedraw_returns (ops := Qfloat taylor_libm) gemquest_map
                  s (initial_uniforms (ops := Qfloat taylor_libm)) eq_refl)
        as (fr & Hfr);
      exists fr;
      split; [vm_compute; reflexivity|];
      split; [exact Hfr|];
      exact (crystal_is_drawn_where_the_item_is Q (Qfloat taylor_libm)
               gemquest_map s (initial_uniforms (ops := Qfloat taylor_libm))
               fr Hfr)
  end.
Defined.

(** The opacity of a field in rational arithmetic, whatever [sqrt]
    returns: it is between 0 and 1, and at least [EPSILON] when the field
    is not skipped. *)
Lemma distanceOpacity_Q (L : Libm) (s : GameState Q) (x z : Z) :
  (0 <= distanceOpacity (ops := Qfloat L) s x z)%Q
  /\ (distanceOpacity (ops := Qfloat L) s x z <= 1)%Q
  /\ (fltb (FloatOps := Qfloat L) (distanceOpacity (ops := Qfloat L) s x z)
        (EPSILON (ops := Qfloat L)) = false ->
      (1 # 10000 <= distanceOpacity (ops := Qfloat L) s x z)%Q).
Proof.
  unfold distanceOpacity, Game_getMapFieldPositionByIndicies, MIN, MAX,
    EPSILON.
  unfold fltb, fsub, fconst, of_int, Qfloat.
  set (a := Qred (_ - Qred 4)).
  change (inject_Z 0) with 0%Q. change (inject_Z 1) with 1%Q.
  change (Qred (1 # 10000)) with (1 # 10000)%Q.
  assert (Hlast : forall o : Q,
            negb (Qle_bool (1 # 10000) (Qred o)) = false ->
            (1 # 10000 <= Qred o)%Q).
  { intros o Ho. apply negb_false_iff in Ho. apply Qle_bool_iff in Ho.
    exact Ho. }
  destruct (Qle_bool a 0) eqn:Ha; cbn [negb].
  - change (Qle_bool 1 0) with false. cbn [negb].
    split; [rewrite Qred_correct; lra|].
    split; [rewrite Qred_correct; lra | apply Hlast].
  - apply Qle_bool_false in Ha.
    destruct (Qle_bool 1 a) eqn:Ha1; cbn [negb].
    + split; [rewrite Qred_correct; lra|].
      split; [rewrite Qred_correct; lra | apply Hlast].
    + apply Qle_bool_false in Ha1.
      split; [rewrite Qred_correct; lra|].
      split; [rewrite Qred_correct; lra | apply Hlast].
Qed.

(** Every frame begins with the skybox, drawn at the origin.  Every draw
    call of a frame uses the camera at the player's eyes, the brightness of
    the game and the milliseconds of the clock, and its opacity is at least
    [EPSILON] and at most 1. *)
Theorem frame_uniforms (L : Libm) (M : MapDefinition) (s : GameState Q)
    (u : Uniforms Q) (fr : Frame Q) :
  Game_onRedraw (ops := Qfloat L) M s u = Ret fr ->
  (exists rest,
     drawn fr = (skyboxMesh, skybox_uniforms (ops := Qfloat L) s) :: rest)
  /\ forall d, In d (drawn fr) ->
       (1 # 10000 <= uniform_opacity (snd d))%Q
       /\ (uniform_opacity (snd d) <= 1)%Q
       /\ uniform_view (snd d) = viewTransformation (ops := Qfloat L) s
       /\ uniform_brightness (snd d) = gameBrightness s
       /\ uniform_currentTimeMs (snd d) = currentTimeMs s.
Proof.
  intro H. apply Game_onRedraw_Ret_inv in H. destruct H as (l & Hl & Hall).
  split; [eexists; rewrite Hl; reflexivity|].
  intros d Hd. rewrite Hl in Hd. cbn [app] in Hd.
  assert (Hone : (1 # 10000 <= inject_Z 1)%Q /\ (inject_Z 1 <= 1)%Q)
    by (split; discriminate).
  destruct Hd as [<-|Hd].
  { cbn [snd skybox_uniforms uniform_opacity uniform_view uniform_brightness
         uniform_currentTimeMs of_int Qfloat].
    destruct Hone. repeat split; assumption || reflexivity. }
  apply in_app_or in Hd. destruct Hd as [Hd|Hd].
  { destruct (ItemState_eqb (itemState s) Held); [|destruct Hd].
    destruct Hd as [<-|[]].
    cbn [snd hover_uniforms uniform_opacity uniform_view uniform_brightness
         uniform_currentTimeMs of_int Qfloat].
    destruct Hone. repeat split; assumption || reflexivity. }
  rewrite Forall_forall in Hall. destruct (Hall d Hd) as (x & z & Hdraw).
  destruct Hdraw as (_ & Hbase & Hvisible & Hopacity & _).
  unfold base_uniforms in Hbase.
  destruct (distanceOpacity_Q L s x z) as (_ & Hle & Hge).
  rewrite Hopacity.
  split; [exact (Hge Hvisible)|]. split; [exact Hle|].
  split; [exact (f_equal (fun b => fst (fst b)) Hbase)|].
  split; [exact (f_equal (fun b => snd (fst b)) Hbase)|].
  exact (f_equal snd Hbase).
Qed.

Lemma frame_uniforms_witness :
  exists (s : GameState Q) (fr : Frame Q),
    play window_ready = Ret s
    /\ Game_onRedraw (ops := Qfloat taylor_libm) gemquest_map s
         (initial_uniforms (ops := Qfloat taylor_libm)) = Ret fr
    /\ (exists rest,
          drawn fr
          = (skyboxMesh, skybox_uniforms (ops := Qfloat taylor_libm) s) :: rest)
    /\ forall d, In d (drawn fr) ->
         (1 # 10000 <= uniform_opacity (snd d))%Q
         /\ (uniform_opacity (snd d) <= 1)%Q
         /\ uniform_view (snd d)
            = viewTransformation (ops := Qfloat taylor_libm) s
         /\ uniform_brightness (snd d) = gameBrightness s
         /\ uniform_currentTimeMs (snd d) = currentTimeMs s.
Proof.
  let r := eval vm_compute in (play window_ready) in
  match r with
  | Ret ?s =>
      exists s;
      destruct (Game_onRedraw_returns (ops := Qfloat taylor_libm) gemquest_map
                  s (initial_uniforms (ops := Qfloat taylor_libm)) eq_refl)
        as (fr & Hfr);
      exists fr;
      split; [vm_compute; reflexivity|];
      split; [exact Hfr|];
      exact (frame_uniforms taylor_libm gemquest_map s
               (initial_uniforms (ops := Qfloat taylor_libm)) fr Hfr)
  end.
Defined.

(** The opacity of a field in real arithmetic: the field is not skipped
    exactly when its distance from the player is at most [5 - EPSILON], and
    its opacity is then 1 up to the distance 4 and [5 - distance] beyond. *)
Lemma distanceOpacity_R (s : GameState R) (x z : Z) :
  ((distanceOpacity (ops := Rfloat) s x z <? EPSILON (ops := Rfloat))%float
   = false
   <-> (field_distance s x z <= 5 - Q2R (1 # 10000))%R)
  /\ ((field_distance s x z <= 5)%R ->
      distanceOpacity (ops := Rfloat) s x z
      = Rmin 1 (5 - field_distance s x z)).
Proof.
  unfold distanceOpacity, Game_getMapFieldPositionByIndicies, MIN, MAX,
    EPSILON, pow2.
  cbn [fltb fsub fadd fmul fconst of_int fsqrt Rfloat].
  change (R_sqrt.sqrt
            ((IZR x - playerX (player s)) * (IZR x - playerX (player s))
             + (IZR z - playerZ (player s)) * (IZR z - playerZ (player s))))
    with (field_distance s x z).
  set (d := field_distance s x z).
  assert (H4 : Q2R 4 = 4%R) by (unfold Q2R; simpl; Lra.lra).
  assert (He : (0 < Q2R (1 # 10000) < 1)%R).
  { unfold Q2R. cbn [Qnum Qden].
    assert (Hinv : (0 < / 10000 < 1)%R).
    { split; [apply Rinv_0_lt_compat; Lra.lra|].
      rewrite <- Rinv_1. apply Rinv_lt_contravar; Lra.lra. }
    Lra.lra. }
  rewrite H4. set (e := Q2R (1 # 10000)) in *.
  unfold Rmin.
  destruct (Rlt_dec 0 (d - 4)) as [Hfar|Hnear].
  - destruct (Rlt_dec (d - 4) 1) as [Hin|Hout].
    + destruct (Rlt_dec (1 - (d - 4)) e) as [Hlow|Hhigh];
        destruct (Rle_dec 1 (5 - d)) as [H1|H1];
        (split; [split; intro;
                 first [discriminate | reflexivity | Lra.lra
                       | exfalso; Lra.lra]
                | intro; Lra.lra]).
    + destruct (Rlt_dec (1 - 1) e) as [Hlow|Hhigh];
        destruct (Rle_dec 1 (5 - d)) as [H1|H1];
        (split; [split; intro;
                 first [discriminate | reflexivity | Lra.lra
                       | exfalso; Lra.lra]
                | intro; Lra.lra]).
  - destruct (Rlt_dec 0 1) as [_|H01]; [|exfalso; Lra.lra].
    destruct (Rlt_dec (1 - 0) e) as [Hlow|Hhigh];
      destruct (Rle_dec 1 (5 - d)) as [H1|H1];
      (split; [split; intro;
               first [discriminate | reflexivity | Lra.lra
                     | exfalso; Lra.lra]
              | intro; Lra.lra]).
Qed.

Lemma field_of_cell_array_read (M : MapDefinition) (x z : Z) (f : Field) :
  field_of_cell M x z = Some f ->
  (0 <= x < mapWidth M /\ 0 <= z < mapDepth M)
  /\ array_read (map M) (x * mapDepth M + z) = Ret f.
Proof.
  unfold field_of_cell.
  destruct (Z.leb_spec 0 x); [|discriminate].
  destruct (Z.ltb_spec x (mapWidth M)); [|discriminate].
  destruct (Z.leb_spec 0 z); [|discriminate].
  destruct (Z.ltb_spec z (mapDepth M)); [|discriminate].
  cbn [andb]. intro Hf. split; [lia|].
  assert (Hlt : (Z.to_nat (x * mapDepth M + z) < List.length (map M))%nat).
  { apply nth_error_Some. rewrite Hf. discriminate. }
  unfold array_read, LENGTHOF.
  destruct (Z.leb_spec 0 (x * mapDepth M + z)); [|nia].
  destruct (Z.ltb_spec (x * mapDepth M + z) (Z.of_nat (List.length (map M))));
    [|lia].
  cbn [andb]. rewrite Hf. reflexivity.
Qed.

(** A frame shows the fields near the player, in real arithmetic.  Every
    floor, wall, arch and tube of a frame is drawn at a field of the grid
    whose distance from the player is at most [5 - EPSILON], with the
    opacity 1 up to the distance 4 and [5 - distance] beyond; and every
    field of the grid within that distance has its floor (its wall, if it
    is a wall) drawn with that opacity. *)
Theorem frame_shows_the_fields_near_the_player (M : MapDefinition)
    (s : GameState R) (u : Uniforms R) (fr : Frame R) :
  Game_onRedraw (ops := Rfloat) M s u = Ret fr ->
  (forall mesh un,
     In (mesh, un) (drawn fr) ->
     mesh = floorMesh \/ mesh = wallMesh \/ mesh = archMesh
     \/ mesh = tubeMesh ->
     exists x z,
       (exists f, field_of_cell M x z = Some f)
       /\ drawn_at (ops := Rfloat) x z un
       /\ (field_distance s x z <= 5 - Q2R (1 # 10000))%R
       /\ uniform_opacity un = Rmin 1 (5 - field_distance s x z))
  /\ (forall x z f,
        field_of_cell M x z = Some f ->
        (field_distance s x z <= 5 - Q2R (1 # 10000))%R ->
        exists un,
          In ((if Field_eqb f Wall then wallMesh else floorMesh), un)
            (drawn fr)
          /\ drawn_at (ops := Rfloat) x z un
          /\ uniform_opacity un = Rmin 1 (5 - field_distance s x z)).
Proof.
  intro H.
  assert (He : (0 < Q2R (1 # 10000))%R).
  { unfold Q2R. cbn [Qnum Qden]. apply Rmult_lt_0_compat; [Lra.lra|].
    apply Rinv_0_lt_compat. Lra.lra. }
  split.
  - apply Game_onRedraw_Ret_inv in H. destruct H as (l & Hl & Hall).
    intros mesh un Hd Hmesh. rewrite Hl in Hd. cbn [app] in Hd.
    destruct Hd as [E|Hd].
    { injection E as <- _. destruct Hmesh as [E|[E|[E|E]]]; discriminate. }
    apply in_app_or in Hd. destruct Hd as [Hd|Hd].
    { destruct (ItemState_eqb (itemState s) Held); [|destruct Hd].
      destruct Hd as [E|[]]. injection E as <- _.
      destruct Hmesh as [E|[E|[E|E]]]; discriminate. }
    rewrite Forall_forall in Hall.
    destruct (Hall (mesh, un) Hd) as (x & z & Hdraw).
    destruct Hdraw as ((Hx & Hz) & _ & Hvisible & Hopacity & f & Hf & Hkind).
    cbn [fst snd] in Hopacity, Hkind.
    destruct (distanceOpacity_R s x z) as (Hnear & Hvalue).
    apply Hnear in Hvisible.
    exists x, z.
    split; [exists f; exact (field_draw_cell M x z f Hx Hz Hf)|].
    split.
    + unfold drawn_at.
      destruct Hmesh as [ -> | [ -> | [ -> | -> ] ] ]; destruct Hkind as (_ & Hm);
        exact Hm.
    + split; [exact Hvisible|]. rewrite Hopacity. apply Hvalue. Lra.lra.
  - intros x z f Hcell Hd.
    apply field_of_cell_array_read in Hcell.
    destruct Hcell as ((Hx & Hz) & Hf).
    destruct (distanceOpacity_R s x z) as (Hnear & Hvalue).
    unfold Game_onRedraw in H.
    destruct (draw_fields_reaches M s _ x z f _ fr Hx Hz
                (proj2 Hnear Hd) Hf H) as (un & Hin & Hmodel & Hopacity).
    exists un. split; [exact Hin|]. split; [exact Hmodel|].
    rewrite Hopacity. apply Hvalue. Lra.lra.
Qed.

Lemma frame_shows_the_fields_near_the_player_witness :
  exists fr : Frame R,
    Game_onRedraw (ops := Rfloat) gemquest_map (initial_state (ops := Rfloat))
      (initial_uniforms (ops := Rfloat)) = Ret fr
    /\ (forall mesh un,
          In (mesh, un) (drawn fr) ->
          mesh = floorMesh \/ mesh = wallMesh \/ mesh = archMesh
          \/ mesh = tubeMesh ->
          exists x z,
            (exists f, field_of_cell gemquest_map x z = Some f)
            /\ drawn_at (ops := Rfloat) x z un
            /\ (field_distance (initial_state (ops := Rfloat)) x z
                <= 5 - Q2R (1 # 10000))%R
            /\ uniform_opacity un
               = Rmin 1 (5 - field_distance (initial_state (ops := Rfloat)) x z))
    /\ (forall x z f,
          field_of_cell gemquest_map x z = Some f ->
          (field_distance (initial_state (ops := Rfloat)) x z
           <= 5 - Q2R (1 # 10000))%R ->
          exists un,
            In ((if Field_eqb f Wall then wallMesh else floorMesh), un)
              (drawn fr)
            /\ drawn_at (ops := Rfloat) x z un
            /\ uniform_opacity un
               = Rmin 1 (5 - field_distance (initial_state (ops := Rfloat)) x z)).
Proof.
  destruct (Game_onRedraw_returns (ops := Rfloat) gemquest_map
              (initial_state (ops := Rfloat)) (initial_uniforms (ops := Rfloat))
              eq_refl) as (fr & Hfr).
  exists fr. split; [exact Hfr|].
  exact (frame_shows_the_fields_near_the_player gemquest_map
           (initial_state (ops := Rfloat)) (initial_uniforms (ops := Rfloat))
           fr Hfr).
Defined.

(* ================================================================== *)
(** * Where the unchecked lookup is safe *)
(* ================================================================== *)

(** [roundf] moves a number by at most one half. *)
Lemma Qroundf_near (x : Q) :
  (x - (1 # 2) <= inject_Z (Qroundf x))%Q
  /\ (inject_Z (Qroundf x) <= x + (1 # 2))%Q.
Proof.
  unfold Qroundf. destruct (Qle_bool 0 x).
  - pose proof (Qfloor_le (x + (1 # 2))) as Hle.
    pose proof (Qlt_floor (x + (1 # 2))) as Hlt.
    rewrite inject_Z_plus in Hlt. change (inject_Z 1) with 1%Q in Hlt.
    split; lra.
  - pose proof (Qle_ceiling (x - (1 # 2))) as Hle.
    pose proof (Qceiling_lt (x - (1 # 2))) as Hlt.
    rewrite inject_Z_sub in Hlt. change (inject_Z 1) with 1%Q in Hlt.
    split; lra.
Qed.

(** A displacement of at most one half moves the rounded index by at most
    one. *)
Lemma Qroundf_step (p v : Q) :
  (Qabs v <= 1 # 2)%Q ->
  Qroundf p - 1 <= Qroundf (Qred (p + v)) <= Qroundf p + 1.
Proof.
  intro Hv. apply Qabs_Qle_condition in Hv. destruct Hv as (Hlo & Hhi).
  destruct (Qroundf_near p) as (Hp1 & Hp2).
  destruct (Qroundf_near (Qred (p + v))) as (Hq1 & Hq2).
  pose proof (Qred_correct (p + v)) as Hred.
  assert (H1 : (inject_Z (Qroundf p) - 2 < inject_Z (Qroundf (Qred (p + v))))%Q)
    by lra.
  assert (H2 : (inject_Z (Qroundf (Qred (p + v))) < inject_Z (Qroundf p) + 2)%Q)
    by lra.
  change 2%Q with (inject_Z 2) in H1, H2.
  rewrite <- inject_Z_plus in H2.
  assert (E : (inject_Z (Qroundf p) - inject_Z 2
               == inject_Z (Qroundf p - 2))%Q)
    by (rewrite inject_Z_sub; reflexivity).
  rewrite E in H1.
  rewrite <- Zlt_Qlt in H1, H2. lia.
Qed.

(** In the game's map the position lookup of the collision check stays
    inside the array as long as the player stands on a field that does not
    block and moves by at most half a unit along each axis: the field looked
    up is then a neighbour of the player's field, and the border of the map
    is made of walls.  The collision check returns. *)
Theorem collision_check_stays_inside_the_map (L : Libm) (px pz ax az : Q) :
  walkable gemquest_map (Qroundf px) (Qroundf pz) ->
  (Qabs ax <= 1 # 2)%Q -> (Qabs az <= 1 # 2)%Q ->
  exists f r,
    Game_getMapFieldByPosition (ops := Qfloat L) gemquest_map
      (fadd (FloatOps := Qfloat L) px ax) (fadd (FloatOps := Qfloat L) pz az)
    = Ret f
    /\ resolve_collision (ops := Qfloat L) gemquest_map px pz ax az = Ret r.
Proof.
  intros Hcell Hax Haz.
  apply walkable_gemquest_interior in Hcell. destruct Hcell as (Hcx & Hcz).
  pose proof (Qroundf_step px ax Hax) as Hx.
  pose proof (Qroundf_step pz az Haz) as Hz.
  assert (Hlookup : exists f,
            Game_getMapFieldByPosition (ops := Qfloat L) gemquest_map
              (Qred (px + ax)) (Qred (pz + az)) = Ret f).
  { unfold Game_getMapFieldByPosition, Game_getMapFieldIndiciesByPosition,
      float_to_int.
    cbn [roundf trunc Qfloat]. rewrite !Qtrunc_inject_Z.
    set (ix := Qroundf (Qred (px + ax))) in *.
    set (iz := Qroundf (Qred (pz + az))) in *.
    rewrite (int_result_in_range ix), (int_result_in_range iz)
      by (unfold INT_MIN, INT_MAX; lia).
    cbn [bind]. apply array_read_in_bounds.
    change (LENGTHOF (map gemquest_map)) with 165.
    change (mapDepth gemquest_map) with 11. lia. }
  destruct Hlookup as (f & Hf). exists f.
  unfold resolve_collision. cbn [fadd Qfloat]. rewrite Hf. cbn [bind].
  destruct (Field_value f <=? 0); eexists; (split; [reflexivity|reflexivity]).
Qed.

Lemma collision_check_stays_inside_the_map_witness :
  exists f r,
    Game_getMapFieldByPosition (ops := Qfloat taylor_libm) gemquest_map
      (fadd (FloatOps := Qfloat taylor_libm) 7%Q (1 # 5)%Q)
      (fadd (FloatOps := Qfloat taylor_libm) 1%Q 0%Q) = Ret f
    /\ resolve_collision (ops := Qfloat taylor_libm) gemquest_map
         7%Q 1%Q (1 # 5)%Q 0%Q = Ret r.
Proof.
  apply (collision_check_stays_inside_the_map taylor_libm 7%Q 1%Q (1 # 5)%Q
           0%Q).
  - exists Init. split; [reflexivity | simpl; lia].
  - vm_compute. discriminate.
  - vm_compute. discriminate.
Defined.

(* ================================================================== *)
(** * The speed of the player *)
(* ================================================================== *)

Lemma magnitude_scale (c x z : R) :
  magnitude ((x * c)%R, (z * c)%R) = (Rabs c * magnitude (x, z))%R.
Proof.
  unfold magnitude. cbn [fst snd].
  replace (x * c * (x * c) + z * c * (z * c))%R
    with (Rsqr c * (x * x + z * z))%R by (unfold Rsqr; ring).
  rewrite sqrt_mult_alt by apply Rle_0_sqr.
  rewrite sqrt_Rsqr_abs. reflexivity.
Qed.

(** The triangle inequality in the plane. *)
Lemma magnitude_triangle (a b c d : R) :
  (magnitude ((a + c)%R, (b + d)%R) <= magnitude (a, b) + magnitude (c, d))%R.
Proof.
  unfold magnitude. cbn [fst snd].
  set (A := R_sqrt.sqrt (a * a + b * b)).
  set (C := R_sqrt.sqrt (c * c + d * d)).
  assert (HA : (0 <= A)%R) by apply sqrt_pos.
  assert (HC : (0 <= C)%R) by apply sqrt_pos.
  assert (HAA : (A * A = a * a + b * b)%R) by (apply sqrt_sqrt; Lra.nra).
  assert (HCC : (C * C = c * c + d * d)%R) by (apply sqrt_sqrt; Lra.nra).
  assert (Hcs : (a * c + b * d <= A * C)%R).
  { destruct (Rle_lt_dec (a * c + b * d) 0) as [Hneg|Hpos].
    - apply Rle_trans with 0%R; [exact Hneg | apply Rmult_le_pos; assumption].
    - apply Rsqr_incr_0_var; [|apply Rmult_le_pos; assumption].
      unfold Rsqr.
      replace (A * C * (A * C))%R with ((A * A) * (C * C))%R by ring.
      rewrite HAA, HCC.
      assert (Hsq : (0 <= (a * d - b * c) * (a * d - b * c))%R)
        by apply Rle_0_sqr.
      Lra.nra. }
  rewrite <- (sqrt_square (A + C)) by Lra.lra.
  apply sqrt_le_1_alt. Lra.nra.
Qed.

Lemma candidate_accerlation_bounded (t : Z) (s : GameState R) :
  lastUpdateTime s <= t <= lastUpdateTime s + 200 ->
  (magnitude (playerAccerlationX (player s), playerAccerlationZ (player s))
   <= Q2R (4 # 100))%R ->
  (magnitude (candidate_accerlation (ops := Rfloat) t s) <= Q2R (4 # 100))%R.
Proof.
  intros (Hlo & Hhi) Hv.
  unfold candidate_accerlation, apply_friction, PLAYER_FRICTION.
  cbn [fadd fsub fmul fdiv of_int fconst Rfloat].
  set (dt := (IZR (t - lastUpdateTime s) / IZR 1000)%R).
  assert (Hdt : (0 <= dt <= 2 / 10)%R).
  { unfold dt. apply IZR_le in Hlo, Hhi.
    rewrite minus_IZR. rewrite plus_IZR in Hhi.
    set (a := IZR t) in *. set (b := IZR (lastUpdateTime s)) in *.
    unfold Rdiv. split; Lra.lra. }
  match goal with
  | |- context [added_accerlation ?i ?yaw dt] =>
      pose proof (proj2 (added_accerlation_capped i yaw dt)) as Ha;
      set (added := added_accerlation (ops := Rfloat) i yaw dt) in *
  end.
  rewrite (Rabs_pos_eq dt) in Ha by Lra.lra.
  assert (H5 : Q2R (5 # 1) = 5%R) by (unfold Q2R; simpl; Lra.lra).
  assert (H2 : Q2R (2 # 10) = (2 / 10)%R) by (unfold Q2R; simpl; Lra.lra).
  assert (H4 : Q2R (4 # 100) = (4 / 100)%R) by (unfold Q2R; simpl; Lra.lra).
  rewrite H5. rewrite H2 in Ha. rewrite H4 in Hv |- *.
  set (vx := playerAccerlationX (player s)) in *.
  set (vz := playerAccerlationZ (player s)) in *.
  replace (vx + fst added - (vx + fst added) * (dt * 5))%R
    with ((vx + fst added) * (1 - dt * 5))%R by ring.
  replace (vz + snd added - (vz + snd added) * (dt * 5))%R
    with ((vz + snd added) * (1 - dt * 5))%R by ring.
  rewrite magnitude_scale. rewrite Rabs_pos_eq by Lra.lra.
  pose proof (magnitude_triangle vx vz (fst added) (snd added)) as Htri.
  replace (magnitude (fst added, snd added)) with (magnitude added) in Htri
    by (destruct added; reflexivity).
  set (m := magnitude ((vx + fst added)%R, (vz + snd added)%R)) in *.
  assert (Hm : (0 <= m)%R) by apply sqrt_pos.
  set (mv := magnitude (vx, vz)) in *. set (ma := magnitude added) in *.
  assert (Hbound : (m <= 4 / 100 + dt * (2 / 10))%R) by Lra.lra.
  apply Rle_trans with ((1 - dt * 5) * (4 / 100 + dt * (2 / 10)))%R.
  - apply Rmult_le_compat_l; [Lra.lra | exact Hbound].
  - Lra.nra.
Qed.

(** The horizontal speed has a ceiling.  With updates at most 200
    milliseconds apart, a horizontal displacement of length at most 0.04
    is followed by one of length at most 0.04, whatever keys are held and
    wherever the player looks: what the input adds, at most
    [0.2 * deltaSeconds], is taken back by the friction. *)
Theorem horizontal_speed_stays_bounded (t : Z) (s : GameState R) :
  lastUpdateTime s <= t <= lastUpdateTime s + 200 ->
  (magnitude (playerAccerlationX (player s), playerAccerlationZ (player s))
   <= Q2R (4 # 100))%R ->
  (magnitude (candidate_accerlation (ops := Rfloat) t s) <= Q2R (4 # 100))%R.
Proof.
  exact (candidate_accerlation_bounded t s).
Qed.

Lemma horizontal_speed_stays_bounded_witness :
  (magnitude (candidate_accerlation (ops := Rfloat) 30
                (set_input forward_and_right (initial_state (ops := Rfloat))))
   <= Q2R (4 # 100))%R.
Proof.
  apply (horizontal_speed_stays_bounded 30
           (set_input forward_and_right (initial_state (ops := Rfloat)))).
  - cbn [set_input lastUpdateTime initial_state]. lia.
  - cbn [set_input player initial_state playerAccerlationX playerAccerlationZ
         of_int Rfloat].
    unfold magnitude. cbn [fst snd].
    replace (0 * 0 + 0 * 0)%R with 0%R by ring. rewrite sqrt_0.
    unfold Q2R. cbn [Qnum Qden].
    apply Rmult_le_pos; [Lra.lra|]. left. apply Rinv_0_lt_compat. Lra.lra.
Defined.
